(** * ton-deploy-demo: on-chain jetton metadata codec, deployment messages
      and the wallet connection store.

    A shallow embedding of
    - [buildOnChainData], [parseOnChainData], [initData], [mintBody]
      (the jetton minter helpers), and
    - [connectWalletSelector] (the recoil selector of the connection store),
    together with the parts of the libraries they call: the cell builder,
    slice reader and dictionary (de)serialiser of the [ton] package, the
    [Buffer] string encodings and SHA-256. *)

From Stdlib Require Import String Ascii ZArith Bool Lia Permutation List.
Import ListNotations.
Set Warnings "-register-all".
Open Scope Z_scope.

(* ================================================================== *)
(** * Part I. Definitions *)
(* ================================================================== *)

(** ** JavaScript strings

    A JS string is a sequence of UTF-16 code units. *)

Definition jsstring := list Z.

(** The JS string written with the ASCII characters of [s]. *)
Definition js (s : string) : jsstring :=
  map (fun c => Z.of_nat (nat_of_ascii c)) (list_ascii_of_string s).

Definition jsstring_eqb (a b : jsstring) : bool :=
  if list_eq_dec Z.eq_dec a b then true else false.

(** ** Errors and the result monad

    Every [throw] of the program and of the library calls it makes is a
    constructor here; the message of the JS [Error] is in the comment. *)

Inductive error : Type :=
| UnsupportedOnchainKey (k : jsstring) (* `Unsupported onchain key: ${k}` *)
| ExpectedOnchainContentMarker        (* "Expected onchain content marker" *)
| OnlySnakeFormatSupported            (* "Only snake format is supported" *)
| BitStringOverflow                   (* BitString: write past the capacity *)
| BitLengthTooSmall                   (* BitString.writeUint: value too wide *)
| ItemAlreadyExists                   (* DictBuilder.storeCell: key present *)
| SliceOutOfRange                     (* Slice: read past the last bit *)
| NoMoreRefs                          (* Slice.readRef: no reference left *)
| NotByteAligned                      (* Slice.readRemainingBytes *)
| DictInconsistency                   (* serializeDict: 'Internal inconsistency' *)
| TypeError                           (* property read of null / undefined *)
| InvalidAddress.                     (* Address.parse rejects its input *)

Inductive result (A : Type) : Type :=
| Ok (a : A)
| Err (e : error).
Arguments Ok {A} a.
Arguments Err {A} e.

Definition bind {A B} (r : result A) (k : A -> result B) : result B :=
  match r with
  | Ok a => k a
  | Err e => Err e
  end.

Declare Scope result_scope.
Delimit Scope result_scope with result.
Notation "x <- c ;; k" := (bind c (fun x => k))
  (at level 61, c at next level, right associativity) : result_scope.
Notation "' p <- c ;; k" := (bind c (fun x => match x with p => k end))
  (at level 61, p pattern, c at next level, right associativity) : result_scope.
Open Scope result_scope.

Definition isOk {A} (r : result A) : bool :=
  match r with Ok _ => true | Err _ => false end.


(** [Array.prototype.forEach] with a callback that may throw, threading the
    state the callback mutates. *)
Fixpoint forEach {A S} (f : S -> A -> result S) (l : list A) (s : S)
  : result S :=
  match l with
  | [] => Ok s
  | a :: l' => s' <- f s a ;; forEach f l' s'
  end.

(** ** [Buffer] string encodings (package [buffer])

    [Buffer.from(str, encoding)] and [buf.toString(encoding)] for the two
    encodings the program uses.  A buffer is its list of bytes. *)

Module Buffer.

Inductive Encoding : Type := utf8 | ascii.

Definition REPLACEMENT : list Z := [0xEF; 0xBF; 0xBD].

(** The "encode utf8" tail of the loop of [utf8ToBytes]. *)
Definition encodeCodePoint (codePoint : Z) : list Z :=
  if codePoint <? 0x80 then [codePoint]
  else if codePoint <? 0x800 then
    [Z.lor (Z.shiftr codePoint 0x6) 0xC0;
     Z.lor (Z.land codePoint 0x3F) 0x80]
  else if codePoint <? 0x10000 then
    [Z.lor (Z.shiftr codePoint 0xC) 0xE0;
     Z.lor (Z.land (Z.shiftr codePoint 0x6) 0x3F) 0x80;
     Z.lor (Z.land codePoint 0x3F) 0x80]
  else
    [Z.lor (Z.shiftr codePoint 0x12) 0xF0;
     Z.lor (Z.land (Z.shiftr codePoint 0xC) 0x3F) 0x80;
     Z.lor (Z.land (Z.shiftr codePoint 0x6) 0x3F) 0x80;
     Z.lor (Z.land codePoint 0x3F) 0x80].

Definition isSurrogate (c : Z) : bool := (0xD7FF <? c) && (c <? 0xE000).

(** [utf8ToBytes]: the loop over the code units, with [leadSurrogate] as
    its state. *)
Fixpoint utf8ToBytes_loop (str : jsstring) (leadSurrogate : option Z)
  : list Z :=
  match str with
  | [] => []
  | codePoint :: rest =>
      if isSurrogate codePoint then
        match leadSurrogate with
        | None =>
            if 0xDBFF <? codePoint then
              (* unexpected trail *)
              REPLACEMENT ++ utf8ToBytes_loop rest None
            else
              match rest with
              | [] => (* unpaired lead *) REPLACEMENT
              | _ => (* valid lead *) utf8ToBytes_loop rest (Some codePoint)
              end
        | Some lead =>
            if codePoint <? 0xDC00 then
              (* 2 leads in a row *)
              REPLACEMENT ++ utf8ToBytes_loop rest (Some codePoint)
            else
              (* valid surrogate pair *)
              encodeCodePoint
                (Z.lor (Z.shiftl (lead - 0xD800) 10) (codePoint - 0xDC00)
                 + 0x10000)
              ++ utf8ToBytes_loop rest None
        end
      else
        (* valid bmp char, but last char was a lead *)
        (match leadSurrogate with Some _ => REPLACEMENT | None => [] end)
        ++ encodeCodePoint codePoint ++ utf8ToBytes_loop rest None
  end.

Definition utf8ToBytes (str : jsstring) : list Z := utf8ToBytes_loop str None.

Definition isContinuation (b : Z) : bool := Z.land b 0xC0 =? 0x80.

(** The code units pushed for one decoded code point. *)
Definition pushCodePoint (codePoint : Z) : jsstring :=
  if 0xFFFF <? codePoint then
    let cp := codePoint - 0x10000 in
    [Z.lor (Z.land (Z.shiftr cp 10) 0x3FF) 0xD800;
     Z.lor 0xDC00 (Z.land cp 0x3FF)]
  else [codePoint].

(** [utf8Slice]: an invalid sequence yields U+FFFD and advances one byte. *)
Fixpoint utf8Slice (buf : list Z) : jsstring :=
  match buf with
  | [] => []
  | firstByte :: t1 =>
      let invalid := 0xFFFD :: utf8Slice t1 in
      if 0xEF <? firstByte then
        match t1 with
        | secondByte :: thirdByte :: fourthByte :: t4 =>
            let tempCodePoint :=
              Z.lor (Z.lor (Z.lor (Z.shiftl (Z.land firstByte 0xF) 0x12)
                                  (Z.shiftl (Z.land secondByte 0x3F) 0xC))
                           (Z.shiftl (Z.land thirdByte 0x3F) 0x6))
                    (Z.land fourthByte 0x3F) in
            if isContinuation secondByte && isContinuation thirdByte
               && isContinuation fourthByte
               && (0xFFFF <? tempCodePoint) && (tempCodePoint <? 0x110000)
            then pushCodePoint tempCodePoint ++ utf8Slice t4
            else invalid
        | _ => invalid
        end
      else if 0xDF <? firstByte then
        match t1 with
        | secondByte :: thirdByte :: t3 =>
            let tempCodePoint :=
              Z.lor (Z.lor (Z.shiftl (Z.land firstByte 0xF) 0xC)
                           (Z.shiftl (Z.land secondByte 0x3F) 0x6))
                    (Z.land thirdByte 0x3F) in
            if isContinuation secondByte && isContinuation thirdByte
               && (0x7FF <? tempCodePoint)
               && ((tempCodePoint <? 0xD800) || (0xDFFF <? tempCodePoint))
            then pushCodePoint tempCodePoint ++ utf8Slice t3
            else invalid
        | _ => invalid
        end
      else if 0xBF <? firstByte then
        match t1 with
        | secondByte :: t2 =>
            let tempCodePoint :=
              Z.lor (Z.shiftl (Z.land firstByte 0x1F) 0x6)
                    (Z.land secondByte 0x3F) in
            if isContinuation secondByte && (0x7F <? tempCodePoint)
            then pushCodePoint tempCodePoint ++ utf8Slice t2
            else invalid
        | _ => invalid
        end
      else if firstByte <? 0x80 then pushCodePoint firstByte ++ utf8Slice t1
      else invalid
  end.

Definition asciiToBytes (str : jsstring) : list Z :=
  map (fun c => Z.land c 0xFF) str.

Definition asciiSlice (buf : list Z) : jsstring :=
  map (fun b => Z.land b 0x7F) buf.

(** [Buffer.from(str, encoding)]; an [encoding] that is not a string (here
    [None]) is replaced by 'utf8'. *)
Definition from (str : jsstring) (encoding : option Encoding) : list Z :=
  match encoding with
  | Some ascii => asciiToBytes str
  | Some utf8 | None => utf8ToBytes str
  end.

Definition toString (buf : list Z) (encoding : Encoding) : jsstring :=
  match encoding with
  | utf8 => utf8Slice buf
  | ascii => asciiSlice buf
  end.

(** [new BN(buf.toString('hex'), 'hex')]: the bytes as a big-endian number. *)
Definition toBN (buf : list Z) : Z :=
  fold_left (fun acc b => 256 * acc + b) buf 0.

End Buffer.

(** ** SHA-256 (package [@aws-crypto/sha256-js]) *)

Module Sha256.

Definition add32 (a b : Z) : Z := Z.land (a + b) 0xFFFFFFFF.
Definition rotr (n x : Z) : Z :=
  Z.lor (Z.shiftr x n) (Z.land (Z.shiftl x (32 - n)) 0xFFFFFFFF).
Definition not32 (x : Z) : Z := Z.lxor x 0xFFFFFFFF.

Definition Ch (x y z : Z) : Z := Z.lxor (Z.land x y) (Z.land (not32 x) z).
Definition Maj (x y z : Z) : Z :=
  Z.lxor (Z.lxor (Z.land x y) (Z.land x z)) (Z.land y z).
Definition Sigma0 (x : Z) : Z := Z.lxor (Z.lxor (rotr 2 x) (rotr 13 x)) (rotr 22 x).
Definition Sigma1 (x : Z) : Z := Z.lxor (Z.lxor (rotr 6 x) (rotr 11 x)) (rotr 25 x).
Definition sigma0 (x : Z) : Z := Z.lxor (Z.lxor (rotr 7 x) (rotr 18 x)) (Z.shiftr x 3).
Definition sigma1 (x : Z) : Z := Z.lxor (Z.lxor (rotr 17 x) (rotr 19 x)) (Z.shiftr x 10).

(** The round constants, the table [KEY] of the package (there in
    hexadecimal, from 0x428a2f98 to 0xc67178f2). *)
Definition KEY : list Z :=
  [1116352408; 1899447441; 3049323471; 3921009573; 961987163; 1508970993;
   2453635748; 2870763221; 3624381080; 310598401; 607225278; 1426881987;
   1925078388; 2162078206; 2614888103; 3248222580; 3835390401; 4022224774;
   264347078; 604807628; 770255983; 1249150122; 1555081692; 1996064986;
   2554220882; 2821834349; 2952996808; 3210313671; 3336571891; 3584528711;
   113926993; 338241895; 666307205; 773529912; 1294757372; 1396182291;
   1695183700; 1986661051; 2177026350; 2456956037; 2730485921; 2820302411;
   3259730800; 3345764771; 3516065817; 3600352804; 4094571909; 275423344;
   430227734; 506948616; 659060556; 883997877; 958139571; 1322822218;
   1537002063; 1747873779; 1955562222; 2024104815; 2227730452; 2361852424;
   2428436474; 2756734187; 3204031479; 3329325298].

Definition INIT : list Z :=
  [0x6a09e667; 0xbb67ae85; 0x3c6ef372; 0xa54ff53a;
   0x510e527f; 0x9b05688c; 0x1f83d9ab; 0x5be0cd19].

(** Big-endian bytes of [v], [n] of them. *)
Fixpoint bytesOf (n : nat) (v : Z) : list Z :=
  match n with
  | O => []
  | S m => Z.land (Z.shiftr v (8 * Z.of_nat m)) 0xFF :: bytesOf m v
  end.

Definition pad (msg : list Z) : list Z :=
  let len := Z.of_nat (length msg) in
  let zeros := Z.to_nat ((55 - len) mod 64) in
  msg ++ [0x80] ++ repeat 0 zeros ++ bytesOf 8 (8 * len).

Fixpoint words (fuel : nat) (bytes : list Z) : list Z :=
  match fuel, bytes with
  | S f, b0 :: b1 :: b2 :: b3 :: rest =>
      (((b0 * 256 + b1) * 256 + b2) * 256 + b3) :: words f rest
  | _, _ => []
  end.

(** The message schedule, kept as a window of the last 16 words. *)
Fixpoint schedule (n : nat) (window : list Z) : list Z :=
  match n with
  | O => []
  | S m =>
      let w := add32 (add32 (sigma1 (nth 14 window 0)) (nth 9 window 0))
                     (add32 (sigma0 (nth 1 window 0)) (nth 0 window 0)) in
      w :: schedule m (tl window ++ [w])
  end.

Definition round (st : list Z) (kw : Z * Z) : list Z :=
  match st with
  | [a; b; c; d; e; f; g; h] =>
      let t1 := add32 (add32 (add32 h (Sigma1 e)) (add32 (Ch e f g) (fst kw)))
                      (snd kw) in
      let t2 := add32 (Sigma0 a) (Maj a b c) in
      [add32 t1 t2; a; b; c; add32 d t1; e; f; g]
  | _ => st
  end.

Definition compress (st : list Z) (block : list Z) : list Z :=
  let w := block ++ schedule 48 block in
  let st' := fold_left round (combine KEY w) st in
  map (fun p => add32 (fst p) (snd p)) (combine st st').

Fixpoint blocks (fuel : nat) (ws : list Z) (st : list Z) : list Z :=
  match fuel with
  | O => st
  | S f =>
      match ws with
      | [] => st
      | _ => blocks f (skipn 16 ws) (compress st (firstn 16 ws))
      end
  end.

(** The digest of a byte string, 32 bytes. *)
Definition digest (msg : list Z) : list Z :=
  let p := pad msg in
  let ws := words (length p) p in
  flat_map (bytesOf 4) (blocks (length ws) ws INIT).

End Sha256.

(** [sha256(str)]: the string is hashed as its UTF-8 bytes. *)
Definition sha256 (str : jsstring) : list Z :=
  Sha256.digest (Buffer.utf8ToBytes str).
Arguments sha256 : simpl never.

(** ** Bit strings, cells, builders (package [ton]) *)

Module Ton.

Abbreviation bits := (list bool).

(** Big-endian bits of [v], [n] of them. *)
Fixpoint bitsOfUint (n : nat) (v : Z) : bits :=
  match n with
  | O => []
  | S m => Z.testbit v (Z.of_nat m) :: bitsOfUint m v
  end.

Definition uintOfBits (bs : bits) : Z :=
  fold_left (fun acc b => 2 * acc + Z.b2z b) bs 0.

(** [v.toString(2).length] for a non-negative [v]. *)
Definition bitLength (v : Z) : Z :=
  if v =? 0 then 1 else Z.log2 v + 1.

(** [v.toString(16).length] for a non-negative [v]. *)
Definition hexLength (v : Z) : Z :=
  if v =? 0 then 1 else Z.log2 v / 4 + 1.

(** The bit string of a cell takes 1024 bits: it is allocated with length
    1023 and a write at offset [n] is refused only when [n > length]. *)
Definition CELL_BITS : nat := 1024.

Inductive Cell : Type :=
| mkCell (cbits : bits) (crefs : list Cell).

Definition cellBits (c : Cell) : bits := let 'mkCell b _ := c in b.
Definition cellRefs (c : Cell) : list Cell := let 'mkCell _ r := c in r.

(** *** BitString writers *)

Definition writeBit (b : bool) (bs : bits) : result bits :=
  if (length bs <? CELL_BITS)%nat then Ok (bs ++ [b]) else Err BitStringOverflow.

Definition writeBits (l : bits) (bs : bits) : result bits :=
  forEach (fun acc b => writeBit b acc) l bs.

(** [writeUint(value, bitLength)] for the values the program passes: the
    bytes of a buffer, lengths, opcodes and amounts, none of them negative.
    A negative value is refused here; the library writes the characters of
    its signed binary string instead, on which nothing below relies. *)
Definition writeUint (v : Z) (n : nat) (bs : bits) : result bits :=
  if (v <? 0) then Err BitLengthTooSmall
  else if (Nat.eqb n 0 || (Z.of_nat n <? bitLength v))%bool then
    if v =? 0 then Ok bs else Err BitLengthTooSmall
  else writeBits (bitsOfUint n v) bs.

(** [writeInt(value, bitLength)], two's complement written as sign bit and
    magnitude offset. *)
Definition writeInt (v : Z) (n : nat) (bs : bits) : result bits :=
  if Nat.eqb n 1 then
    if (v =? -1) || (v =? 0) then writeBit (v =? -1) bs
    else Err BitLengthTooSmall
  else if v <? 0 then
    bs' <- writeBit true bs ;;
    writeUint (2 ^ (Z.of_nat (n - 1)) + v) (n - 1) bs'
  else
    bs' <- writeBit false bs ;;
    writeUint v (n - 1) bs'.

Definition writeUint8 (v : Z) (bs : bits) : result bits := writeUint v 8 bs.

Definition writeBuffer (buf : list Z) (bs : bits) : result bits :=
  forEach (fun acc byte => writeUint8 byte acc) buf bs.

(** [writeCoins]: VarUInteger 16, a 4-bit byte count then the bytes. *)
Definition writeCoins (amount : Z) (bs : bits) : result bits :=
  if amount =? 0 then writeUint 0 4 bs
  else
    let l := (hexLength amount + 1) / 2 in
    bs' <- writeUint l 4 bs ;;
    writeUint amount (Z.to_nat (l * 8)) bs'.

Record Address : Type := mkAddress {
  workChain : Z;
  hash : list Z   (* 32 bytes *)
}.

Definition writeAddress (a : option Address) (bs : bits) : result bits :=
  match a with
  | None => writeUint 0 2 bs
  | Some a =>
      bs1 <- writeUint 2 2 bs ;;
      bs2 <- writeUint 0 1 bs1 ;;
      bs3 <- writeInt (workChain a) 8 bs2 ;;
      writeBuffer (hash a) bs3
  end.

(** *** Builder: [beginCell() ... .endCell()] *)

Record Builder : Type := mkBuilder {
  bbits : bits;
  brefs : list Cell
}.

Definition beginCell : Builder := mkBuilder [] [].

Definition onBits (w : bits -> result bits) (b : Builder) : result Builder :=
  bs <- w (bbits b) ;; Ok (mkBuilder bs (brefs b)).

Definition storeBit (v : bool) := onBits (writeBit v).
Definition storeUint (v : Z) (n : nat) := onBits (writeUint v n).
Definition storeInt (v : Z) (n : nat) := onBits (writeInt v n).
Definition storeUint8 (v : Z) := onBits (writeUint8 v).
Definition storeBuffer (buf : list Z) := onBits (writeBuffer buf).
Definition storeCoins (amount : Z) := onBits (writeCoins amount).
Definition storeAddress (a : option Address) := onBits (writeAddress a).

Definition storeRef (c : Cell) (b : Builder) : result Builder :=
  Ok (mkBuilder (bbits b) (brefs b ++ [c])).

(** [storeDict(src: Cell | null)] *)
Definition storeDict (src : option Cell) (b : Builder) : result Builder :=
  match src with
  | Some c => b' <- storeBit true b ;; storeRef c b'
  | None => storeBit false b
  end.

Definition endCell (b : Builder) : result Cell :=
  Ok (mkCell (bbits b) (brefs b)).

(** [Cell.writeCell(other)]: append the bits and the references of [other]. *)
Definition writeCell (src : Cell) (b : Builder) : result Builder :=
  bs <- writeBits (cellBits src) (bbits b) ;;
  Ok (mkBuilder bs (brefs b ++ cellRefs src)).

(** *** Slice: [cell.beginParse()] and its readers *)

Record Slice : Type := mkSlice {
  sbits : bits;
  srefs : list Cell
}.

Definition beginParse (c : Cell) : Slice := mkSlice (cellBits c) (cellRefs c).
Definition toCell (s : Slice) : Cell := mkCell (sbits s) (srefs s).

Definition takeBit (bs : bits) : result (bool * bits) :=
  match bs with
  | b :: rest => Ok (b, rest)
  | [] => Err SliceOutOfRange
  end.

Fixpoint takeBits (n : nat) (bs : bits) : result (bits * bits) :=
  match n with
  | O => Ok ([], bs)
  | S m =>
      '(b, rest) <- takeBit bs ;;
      '(l, rest') <- takeBits m rest ;;
      Ok (b :: l, rest')
  end.

Definition takeUint (n : nat) (bs : bits) : result (Z * bits) :=
  '(l, rest) <- takeBits n bs ;; Ok (uintOfBits l, rest).

(** [readUnaryLength]: count the 1 bits up to the first 0. *)
Fixpoint takeUnaryLength (bs : bits) : result (nat * bits) :=
  match bs with
  | [] => Err SliceOutOfRange
  | false :: rest => Ok (O, rest)
  | true :: rest => '(n, rest') <- takeUnaryLength rest ;; Ok (S n, rest')
  end.

Definition onSlice {A} (r : bits -> result (A * bits)) (s : Slice)
  : result (A * Slice) :=
  '(a, rest) <- r (sbits s) ;; Ok (a, mkSlice rest (srefs s)).

Definition readBit := onSlice takeBit.
Definition readUint (n : nat) := onSlice (takeUint n).

Definition readRef (s : Slice) : result (Slice * Slice) :=
  match srefs s with
  | c :: rest => Ok (beginParse c, mkSlice (sbits s) rest)
  | [] => Err NoMoreRefs
  end.

Fixpoint bytesOfBits (fuel : nat) (bs : bits) : list Z :=
  match fuel with
  | O => []
  | S f =>
      match bs with
      | [] => []
      | _ => uintOfBits (firstn 8 bs) :: bytesOfBits f (skipn 8 bs)
      end
  end.

Definition readRemainingBytes (s : Slice) : result (list Z) :=
  if (length (sbits s) mod 8 =? 0)%nat
  then Ok (bytesOfBits (length (sbits s)) (sbits s))
  else Err NotByteAligned.

(** *** Dictionaries: [serializeDict] and [parseDict]

    Keys are kept as numbers (the library keeps their decimal strings). *)

(** [Math.ceil(Math.log2(keyLength + 1))] *)
Definition lenBits (keyLength : Z) : nat := Z.to_nat (Z.log2_up (keyLength + 1)).

(** [pad(new BN(k).toString(2), keyLength)] *)
Definition toBinary (v : Z) : bits := bitsOfUint (Z.to_nat (bitLength v)) v.

Definition padKey (keyLength : Z) (v : Z) : bits :=
  let b := toBinary v in
  repeat false (Z.to_nat keyLength - length b) ++ b.

Fixpoint commonPrefix (a b : bits) : bits :=
  match a, b with
  | x :: a', y :: b' => if Bool.eqb x y then x :: commonPrefix a' b' else []
  | _, _ => []
  end.

(** [findCommonPrefix]: the longest prefix shared by all the keys. *)
Definition findCommonPrefix (src : list bits) : bits :=
  match src with
  | [] => []
  | k :: rest => fold_left commonPrefix rest k
  end.

Section Trees.
Context {T : Type}.

Inductive Node : Type :=
| Fork (left right : Edge)
| Leaf (value : T)
with Edge : Type :=
| mkEdge (label : bits) (node : Node).

Definition removePrefixMap (src : list (bits * T)) (len : nat)
  : list (bits * T) :=
  map (fun kv => (skipn len (fst kv), snd kv)) src.

Definition startsWith0 (kv : bits * T) : bool :=
  match fst kv with
  | false :: _ => true
  | _ => false
  end.

Definition substr1 (kv : bits * T) : bits * T := (tl (fst kv), snd kv).

Definition forkMap (src : list (bits * T))
  : result (list (bits * T) * list (bits * T)) :=
  match src with
  | [] => Err DictInconsistency
  | _ =>
      let l := map substr1 (filter startsWith0 src) in
      let r := map substr1 (filter (fun kv => negb (startsWith0 kv)) src) in
      match l, r with
      | [], _ => Err DictInconsistency
      | _, [] => Err DictInconsistency
      | _, _ => Ok (l, r)
      end
  end.

(** [buildEdge] with [buildNode] inlined.  Each fork splits the entries into
    two non-empty parts, so the number of entries is enough fuel. *)
Fixpoint buildEdge (fuel : nat) (src : list (bits * T)) : result Edge :=
  match fuel with
  | O => Err DictInconsistency
  | S f =>
      match src with
      | [] => Err DictInconsistency
      | _ =>
          let label := findCommonPrefix (map fst src) in
          match removePrefixMap src (length label) with
          | [] => Err DictInconsistency
          | [kv] => Ok (mkEdge label (Leaf (snd kv)))
          | src' =>
              '(l, r) <- forkMap src' ;;
              le <- buildEdge f l ;;
              re <- buildEdge f r ;;
              Ok (mkEdge label (Fork le re))
          end
      end
  end.

Definition buildTree (src : list (Z * T)) (keyLength : Z) : result Edge :=
  let converted := map (fun kv => (padKey keyLength (fst kv), snd kv)) src in
  buildEdge (length converted) converted.

Inductive LabelType : Type := short | long | same.

Definition labelShortLength (src : bits) : Z := 1 + Z.of_nat (length src) + 1 + Z.of_nat (length src).
Definition labelLongLength (src : bits) (keyLength : Z) : Z :=
  1 + 1 + Z.of_nat (lenBits keyLength) + Z.of_nat (length src).
Definition labelSameLength (keyLength : Z) : Z :=
  1 + 1 + 1 + Z.of_nat (lenBits keyLength).

Definition isSame (src : bits) : bool :=
  match src with
  | [] => true
  | b :: rest => forallb (Bool.eqb b) rest
  end.

Definition detectLabelType (src : bits) (keyLength : Z) : LabelType :=
  let kind := short in
  let kindLength := labelShortLength src in
  let longLength := labelLongLength src keyLength in
  let '(kind, kindLength) :=
    if longLength <? kindLength then (long, longLength) else (kind, kindLength) in
  if isSame src then
    let sameLength := labelSameLength keyLength in
    if sameLength <? kindLength then same else kind
  else kind.

Definition writeLabelShort (src : bits) (to : bits) : result bits :=
  to1 <- writeBit false to ;;
  to2 <- writeBits (repeat true (length src)) to1 ;;
  to3 <- writeBit false to2 ;;
  writeBits src to3.

Definition writeLabelLong (src : bits) (keyLength : Z) (to : bits)
  : result bits :=
  to1 <- writeBit true to ;;
  to2 <- writeBit false to1 ;;
  to3 <- writeUint (Z.of_nat (length src)) (lenBits keyLength) to2 ;;
  writeBits src to3.

Definition writeLabelSame (value : bool) (len : nat) (keyLength : Z)
  (to : bits) : result bits :=
  to1 <- writeBit true to ;;
  to2 <- writeBit true to1 ;;
  to3 <- writeBit value to2 ;;
  writeUint (Z.of_nat len) (lenBits keyLength) to3.

Definition writeLabel (src : bits) (keyLength : Z) (to : bits) : result bits :=
  match detectLabelType src keyLength with
  | short => writeLabelShort src to
  | long => writeLabelLong src keyLength to
  | same => writeLabelSame (hd false src) (length src) keyLength to
  end.

Variable serializer : T -> Builder -> result Builder.

(** [writeEdge] and [writeNode] fill the cell [to] and return it. *)
Fixpoint writeEdge (src : Edge) (keyLength : Z) (to : Builder)
  : result Cell :=
  match src with
  | mkEdge label node =>
      bs <- writeLabel label keyLength (bbits to) ;;
      writeNode node (keyLength - Z.of_nat (length label))
                (mkBuilder bs (brefs to))
  end
with writeNode (src : Node) (keyLength : Z) (to : Builder) : result Cell :=
  match src with
  | Leaf value => to' <- serializer value to ;; endCell to'
  | Fork l r =>
      leftCell <- writeEdge l (keyLength - 1) beginCell ;;
      rightCell <- writeEdge r (keyLength - 1) beginCell ;;
      endCell (mkBuilder (bbits to) (brefs to ++ [leftCell; rightCell]))
  end.

Definition serializeDict (src : list (Z * T)) (keyLength : Z) : result Cell :=
  tree <- buildTree src keyLength ;;
  writeEdge tree keyLength beginCell.

End Trees.
Arguments Node T : clear implicits.
Arguments Edge T : clear implicits.

(** The label at the head of a dictionary cell: its bits and the rest. *)
Definition readLabel (n : Z) (bs : bits) : result (bits * bits) :=
  '(lb0, s1) <- takeBit bs ;;
  if negb lb0 then
    (* Short label detected *)
    '(prefixLength, s2) <- takeUnaryLength s1 ;;
    takeBits prefixLength s2
  else
    '(lb1, s2) <- takeBit s1 ;;
    if negb lb1 then
      (* Long label detected *)
      '(prefixLength, s3) <- takeUint (lenBits n) s2 ;;
      takeBits (Z.to_nat prefixLength) s3
    else
      (* Same label detected *)
      '(bit, s3) <- takeBit s2 ;;
      '(prefixLength, s4) <- takeUint (lenBits n) s3 ;;
      Ok (repeat bit (Z.to_nat prefixLength), s4).

(** [doParse]: the entries in the order they are [set] in the result map;
    [leftRef] and [rightRef] are the two [readRef]s of the slice. *)
Fixpoint doParse {T} (extractor : Slice -> result T) (prefix : bits)
  (cell : Cell) (n : Z) {struct cell} : result (list (Z * T)) :=
  match cell with
  | mkCell cb cr =>
      '(label, rest) <- readLabel n cb ;;
      let pp := prefix ++ label in
      let prefixLength := Z.of_nat (length label) in
      if n - prefixLength =? 0 then
        v <- extractor (mkSlice rest cr) ;;
        Ok [(uintOfBits pp, v)]
      else
        match cr with
        | leftRef :: rightRef :: _ =>
            l <- doParse extractor (pp ++ [false]) leftRef (n - prefixLength - 1) ;;
            r <- doParse extractor (pp ++ [true]) rightRef (n - prefixLength - 1) ;;
            Ok (l ++ r)
        | _ => Err NoMoreRefs
        end
  end.

Definition parseDict {T} (slice : Slice) (keySize : Z)
  (extractor : Slice -> result T) : result (list (Z * T)) :=
  doParse extractor [] (toCell slice) keySize.

(** [slice.readDict(keySize, extractor)]: the dictionary is parsed from
    the first reference of the slice, 'No ref' is thrown when there is none;
    no bit is read. *)
Definition readDict {T} (keySize : Z) (extractor : Slice -> result T)
  (s : Slice) : result (list (Z * T) * Slice) :=
  '(ref, s1) <- readRef s ;;
  d <- parseDict ref keySize extractor ;;
  Ok (d, s1).

(** [map.get(key)] *)
Fixpoint mapGet {T} (key : Z) (m : list (Z * T)) : option T :=
  match m with
  | [] => None
  | (k, v) :: rest => if k =? key then Some v else mapGet key rest
  end.

(** [beginDict(keySize)]: the builder's [items] in insertion order. *)
Record DictBuilder : Type := mkDictBuilder {
  keySize : Z;
  items : list (Z * Cell)
}.

Definition beginDict (keySize : Z) : DictBuilder := mkDictBuilder keySize [].

Definition storeCell (index : list Z) (value : Cell) (d : DictBuilder)
  : result DictBuilder :=
  let key := Buffer.toBN index in
  match mapGet key (items d) with
  | Some _ => Err ItemAlreadyExists
  | None => Ok (mkDictBuilder (keySize d) (items d ++ [(key, value)]))
  end.

Definition endDict (d : DictBuilder) : result (option Cell) :=
  match items d with
  | [] => Ok None
  | _ => c <- serializeDict writeCell (items d) (keySize d) ;; Ok (Some c)
  end.

(** [toNano]: a decimal amount given as units and tenths, in nano units. *)
Definition toNano (units tenths : Z) : Z := units * 10 ^ 9 + tenths * 10 ^ 8.

End Ton.

Notation "b |> f" := (bind b f) (at level 55, left associativity, only parsing)
  : result_scope.

(** ** The jetton minter helpers *)

Module JettonMinter.
Import Ton.

Definition ONCHAIN_CONTENT_PREFIX : Z := 0x00.
Definition SNAKE_PREFIX : Z := 0x00.

Module OPS.
Definition Mint : Z := 21.
Definition InternalTransfer : Z := 0x178d4519.
Definition Transfer : Z := 0xf8a7ea5.
End OPS.

Definition JETTON_METADATA_KEYS : list jsstring :=
  [js "name"; js "description"; js "image"; js "symbol"].

(** What a property read [jettonOnChainMetadataSpec[k]] evaluates to: the
    encoding of one of the four own properties, a member inherited from
    [Object.prototype] (a function or an object, never a string), or
    [undefined]. *)
Inductive SpecProperty : Type :=
| OwnEncoding (e : Buffer.Encoding)
| Inherited
| Undefined.

Definition OBJECT_PROTOTYPE_KEYS : list jsstring :=
  [js "constructor"; js "__defineGetter__"; js "__defineSetter__";
   js "hasOwnProperty"; js "__lookupGetter__"; js "__lookupSetter__";
   js "isPrototypeOf"; js "propertyIsEnumerable"; js "toString";
   js "valueOf"; js "__proto__"; js "toLocaleString"].

Definition jettonOnChainMetadataSpec (k : jsstring) : SpecProperty :=
  if jsstring_eqb k (js "name") then OwnEncoding Buffer.utf8
  else if jsstring_eqb k (js "description") then OwnEncoding Buffer.utf8
  else if jsstring_eqb k (js "image") then OwnEncoding Buffer.ascii
  else if jsstring_eqb k (js "symbol") then OwnEncoding Buffer.utf8
  else if existsb (jsstring_eqb k) OBJECT_PROTOTYPE_KEYS then Inherited
  else Undefined.

(** The property as the [encoding] argument of [Buffer.from]. *)
Definition asEncoding (p : SpecProperty) : option Buffer.Encoding :=
  match p with
  | OwnEncoding e => Some e
  | _ => None
  end.

(** A metadata object: its own enumerable entries as [Object.entries] lists
    them; [None] is a value that is [undefined]. *)
Definition Metadata := list (jsstring * option jsstring).

(** The value cell of one entry. *)
Definition snakeCell (k v : jsstring) : result Cell :=
  Ok beginCell
    |> storeUint8 SNAKE_PREFIX
    |> storeBuffer (Buffer.from v (asEncoding (jettonOnChainMetadataSpec k)))
    |> endCell.

(** The callback of the [forEach] of [buildOnChainData]. *)
Definition storeEntry (dict : DictBuilder) (kv : jsstring * option jsstring)
  : result DictBuilder :=
  let '(k, v) := kv in
  match jettonOnChainMetadataSpec k with
  | Undefined => Err (UnsupportedOnchainKey k)
  | _ =>
      match v with
      | None => Ok dict
      | Some v =>
          let index := sha256 k in
          cell <- snakeCell k v ;;
          storeCell index cell dict
      end
  end.

Definition buildOnChainData (data : Metadata) : result Cell :=
  let KEYLEN := 256 in
  let dict := beginDict KEYLEN in
  dict <- forEach storeEntry data dict ;;
  d <- endDict dict ;;
  Ok beginCell
    |> storeInt ONCHAIN_CONTENT_PREFIX 8
    |> storeDict d
    |> endCell.

(** The extractor given to [readDict]. *)
Definition snakeExtractor (s : Slice) : result (list Z) :=
  let valSlice := beginParse (toCell s) in
  '(tag, valSlice) <- readUint 8 valSlice ;;
  if negb (tag =? SNAKE_PREFIX) then Err OnlySnakeFormatSupported
  else readRemainingBytes valSlice.

Definition toKey (buf : list Z) : Z := Buffer.toBN buf.

(** The encoding of an own key of [jettonOnChainMetadataSpec]. *)
Definition encodingOf (k : jsstring) : Buffer.Encoding :=
  match jettonOnChainMetadataSpec k with
  | OwnEncoding e => e
  | _ => Buffer.utf8
  end.

(** The callback of the [forEach] of [parseOnChainData]; [if (val)] skips
    [undefined] and the empty string. *)
Definition collectEntry (dict : list (Z * list Z))
  (res : list (jsstring * jsstring)) (k : jsstring)
  : list (jsstring * jsstring) :=
  let val :=
    option_map (fun buf => Buffer.toString buf (encodingOf k))
               (mapGet (toKey (sha256 k)) dict) in
  match val with
  | Some (c :: s) => res ++ [(k, c :: s)]
  | _ => res
  end.

Definition parseOnChainData (contentCell : Cell)
  : result (list (jsstring * jsstring)) :=
  let KEYLEN := 256 in
  let contentSlice := beginParse contentCell in
  '(tag, contentSlice) <- readUint 8 contentSlice ;;
  if negb (tag =? ONCHAIN_CONTENT_PREFIX) then Err ExpectedOnchainContentMarker
  else
    '(dict, _) <- readDict KEYLEN snakeExtractor contentSlice ;;
    Ok (fold_left (collectEntry dict) JETTON_METADATA_KEYS []).

Section InitData.
(** [Cell.fromBoc(walletHex.hex)[0]]: the wallet code, a static asset. *)
Variable JETTON_WALLET_CODE : Cell.

(** The receiver of [storeRef] is evaluated before its argument: the two
    stores run first, then [buildOnChainData]. *)
Definition initData (owner : Address) (data : Metadata) : result Cell :=
  to <-
    (Ok beginCell
       |> storeCoins 0
       |> storeAddress (Some owner)) ;;
  content <- buildOnChainData data ;;
  Ok to
    |> storeRef content
    |> storeRef JETTON_WALLET_CODE
    |> endCell.

End InitData.

(** The four stores of the outer message run before the internal transfer
    message, the argument of [storeRef], is built. *)
Definition mintBody (owner : Address) (jettonValue : Z) : result Cell :=
  to <-
    (Ok beginCell
       |> storeUint OPS.Mint 32
       |> storeUint 0 64
       |> storeAddress (Some owner)
       |> storeCoins (toNano 0 2)) ;;
  internal <-
    (Ok beginCell
       |> storeUint OPS.InternalTransfer 32
       |> storeUint 0 64
       |> storeCoins jettonValue
       |> storeAddress None
       |> storeAddress None
       |> storeCoins 0
       |> storeBit false
       |> endCell) ;;
  Ok to
    |> storeRef internal
    |> endCell.

End JettonMinter.

(** ** The connection store *)

Module ConnectionStore.

(** Values of type [any]. *)
Inductive JsValue : Type :=
| JsUndefined
| JsNull
| JsBool (b : bool)
| JsString (s : jsstring)
| JsObject (props : list (jsstring * JsValue)).

Fixpoint lookupProp (k : jsstring) (props : list (jsstring * JsValue))
  : JsValue :=
  match props with
  | [] => JsUndefined
  | (k', v) :: rest => if jsstring_eqb k k' then v else lookupProp k rest
  end.

(** [v.k] for a property this program reads; primitives have no such
    property, [null] and [undefined] throw. *)
Definition getProp (v : JsValue) (k : jsstring) : result JsValue :=
  match v with
  | JsUndefined | JsNull => Err TypeError
  | JsObject props => Ok (lookupProp k props)
  | _ => Ok JsUndefined
  end.

Record ConnectionStateAtom : Type := mkConnectionState {
  address : JsValue;
  wallet : JsValue;
  adapterId : JsValue;
  isConnecting : bool;
  isRestoring : bool
}.

Definition connectionStateAtom_default : ConnectionStateAtom :=
  {| address := JsNull; wallet := JsNull; adapterId := JsNull;
     isConnecting := true; isRestoring := true |}.

Definition connectWalletSelector_get (atom : ConnectionStateAtom)
  : ConnectionStateAtom := atom.

(** The [set] of the selector: the new value of [connectionStateAtom], or the
    exception that leaves the atom as it was. *)
Definition connectWalletSelector_set (atom : ConnectionStateAtom)
  (newValue : JsValue) : result ConnectionStateAtom :=
  let state := atom in
  a <- getProp newValue (js "address") ;;
  w <- getProp newValue (js "wallet") ;;
  Ok {| address := a;
        wallet := w;
        adapterId := adapterId state;
        isConnecting := isConnecting state;
        isRestoring := isRestoring state |}.

(** The atom after a write through the selector. *)
Definition atomAfterSet (atom : ConnectionStateAtom) (newValue : JsValue)
  : ConnectionStateAtom :=
  match connectWalletSelector_set atom newValue with
  | Ok atom' => atom'
  | Err _ => atom
  end.

End ConnectionStore.

(** ** Layouts and predicates the statements are written with *)

Module Layout.
Import Ton.

(** A parsed address: a signed 8-bit workchain and a 32-byte hash. *)
Definition wfAddress (a : Address) : Prop :=
  -128 <= workChain a < 128 /\
  length (hash a) = 32%nat /\
  Forall (fun b => 0 <= b < 256) (hash a).

(** The bytes of a buffer, eight bits each. *)
Definition bufferLayout (buf : list Z) : bits := flat_map (bitsOfUint 8) buf.

(** MsgAddress: [00] for no address; [10], no anycast, the workchain as a
    signed byte and the 256-bit hash for a standard one. *)
Definition addressLayout (a : option Address) : bits :=
  match a with
  | None => [false; false]
  | Some a =>
      [true; false] ++ [false] ++ bitsOfUint 8 (workChain a)
      ++ bufferLayout (hash a)
  end.

(** The number of bytes of a coin amount. *)
Definition coinsBytes (amount : Z) : Z :=
  if amount =? 0 then 0 else Z.log2 amount / 8 + 1.

(** Coins: a 4-bit byte count, then the amount in that many bytes. *)
Definition coinsLayout (amount : Z) : bits :=
  bitsOfUint 4 (coinsBytes amount)
  ++ bitsOfUint (Z.to_nat (8 * coinsBytes amount)) amount.

(** The body of the internal transfer message of [mintBody]. *)
Definition internalTransferLayout (jettonValue : Z) : bits :=
  bitsOfUint 32 JettonMinter.OPS.InternalTransfer ++ bitsOfUint 64 0
  ++ coinsLayout jettonValue
  ++ addressLayout None ++ addressLayout None
  ++ coinsLayout 0 ++ [false].

(** The bits of the mint message. *)
Definition mintLayout (owner : Address) : bits :=
  bitsOfUint 32 JettonMinter.OPS.Mint ++ bitsOfUint 64 0
  ++ addressLayout (Some owner) ++ coinsLayout (toNano 0 2).

(** The bits of the init data cell. *)
Definition initDataLayout (owner : Address) : bits :=
  coinsLayout 0 ++ addressLayout (Some owner).

End Layout.

(** ** Concrete inputs *)

Module Examples.
Import Ton JettonMinter.

Definition owner0 : Address := mkAddress 0 (repeat 0xAB 32).
Definition walletCode0 : Cell := mkCell [true; false; true] [].

Definition testMetadata : Metadata :=
  [(js "name", Some (js "Test")); (js "symbol", Some (js "TST"))].

Definition testContent : Cell :=
  Eval vm_compute in
    match buildOnChainData testMetadata with
    | Ok c => c
    | Err _ => mkCell [] []
    end.

(** The cell of a metadata object, or an empty cell if it has none. *)
Definition contentOf (data : Metadata) : Cell :=
  match buildOnChainData data with
  | Ok c => c
  | Err _ => mkCell [] []
  end.

Definition emptyNameContent : Cell :=
  Eval vm_compute in contentOf [(js "name", Some [])].

(** The cell of a mapping without a defined value: the tag and one bit. *)
Definition noValueContent : Cell := Eval vm_compute in contentOf [].

Definition nonAsciiImageContent : Cell :=
  Eval vm_compute in contentOf [(js "image", Some [0xE9])].

Definition emptySymbolMetadata : Metadata :=
  [(js "name", Some (js "Test")); (js "symbol", Some [])].

Definition emptySymbolContent : Cell :=
  Eval vm_compute in contentOf emptySymbolMetadata.


(** A name of 200 characters: it does not fit in one cell. *)
Definition longName : jsstring := repeat 97 200.





End Examples.

(** ** What [buildOnChainData] stores and what [parseOnChainData] reads *)

Module Codec.
Import Ton JettonMinter.

(** [mapM f l]: run [f] over [l] from the left, stopping at the first
    error. *)
Fixpoint mapM {A B} (f : A -> result B) (l : list A) : result (list B) :=
  match l with
  | [] => Ok []
  | a :: l' => b <- f a ;; bs <- mapM f l' ;; Ok (b :: bs)
  end.

(** The part of [storeEntry] that does not depend on the dictionary: the
    item an entry adds, if any. *)
Definition entryItem (kv : jsstring * option jsstring)
  : result (option (Z * Cell)) :=
  let '(k, v) := kv in
  match jettonOnChainMetadataSpec k with
  | Undefined => Err (UnsupportedOnchainKey k)
  | _ =>
      match v with
      | None => Ok None
      | Some v => cell <- snakeCell k v ;; Ok (Some (Buffer.toBN (sha256 k), cell))
      end
  end.

Definition itemsOf (kv : jsstring * option jsstring) : list (Z * Cell) :=
  match entryItem kv with
  | Ok (Some item) => [item]
  | _ => []
  end.

(** The entry passes the key check and its value fits in a cell. *)
Definition okEntry (kv : jsstring * option jsstring) : Prop :=
  isOk (entryItem kv) = true.

(** The dictionary a metadata object denotes: the digest of each key with a
    defined value, and the bytes of that value. *)
Definition storedBytes (data : Metadata) : list (Z * list Z) :=
  flat_map (fun kv =>
    match snd kv with
    | Some v =>
        [(toKey (sha256 (fst kv)),
          Buffer.from v (asEncoding (jettonOnChainMetadataSpec (fst kv))))]
    | None => []
    end) data.

(** The entry [doParse] reports for a key given by its bits below [prefix]
    and a value cell: the key as a number, the value as a slice. *)
Definition entryOf (prefix : bits) (kv : bits * Cell) : Z * Slice :=
  (uintOfBits (prefix ++ fst kv), beginParse (snd kv)).

(** The extractor applied to one entry of the walk. *)
Definition extractEntry {T} (ex : Slice -> result T) (ks : Z * Slice)
  : result (Z * T) :=
  v <- ex (snd ks) ;; Ok (fst ks, v).

(** The bytes after the tag byte of a value cell. *)
Definition valueBytes (s : Slice) : list Z :=
  let rest := skipn 8 (sbits s) in bytesOfBits (length rest) rest.

(** The first byte of a slice that holds at least one byte. *)
Definition firstByte (s : Slice) : option Z :=
  match takeUint 8 (sbits s) with
  | Ok (t, _) => Some t
  | Err _ => None
  end.

(** The slice is a whole, non-zero number of bytes. *)
Definition wholeBytes (s : Slice) : Prop :=
  (8 <= length (sbits s))%nat /\ (length (sbits s) mod 8 = 0)%nat.

(** The slices [doParse] can hand to its extractor on a dictionary cell with
    keys of [n] bits. *)
Inductive dictEntry : Z -> Cell -> Slice -> Prop :=
| dictEntry_leaf n cb cr label rest :
    readLabel n cb = Ok (label, rest) ->
    n - Z.of_nat (length label) = 0 ->
    dictEntry n (mkCell cb cr) (mkSlice rest cr)
| dictEntry_left n cb l r cr label rest s :
    readLabel n cb = Ok (label, rest) ->
    n - Z.of_nat (length label) <> 0 ->
    dictEntry (n - Z.of_nat (length label) - 1) l s ->
    dictEntry n (mkCell cb (l :: r :: cr)) s
| dictEntry_right n cb l r cr label rest s :
    readLabel n cb = Ok (label, rest) ->
    n - Z.of_nat (length label) <> 0 ->
    dictEntry (n - Z.of_nat (length label) - 1) r s ->
    dictEntry n (mkCell cb (l :: r :: cr)) s.

(** [obj[k]] on the result of [parseOnChainData]. *)
Fixpoint resGet (k : jsstring) (res : list (jsstring * jsstring))
  : option jsstring :=
  match res with
  | [] => None
  | (k', v) :: rest => if jsstring_eqb k k' then Some v else resGet k rest
  end.

(** What [parseOnChainData] reports for the key [k] when the dictionary it
    has read is [dict]: the decoded entry, unless it is missing or decodes
    to the empty string. *)
Definition decodedValue (dict : list (Z * list Z)) (k : jsstring)
  : option jsstring :=
  match mapGet (toKey (sha256 k)) dict with
  | Some buf =>
      match Buffer.toString buf (encodingOf k) with
      | [] => None
      | c :: s => Some (c :: s)
      end
  | None => None
  end.

(** A value as its encoding mode renders it, [None] for the empty
    string: [Buffer.from(v, e).toString(e)] under the [if (val)] of
    [parseOnChainData]. *)
Definition normalized (e : Buffer.Encoding) (v : jsstring) : option jsstring :=
  match Buffer.toString (Buffer.from v (Some e)) e with
  | [] => None
  | c :: s => Some (c :: s)
  end.

(** The keys [buildOnChainData] lets through: the recognized ones and the
    member names of [Object.prototype]. *)
Definition PASSING_KEYS : list jsstring :=
  JETTON_METADATA_KEYS ++ OBJECT_PROTOTYPE_KEYS.

(** The numbers of a list are pairwise different. *)
Fixpoint distinctb (l : list Z) : bool :=
  match l with
  | [] => true
  | x :: rest => negb (existsb (Z.eqb x) rest) && distinctb rest
  end.

(** [obj[k]] on a metadata object, [None] when the property is missing or
    [undefined]. *)
Fixpoint metaGet (k : jsstring) (data : Metadata) : option jsstring :=
  match data with
  | [] => None
  | (k', v) :: rest => if jsstring_eqb k k' then v else metaGet k rest
  end.

(** A string is a sequence of UTF-16 code units in which every lead
    surrogate is followed by a trail surrogate and no trail stands alone. *)
Definition isLead (c : Z) : bool := (0xD800 <=? c) && (c <? 0xDC00).
Definition isTrail (c : Z) : bool := (0xDC00 <=? c) && (c <? 0xE000).

Fixpoint wellFormed (s : jsstring) : bool :=
  match s with
  | [] => true
  | c :: rest =>
      if isLead c then
        match rest with
        | d :: rest' => isTrail d && wellFormed rest'
        | [] => false
        end
      else (0 <=? c) && (c <? 0x10000) && negb (isTrail c) && wellFormed rest
  end.

Definition isAscii (s : jsstring) : bool :=
  forallb (fun c => (0 <=? c) && (c <? 0x80)) s.

(** The value survives the encoding mode of its key. *)
Definition representable (e : Buffer.Encoding) (v : jsstring) : Prop :=
  Buffer.toString (Buffer.from v (Some e)) e = v.

(** A metadata object the round trip preserves: distinct recognized keys,
    and every defined value non-empty and representable in the encoding
    mode of its key. *)
Definition roundTrips (data : Metadata) : Prop :=
  NoDup (map fst data) /\
  Forall (fun kv =>
    In (fst kv) JETTON_METADATA_KEYS /\
    match snd kv with
    | Some v => v <> [] /\ representable (encodingOf (fst kv)) v
    | None => True
    end) data.

End Codec.

(** ** Checks on the UTF-8 coder of the [buffer] package *)

Module Utf8.
Import Buffer Codec.

(** The integers [lo], [lo + 1], ..., [lo + n - 1]. *)
Fixpoint zrangeFrom (lo : Z) (n : nat) : list Z :=
  match n with
  | O => []
  | S m => lo :: zrangeFrom (lo + 1) m
  end.

Definition zrange (lo n : Z) : list Z := zrangeFrom lo (Z.to_nat n).

(** A string of the language: every code unit is below 2^16. *)
Definition isString (s : jsstring) : bool :=
  forallb (fun c => (0 <=? c) && (c <? 0x10000)) s.

(** The code point [utf8ToBytes] encodes for a surrogate pair. *)
Definition pairCodePoint (lead trail : Z) : Z :=
  Z.lor (Z.shiftl (lead - 0xD800) 10) (trail - 0xDC00) + 0x10000.

(** [bytes] is one sequence that [utf8Slice] accepts and decodes to
    [units]: the conditions of the branch of [utf8Slice] for its length. *)
Definition decodesTo (bytes : list Z) (units : jsstring) : bool :=
  match bytes with
  | [firstByte] =>
      negb (0xEF <? firstByte) && negb (0xDF <? firstByte)
      && negb (0xBF <? firstByte) && (firstByte <? 0x80)
      && jsstring_eqb (pushCodePoint firstByte) units
  | [firstByte; secondByte] =>
      let tempCodePoint :=
        Z.lor (Z.shiftl (Z.land firstByte 0x1F) 0x6)
              (Z.land secondByte 0x3F) in
      negb (0xEF <? firstByte) && negb (0xDF <? firstByte)
      && (0xBF <? firstByte)
      && (isContinuation secondByte && (0x7F <? tempCodePoint))
      && jsstring_eqb (pushCodePoint tempCodePoint) units
  | [firstByte; secondByte; thirdByte] =>
      let tempCodePoint :=
        Z.lor (Z.lor (Z.shiftl (Z.land firstByte 0xF) 0xC)
                     (Z.shiftl (Z.land secondByte 0x3F) 0x6))
              (Z.land thirdByte 0x3F) in
      negb (0xEF <? firstByte) && (0xDF <? firstByte)
      && (isContinuation secondByte && isContinuation thirdByte
          && (0x7FF <? tempCodePoint)
          && ((tempCodePoint <? 0xD800) || (0xDFFF <? tempCodePoint)))
      && jsstring_eqb (pushCodePoint tempCodePoint) units
  | [firstByte; secondByte; thirdByte; fourthByte] =>
      let tempCodePoint :=
        Z.lor (Z.lor (Z.lor (Z.shiftl (Z.land firstByte 0xF) 0x12)
                            (Z.shiftl (Z.land secondByte 0x3F) 0xC))
                     (Z.shiftl (Z.land thirdByte 0x3F) 0x6))
              (Z.land fourthByte 0x3F) in
      (0xEF <? firstByte)
      && (isContinuation secondByte && isContinuation thirdByte
          && isContinuation fourthByte
          && (0xFFFF <? tempCodePoint) && (tempCodePoint <? 0x110000))
      && jsstring_eqb (pushCodePoint tempCodePoint) units
  | _ => false
  end.

Definition isByte (b : Z) : bool := (0 <=? b) && (b <? 256).

(** A code unit that is not a surrogate is encoded into bytes that decode
    to it. *)
Definition bmpCheck (c : Z) : bool :=
  isSurrogate c
  || (forallb isByte (encodeCodePoint c)
      && decodesTo (encodeCodePoint c) [c]).

(** The first byte of a sequence of four, for its three payload bits. *)
Definition leadByteCheck (h : Z) : bool :=
  (Z.lor h 0xF0 =? 0xF0 + h) && (0xEF <? Z.lor h 0xF0)
  && (Z.land (Z.lor h 0xF0) 0xF =? h).

(** A continuation byte, for its six payload bits. *)
Definition continuationCheck (q : Z) : bool :=
  (Z.lor q 0x80 =? 0x80 + q) && isContinuation (Z.lor q 0x80)
  && (Z.land (Z.lor q 0x80) 0x3F =? q).

(** The two code units of a pair, for their ten payload bits. *)
Definition surrogateCheck (x : Z) : bool :=
  (Z.lor x 0xD800 =? 0xD800 + x) && (Z.lor 0xDC00 x =? 0xDC00 + x).

(** What [pushCodePoint] yields for an accepted code point: one code unit
    that is no surrogate, or a lead and a trail. *)
Definition validUnits (u : jsstring) : bool :=
  match u with
  | [c] => (0 <=? c) && (c <? 0x10000) && negb (isSurrogate c)
  | [l; t] => isLead l && isTrail t
  | _ => false
  end.

(** The code point of a two-byte and of a three-byte sequence, from the
    payload bits of its bytes, if [utf8Slice] accepts it. *)
Definition twoByteCheck (x y : Z) : bool :=
  let tempCodePoint := Z.lor (Z.shiftl x 0x6) y in
  negb (0x7F <? tempCodePoint) || validUnits (pushCodePoint tempCodePoint).

Definition threeByteCheck (x y z : Z) : bool :=
  let tempCodePoint :=
    Z.lor (Z.lor (Z.shiftl x 0xC) (Z.shiftl y 0x6)) z in
  negb ((0x7FF <? tempCodePoint)
        && ((tempCodePoint <? 0xD800) || (0xDFFF <? tempCodePoint)))
  || validUnits (pushCodePoint tempCodePoint).

(** The strings an encoding mode gives back unchanged. *)
Definition preserved (e : Encoding) (v : jsstring) : bool :=
  match e with
  | utf8 => wellFormed v
  | ascii => isAscii v
  end.

End Utf8.

(** ** The bits of a dictionary label *)

Module DictLayout.
Import Ton.

(** The bits [writeLabel] appends for the label [src] of an edge with
    [keyLength] key bits left. *)
Definition labelLayout (src : bits) (keyLength : Z) : bits :=
  match detectLabelType src keyLength with
  | short => false :: repeat true (length src) ++ false :: src
  | long =>
      true :: false
      :: bitsOfUint (lenBits keyLength) (Z.of_nat (length src)) ++ src
  | same =>
      true :: true :: hd false src
      :: bitsOfUint (lenBits keyLength) (Z.of_nat (length src))
  end.

(** The most bits a label takes when [n] key bits are left: the long form
    of a label of [n] bits. *)
Definition labelCap (n : nat) : nat := 2 + lenBits (Z.of_nat n) + n.

End DictLayout.

(** ** The ways [buildOnChainData] can end *)

Module Outcome.
Import JettonMinter.

(** Every defined value of the mapping is a string. *)
Definition stringValues (data : Metadata) : Prop :=
  Forall (fun kv => match snd kv with
                    | Some v => Utf8.isString v = true
                    | None => True
                    end) data.

(** The exceptions of [buildOnChainData] on a mapping of strings: a cell
    that is too small, or a key of the mapping that is not supported. *)
Definition buildError (data : Metadata) (e : error) : Prop :=
  e = BitStringOverflow \/
  exists k, e = UnsupportedOnchainKey k /\ In k (map fst data) /\
            jettonOnChainMetadataSpec k = Undefined.

(** A mapping of recognized keys whose defined values are strings of at
    most [bound] bytes in the encoding mode of their key. *)
Definition smallValues (bound : nat) (data : Metadata) : Prop :=
  Forall (fun kv =>
    In (fst kv) JETTON_METADATA_KEYS /\
    match snd kv with
    | Some v =>
        Utf8.isString v = true /\
        (length (Buffer.from v (Some (encodingOf (fst kv)))) <= bound)%nat
    | None => True
    end) data.

(** A mapping of recognized keys whose defined values are strings of at
    most 31 code units, for image of at most 93. *)
Definition shortValues (data : Metadata) : Prop :=
  Forall (fun kv =>
    In (fst kv) JETTON_METADATA_KEYS /\
    match snd kv with
    | Some v =>
        Utf8.isString v = true /\
        (length v <= match encodingOf (fst kv) with
                     | Buffer.utf8 => 31
                     | Buffer.ascii => 93
                     end)%nat
    | None => True
    end) data.

End Outcome.

(** ** The connection state as a value *)

Module StoreValues.
Import ConnectionStore.

(** The state object of [connectionStateAtom] as a value of type [any], as
    the [get] of the selector hands it out. *)
Definition asValue (atom : ConnectionStateAtom) : JsValue :=
  JsObject [(js "address", address atom);
            (js "wallet", wallet atom);
            (js "adapterId", adapterId atom);
            (js "isConnecting", JsBool (isConnecting atom));
            (js "isRestoring", JsBool (isRestoring atom))].

(** [null] and [undefined], on which a property read throws. *)
Definition isNullish (v : JsValue) : bool :=
  match v with
  | JsUndefined | JsNull => true
  | _ => false
  end.

End StoreValues.

(** ** The submit handler of the deployer screen

    [deployContract] of screens/deployer/index.tsx.  The calls into the
    wallet service, the deploy controller and the [ton] package are given by
    what they return or throw; the component state is the three [useState]
    cells the handler writes. *)

Module DeployFlow.

(** A thrown value: [err instanceof Error] with its message, or not. *)
Inductive Thrown : Type :=
| ErrorObject (message : jsstring)
| NotAnError.

Inductive Outcome (T : Type) : Type :=
| Returns (v : T)
| Throws (t : Thrown).
Arguments Returns {T} v.
Arguments Throws {T} t.

Section DeployContract.
Context {A P : Type}.

(** [error], [isLoading] and [contractAddress]. *)
Record UiState : Type := mkUiState {
  error : option jsstring;
  isLoading : bool;
  contractAddress : option A
}.

Definition setError (m : jsstring) (s : UiState) : UiState :=
  mkUiState (Some m) (isLoading s) (contractAddress s).
Definition setIsLoading (b : bool) (s : UiState) : UiState :=
  mkUiState (error s) b (contractAddress s).
Definition setContractAddress (a : option A) (s : UiState) : UiState :=
  mkUiState (error s) (isLoading s) a.

(** What the calls of one run of the handler do. *)
Record Calls : Type := mkCalls {
  (** [WalletConnection.getConnection()] is truthy *)
  getConnection : bool;
  (** [Address.parse(address)] *)
  Address_parse : jsstring -> Outcome A;
  (** the other fields of [params]: the reads of [data] and
      [toNano(data.mintAmount)]; the amount, or what one of them throws *)
  toNano_mintAmount : Outcome Z;
  (** [createDeployParams(params)] *)
  createDeployParams : A -> Z -> Outcome P;
  (** [new ContractDeployer().addressForContract(deployParams)] *)
  addressForContract : P -> Outcome A;
  (** [await WalletConnection.isContractDeployed(_contractAddress)] *)
  isContractDeployed : A -> Outcome bool;
  (** [await jettonDeployController.createJetton(params, connection)] *)
  createJetton : A -> Z -> Outcome A
}.

(** The state the handler leaves and how its promise settles.  [address] is
    [None] for [null] and [undefined]; these and the empty string are the
    falsy values of [!address]. *)
Definition deployContract (c : Calls) (address : option jsstring)
  (s : UiState) : UiState * Outcome unit :=
  match address with
  | None | Some [] => (s, Throws (ErrorObject (js "Wallet not connected")))
  | Some addr =>
      if negb (getConnection c)
      then (s, Throws (ErrorObject (js "Wallet not connected")))
      else
        match Address_parse c addr with
        | Throws t => (s, Throws t)
        | Returns owner =>
        match toNano_mintAmount c with
        | Throws t => (s, Throws t)
        | Returns amountToMint =>
            let s1 := setIsLoading true s in
            match createDeployParams c owner amountToMint with
            | Throws t => (s1, Throws t)
            | Returns deployParams =>
            match addressForContract c deployParams with
            | Throws t => (s1, Throws t)
            | Returns _contractAddress =>
            match isContractDeployed c _contractAddress with
            | Throws t => (s1, Throws t)
            | Returns true =>
                (setIsLoading false
                   (setError (js "Contract already deployed") s1),
                 Returns tt)
            | Returns false =>
                match createJetton c owner amountToMint with
                | Returns result =>
                    (setIsLoading false
                       (setContractAddress (Some result) s1), Returns tt)
                | Throws (ErrorObject message) =>
                    (setIsLoading false (setError message s1), Returns tt)
                | Throws NotAnError => (setIsLoading false s1, Returns tt)
                end
            end
            end
            end
        end
        end
  end.

End DeployContract.
Arguments UiState A : clear implicits.
Arguments Calls A P : clear implicits.

(** Two runs: every call succeeds; the deployment check fails. *)
Definition ui0 : UiState nat := mkUiState None false None.

Definition calls0 : Calls nat nat :=
  mkCalls true (fun _ => Returns 1%nat) (Returns 5)
          (fun _ _ => Returns 2%nat) (fun _ => Returns 3%nat)
          (fun _ => Returns false) (fun _ _ => Returns 4%nat).

Definition calls1 : Calls nat nat :=
  mkCalls true (fun _ => Returns 1%nat) (Returns 5)
          (fun _ _ => Returns 2%nat) (fun _ => Returns 3%nat)
          (fun _ => Throws (ErrorObject (js "timeout")))
          (fun _ _ => Returns 4%nat).

End DeployFlow.

(* ================================================================== *)
(** * Part II. Properties *)
(* ================================================================== *)

(** ** The result monad *)

Lemma bind_Ok_inv {A B} (r : result A) (k : A -> result B) (b : B) :
  bind r k = Ok b -> exists a, r = Ok a /\ k a = Ok b.
Proof. destruct r as [a|e]; simpl; intros H; [eauto | discriminate]. Qed.


Lemma bind_assoc {A B C} (r : result A) (f : A -> result B)
  (g : B -> result C) :
  bind (bind r f) g = bind r (fun a => bind (f a) g).
Proof. destruct r; reflexivity. Qed.

Lemma forEach_app {A S} (f : S -> A -> result S) (l1 l2 : list A) (s : S) :
  forEach f (l1 ++ l2) s = bind (forEach f l1 s) (forEach f l2).
Proof.
  revert s; induction l1 as [|a l1 IH]; intros s; simpl; [reflexivity|].
  destruct (f s a) as [s'|e]; simpl; [apply IH | reflexivity].
Qed.

(** Inversion of a successful monadic step in a hypothesis. *)
Ltac inv_bind H :=
  let a := fresh "a" in
  let Ha := fresh "Ha" in
  apply bind_Ok_inv in H; destruct H as (a & Ha & H).

(** ** The connection store *)

Module ConnectionStoreFacts.
Import ConnectionStore.

Lemma set_frame (atom atom' : ConnectionStateAtom) (newValue : JsValue) :
  connectWalletSelector_set atom newValue = Ok atom' ->
  adapterId atom' = adapterId atom /\
  isConnecting atom' = isConnecting atom /\
  isRestoring atom' = isRestoring atom.
Proof.
  unfold connectWalletSelector_set. intros H.
  inv_bind H. inv_bind H. injection H as <-. simpl. auto.
Qed.

Lemma set_writes (atom atom' : ConnectionStateAtom) (newValue : JsValue) :
  connectWalletSelector_set atom newValue = Ok atom' ->
  getProp newValue (js "address") = Ok (address atom') /\
  getProp newValue (js "wallet") = Ok (wallet atom').
Proof.
  unfold connectWalletSelector_set. intros H.
  inv_bind H. inv_bind H. injection H as <-. simpl. auto.
Qed.

(** C10. A write through [connectWalletSelector] leaves [adapterId],
    [isConnecting] and [isRestoring] of the connection state as they were,
    for every prior state and every new value: a write that goes through
    replaces [address] and [wallet] only, and a new value that is [null] or
    [undefined] throws before the atom is set. *)
Theorem connectWalletSelector_frame :
  forall (atom : ConnectionStateAtom) (newValue : JsValue),
    adapterId (atomAfterSet atom newValue) = adapterId atom /\
    isConnecting (atomAfterSet atom newValue) = isConnecting atom /\
    isRestoring (atomAfterSet atom newValue) = isRestoring atom /\
    (forall atom',
        connectWalletSelector_set atom newValue = Ok atom' ->
        atom' = {| address := address atom'; wallet := wallet atom';
                   adapterId := adapterId atom;
                   isConnecting := isConnecting atom;
                   isRestoring := isRestoring atom |}).
Proof.
  intros atom newValue. unfold atomAfterSet.
  destruct (connectWalletSelector_set atom newValue) as [atom1|e] eqn:E.
  - destruct (set_frame _ _ _ E) as (H1 & H2 & H3).
    repeat split; auto.
    intros atom' [= <-]. destruct atom1; simpl in *; congruence.
  - repeat split; auto. discriminate.
Qed.

End ConnectionStoreFacts.

(** ** Bit strings: writers and readers *)

Module BitFacts.
Import Ton.

Lemma length_bitsOfUint n v : length (bitsOfUint n v) = n.
Proof. induction n; simpl; congruence. Qed.

Lemma uintOfBits_acc (l : bits) (acc : Z) :
  fold_left (fun a b => 2 * a + Z.b2z b) l acc
  = acc * 2 ^ Z.of_nat (length l) + uintOfBits l.
Proof.
  unfold uintOfBits. revert acc.
  induction l as [|b l IH]; intros acc.
  - simpl. lia.
  - cbn [fold_left length]. rewrite IH, (IH (2 * 0 + Z.b2z b)).
    rewrite Nat2Z.inj_succ, Z.pow_succ_r by lia. ring.
Qed.

Lemma uintOfBits_cons (b : bool) (l : bits) :
  uintOfBits (b :: l) = Z.b2z b * 2 ^ Z.of_nat (length l) + uintOfBits l.
Proof.
  unfold uintOfBits at 1. cbn [fold_left]. rewrite uintOfBits_acc.
  ring.
Qed.

Lemma uintOfBits_app (l1 l2 : bits) :
  uintOfBits (l1 ++ l2)
  = uintOfBits l1 * 2 ^ Z.of_nat (length l2) + uintOfBits l2.
Proof.
  unfold uintOfBits at 1. rewrite fold_left_app.
  rewrite uintOfBits_acc. reflexivity.
Qed.

Lemma uintOfBits_range (l : bits) :
  0 <= uintOfBits l < 2 ^ Z.of_nat (length l).
Proof.
  induction l as [|b l IH].
  - cbn. lia.
  - rewrite uintOfBits_cons. cbn [length].
    rewrite Nat2Z.inj_succ, Z.pow_succ_r by lia.
    destruct b; cbn [Z.b2z]; lia.
Qed.

Lemma uintOfBits_bitsOfUint_mod n v :
  uintOfBits (bitsOfUint n v) = v mod 2 ^ Z.of_nat n.
Proof.
  induction n as [|m IH].
  - cbn. now rewrite Z.mod_1_r.
  - cbn [bitsOfUint]. rewrite uintOfBits_cons, length_bitsOfUint, IH.
    rewrite Z.testbit_spec' by lia.
    rewrite Nat2Z.inj_succ, Z.pow_succ_r by lia.
    rewrite (Z.mul_comm 2), Z.rem_mul_r by lia. ring.
Qed.

Lemma uintOfBits_bitsOfUint n v :
  0 <= v < 2 ^ Z.of_nat n -> uintOfBits (bitsOfUint n v) = v.
Proof.
  intros H. rewrite uintOfBits_bitsOfUint_mod. now apply Z.mod_small.
Qed.

Lemma bitsOfUint_inj n v w :
  0 <= v < 2 ^ Z.of_nat n -> 0 <= w < 2 ^ Z.of_nat n ->
  bitsOfUint n v = bitsOfUint n w -> v = w.
Proof.
  intros Hv Hw E.
  rewrite <- (uintOfBits_bitsOfUint n v Hv), <- (uintOfBits_bitsOfUint n w Hw).
  now rewrite E.
Qed.

(** *** Writers *)

Lemma writeBits_cons b l bs :
  writeBits (b :: l) bs = bind (writeBit b bs) (writeBits l).
Proof. reflexivity. Qed.

Lemma writeBits_app l1 l2 bs :
  writeBits (l1 ++ l2) bs = bind (writeBits l1 bs) (writeBits l2).
Proof. apply forEach_app. Qed.

Lemma writeBits_ok l bs :
  (length bs + length l <= CELL_BITS)%nat -> writeBits l bs = Ok (bs ++ l).
Proof.
  revert bs; induction l as [|b l IH]; intros bs H.
  - cbn. now rewrite app_nil_r.
  - rewrite writeBits_cons. unfold writeBit. cbn [length] in H.
    destruct (Nat.ltb_spec (length bs) CELL_BITS) as [_|Hge]; [|lia].
    cbn [bind]. rewrite IH.
    + now rewrite <- app_assoc.
    + rewrite length_app. cbn [length]. lia.
Qed.

Lemma writeBits_inv l bs r :
  writeBits l bs = Ok r ->
  r = bs ++ l /\ (l = [] \/ (length r <= CELL_BITS)%nat).
Proof.
  revert bs r; induction l as [|b l IH]; intros bs r H.
  - cbn in H. injection H as <-. rewrite app_nil_r. auto.
  - rewrite writeBits_cons in H. unfold writeBit in H.
    destruct (Nat.ltb_spec (length bs) CELL_BITS) as [Hlt|Hge];
      [|discriminate].
    cbn [bind] in H. apply IH in H. destruct H as [-> H].
    rewrite <- app_assoc. split; [reflexivity|right].
    destruct H as [->|H].
    + rewrite length_app. cbn [length app]. lia.
    + rewrite <- app_assoc in H. exact H.
Qed.

Lemma bitLength_le v n :
  0 <= v < 2 ^ Z.of_nat n -> (0 < n)%nat -> bitLength v <= Z.of_nat n.
Proof.
  intros Hv Hn. unfold bitLength.
  destruct (Z.eqb_spec v 0) as [->|Hne]; [lia|].
  assert (Z.log2 v < Z.of_nat n) by (apply Z.log2_lt_pow2; lia). lia.
Qed.

Lemma bitLength_gt v n :
  0 < v -> bitLength v <= Z.of_nat n -> v < 2 ^ Z.of_nat n.
Proof.
  intros Hv. unfold bitLength.
  destruct (Z.eqb_spec v 0) as [->|Hne]; [lia|]. intros H.
  apply Z.log2_lt_pow2; lia.
Qed.

Lemma writeUint_ok v n bs :
  0 <= v < 2 ^ Z.of_nat n ->
  writeUint v n bs = writeBits (bitsOfUint n v) bs.
Proof.
  intros Hv. unfold writeUint.
  destruct (Z.ltb_spec v 0) as [Hneg|_]; [lia|].
  destruct n as [|m].
  - cbn in Hv. assert (v = 0) by lia. subst v. reflexivity.
  - cbn [Nat.eqb orb].
    destruct (Z.ltb_spec (Z.of_nat (S m)) (bitLength v)) as [Hlt|_].
    + pose proof (bitLength_le v (S m) Hv). lia.
    + reflexivity.
Qed.

Lemma writeUint_inv v n bs r :
  writeUint v n bs = Ok r ->
  0 <= v < 2 ^ Z.of_nat n /\ writeBits (bitsOfUint n v) bs = Ok r.
Proof.
  unfold writeUint.
  destruct (Z.ltb_spec v 0) as [Hneg|Hpos]; [discriminate|].
  destruct (Nat.eqb_spec n 0) as [->|Hn]; cbn [orb].
  - destruct (Z.eqb_spec v 0) as [->|Hne]; [|discriminate].
    intros H. split; [cbn; lia | exact H].
  - destruct (Z.ltb_spec (Z.of_nat n) (bitLength v)) as [Hlt|Hge].
    + destruct (Z.eqb_spec v 0) as [->|Hne]; [|discriminate].
      unfold bitLength in Hlt. cbn in Hlt. lia.
    + intros H. split; [|exact H]. split; [lia|].
      destruct (Z.eq_dec v 0) as [->|Hne].
      * apply Z.pow_pos_nonneg; lia.
      * apply bitLength_gt; lia.
Qed.

(** A signed byte is written as its two's complement bits. *)
Lemma writeInt8_ok v bs :
  -128 <= v < 128 -> writeInt v 8 bs = writeBits (bitsOfUint 8 v) bs.
Proof.
  intros Hv. unfold writeInt. cbn [Nat.eqb Nat.sub].
  assert (Hbits : forall w, -128 <= w < 0 ->
            bitsOfUint 8 w = true :: bitsOfUint 7 (2 ^ 7 + w)).
  { intros w Hw.
    assert (Hin : In w (map (fun k => Z.of_nat k - 128) (seq 0 128))).
    { apply in_map_iff. exists (Z.to_nat (w + 128)). split; [lia|].
      apply in_seq. lia. }
    clear Hw. revert w Hin. apply Forall_forall. vm_compute.
    repeat constructor. }
  assert (Hbits' : forall w, 0 <= w < 128 ->
            bitsOfUint 8 w = false :: bitsOfUint 7 w).
  { intros w Hw. cbn [bitsOfUint]. f_equal.
    apply Z.bits_above_log2; [lia|].
    destruct (Z.eq_dec w 0) as [->|Hne]; [cbn; lia|].
    apply Z.log2_lt_pow2; cbn; lia. }
  destruct (Z.ltb_spec v 0) as [Hneg|Hpos].
  - rewrite Hbits by lia. rewrite writeBits_cons.
    destruct (writeBit true bs); cbn [bind]; [|reflexivity].
    apply writeUint_ok. change (2 ^ Z.of_nat 7) with 128.
    change (2 ^ 7) with 128. lia.
  - rewrite Hbits' by lia. rewrite writeBits_cons.
    destruct (writeBit false bs); cbn [bind]; [|reflexivity].
    apply writeUint_ok. change (2 ^ Z.of_nat 7) with 128. lia.
Qed.

Lemma writeBuffer_ok buf bs :
  Forall (fun b => 0 <= b < 256) buf ->
  writeBuffer buf bs = writeBits (Layout.bufferLayout buf) bs.
Proof.
  intros H. revert bs. induction H as [|b buf Hb _ IH]; intros bs.
  - reflexivity.
  - cbn [writeBuffer forEach Layout.bufferLayout flat_map].
    rewrite writeBits_app. unfold writeUint8.
    rewrite writeUint_ok by (change (2 ^ Z.of_nat 8) with 256; lia).
    destruct (writeBits (bitsOfUint 8 b) bs); cbn [bind]; [|reflexivity].
    apply IH.
Qed.

Lemma writeBuffer_inv buf bs r :
  writeBuffer buf bs = Ok r ->
  Forall (fun b => 0 <= b < 256) buf /\
  writeBits (Layout.bufferLayout buf) bs = Ok r.
Proof.
  revert bs. induction buf as [|b buf IH]; intros bs H.
  - split; [constructor | exact H].
  - cbn [writeBuffer forEach] in H. inv_bind H.
    unfold writeUint8 in Ha. apply writeUint_inv in Ha.
    destruct Ha as [Hb Ha]. apply IH in H. destruct H as [Hbuf H].
    split; [constructor; [exact Hb | exact Hbuf]|].
    cbn [Layout.bufferLayout flat_map]. rewrite writeBits_app, Ha.
    exact H.
Qed.

Lemma length_bufferLayout buf :
  length (Layout.bufferLayout buf) = (8 * length buf)%nat.
Proof.
  induction buf as [|b buf IH]; [reflexivity|].
  cbn [Layout.bufferLayout flat_map]. rewrite length_app, length_bitsOfUint.
  fold (Layout.bufferLayout buf). rewrite IH. cbn [length]. lia.
Qed.

End BitFacts.

(** ** Builders: each store appends the layout of what it stores *)

Module BuilderFacts.
Import Ton Layout BitFacts.

Lemma coinsBytes_hexLength v :
  0 < v -> (hexLength v + 1) / 2 = coinsBytes v.
Proof.
  intros Hv. unfold hexLength, coinsBytes.
  destruct (Z.eqb_spec v 0) as [->|_]; [lia|].
  pose proof (Z.log2_nonneg v).
  Z.div_mod_to_equations. lia.
Qed.

Lemma coinsBytes_range v :
  0 <= v < 2 ^ 120 -> 0 <= coinsBytes v < 16.
Proof.
  intros Hv. unfold coinsBytes.
  destruct (Z.eqb_spec v 0) as [->|Hne]; [lia|].
  assert (Z.log2 v < 120) by (apply Z.log2_lt_pow2; lia).
  pose proof (Z.log2_nonneg v).
  Z.div_mod_to_equations. lia.
Qed.

Lemma coins_fit v :
  0 <= v -> v < 2 ^ Z.of_nat (Z.to_nat (8 * coinsBytes v)).
Proof.
  intros Hv. unfold coinsBytes.
  destruct (Z.eqb_spec v 0) as [->|Hne]; [cbn; lia|].
  pose proof (Z.log2_nonneg v).
  rewrite Z2Nat.id by (Z.div_mod_to_equations; lia).
  apply Z.log2_lt_pow2; [lia|].
  Z.div_mod_to_equations. lia.
Qed.

Lemma length_coinsLayout v :
  0 <= v < 2 ^ 120 -> (length (coinsLayout v) <= 124)%nat.
Proof.
  intros Hv. unfold coinsLayout.
  rewrite length_app, !length_bitsOfUint.
  pose proof (coinsBytes_range v Hv). lia.
Qed.

Lemma writeCoins_ok v bs :
  0 <= v < 2 ^ 120 -> writeCoins v bs = writeBits (coinsLayout v) bs.
Proof.
  intros Hv. unfold writeCoins, coinsLayout.
  destruct (Z.eqb_spec v 0) as [->|Hne].
  - rewrite writeUint_ok by (cbn; lia).
    change (coinsBytes 0) with 0. cbn [Z.mul Z.to_nat bitsOfUint].
    now rewrite app_nil_r.
  - rewrite coinsBytes_hexLength by lia.
    pose proof (coinsBytes_range v Hv) as Hl.
    rewrite writeBits_app.
    rewrite writeUint_ok by (change (2 ^ Z.of_nat 4) with 16; lia).
    destruct (writeBits _ bs); cbn [bind]; [|reflexivity].
    rewrite Z.mul_comm.
    apply writeUint_ok. split; [lia | apply coins_fit; lia].
Qed.

Lemma length_addressLayout a :
  wfAddress a -> length (addressLayout (Some a)) = 267%nat.
Proof.
  intros (_ & Hlen & _). unfold addressLayout.
  rewrite !length_app, length_bitsOfUint, length_bufferLayout, Hlen.
  reflexivity.
Qed.

Lemma writeAddress_ok a bs :
  match a with Some a => wfAddress a | None => True end ->
  writeAddress a bs = writeBits (addressLayout a) bs.
Proof.
  destruct a as [a|]; intros Ha; unfold writeAddress, addressLayout.
  - destruct Ha as (Hwc & _ & Hhash).
    rewrite writeBits_app, (writeUint_ok 2 2) by (cbn; lia).
    change (bitsOfUint 2 2) with [true; false].
    destruct (writeBits _ bs) as [bs1|]; cbn [bind]; [|reflexivity].
    rewrite writeBits_app, (writeUint_ok 0 1) by (cbn; lia).
    change (bitsOfUint 1 0) with [false].
    destruct (writeBits _ bs1) as [bs2|]; cbn [bind]; [|reflexivity].
    rewrite writeBits_app, writeInt8_ok by exact Hwc.
    destruct (writeBits _ bs2) as [bs3|]; cbn [bind]; [|reflexivity].
    now apply writeBuffer_ok.
  - now rewrite writeUint_ok by (cbn; lia).
Qed.

Lemma onBits_ext w w' b :
  (forall bs, w bs = w' bs) -> onBits w b = onBits w' b.
Proof. intros H. unfold onBits. now rewrite H. Qed.

Lemma onBits_writeBits l b :
  (length (bbits b) + length l <= CELL_BITS)%nat ->
  onBits (writeBits l) b = Ok (mkBuilder (bbits b ++ l) (brefs b)).
Proof. intros H. unfold onBits. now rewrite writeBits_ok. Qed.

Lemma storeUint_layout v n b :
  0 <= v < 2 ^ Z.of_nat n ->
  storeUint v n b = onBits (writeBits (bitsOfUint n v)) b.
Proof. intros H. apply onBits_ext. intros bs. now apply writeUint_ok. Qed.

Lemma storeCoins_layout v b :
  0 <= v < 2 ^ 120 -> storeCoins v b = onBits (writeBits (coinsLayout v)) b.
Proof. intros H. apply onBits_ext. intros bs. now apply writeCoins_ok. Qed.

Lemma storeAddress_layout a b :
  match a with Some a => wfAddress a | None => True end ->
  storeAddress a b = onBits (writeBits (addressLayout a)) b.
Proof. intros H. apply onBits_ext. intros bs. now apply writeAddress_ok. Qed.

Lemma storeBit_layout v b : storeBit v b = onBits (writeBits [v]) b.
Proof.
  apply onBits_ext. intros bs. rewrite writeBits_cons.
  destruct (writeBit v bs); reflexivity.
Qed.

End BuilderFacts.

(** ** [mintBody] and [initData] *)

Module MessageFacts.
Import Ton Layout BitFacts BuilderFacts JettonMinter.

(** The lengths that bound every store of the two builders. *)
Lemma length_coinsLayout_0 : length (coinsLayout 0) = 4%nat.
Proof. reflexivity. Qed.

Lemma length_coinsLayout_gas : length (coinsLayout (toNano 0 2)) = 36%nat.
Proof. reflexivity. Qed.

Ltac fits :=
  cbn [bbits brefs beginCell app];
  repeat rewrite length_app;
  repeat rewrite length_bitsOfUint;
  repeat rewrite length_coinsLayout_0;
  repeat rewrite length_coinsLayout_gas;
  repeat match goal with
    | H : wfAddress ?a |- context [length (addressLayout (Some ?a))] =>
        rewrite (length_addressLayout a H)
    end;
  change (length (addressLayout None)) with 2%nat;
  cbn [length]; unfold CELL_BITS; lia.

Ltac store :=
  first [ rewrite storeUint_layout by (vm_compute; split; congruence)
        | rewrite storeCoins_layout
            by (assumption || (vm_compute; split; congruence))
        | rewrite storeAddress_layout by (assumption || exact I)
        | rewrite storeBit_layout ];
  rewrite onBits_writeBits by fits;
  cbn [bind bbits brefs].

Lemma toNano_gas_fee : toNano 0 2 = 200000000.
Proof. reflexivity. Qed.

(** C4, amended. For every well-formed owner address and every jetton
    amount that the coin encoding can hold ([0 <= jettonValue < 2^120]),
    [mintBody] returns the cell laid out as: the 32-bit Mint opcode, a
    64-bit zero query id, the owner address, the coins of the fixed gas fee
    (200000000 nano), and one reference to the internal transfer cell, laid
    out as the 32-bit InternalTransfer opcode, a zero query id, the coins of
    [jettonValue], two empty addresses, zero coins and one false bit. *)
Theorem mintBody_layout :
  forall (owner : Address) (jettonValue : Z),
    wfAddress owner ->
    0 <= jettonValue < 2 ^ 120 ->
    mintBody owner jettonValue
    = Ok (mkCell (mintLayout owner)
                 [mkCell (internalTransferLayout jettonValue) []]).
Proof.
  intros owner jettonValue Hown Hv. unfold mintBody.
  pose proof (length_coinsLayout jettonValue Hv) as Hlen.
  cbn [bind]. do 4 store. do 7 store.
  cbn [storeRef endCell bind bbits brefs app].
  unfold mintLayout, internalTransferLayout.
  repeat rewrite <- app_assoc. reflexivity.
Qed.

Lemma wfAddress_owner0 : wfAddress Examples.owner0.
Proof.
  split; [cbn; lia|]. split; [reflexivity|].
  apply Forall_forall. intros b Hb. apply repeat_spec in Hb. subst b. lia.
Qed.

Lemma mintBody_layout_witness :
  mintBody Examples.owner0 1000
  = Ok (mkCell (mintLayout Examples.owner0)
               [mkCell (internalTransferLayout 1000) []]).
Proof.
  apply (mintBody_layout Examples.owner0 1000).
  - exact wfAddress_owner0.
  - vm_compute. split; congruence.
Defined.

(** C4 as stated fails: a non-negative amount of 2^120 does not fit the
    4-bit byte count of the coin encoding and [mintBody] throws. *)
Lemma mintBody_large_amount :
  wfAddress Examples.owner0 /\ 0 <= 2 ^ 120 /\
  mintBody Examples.owner0 (2 ^ 120) = Err BitLengthTooSmall.
Proof.
  split; [exact wfAddress_owner0|]. split; [vm_compute; congruence|].
  vm_compute. reflexivity.
Qed.

(** C5. For every well-formed owner address and every metadata mapping that
    [buildOnChainData] encodes, [initData] returns the cell holding, in
    order, zero coins, the owner address, a reference to the content cell
    of the metadata and a reference to the jetton wallet code. *)
Theorem initData_layout :
  forall (JETTON_WALLET_CODE : Cell) (owner : Address) (data : Metadata)
         (content : Cell),
    wfAddress owner ->
    buildOnChainData data = Ok content ->
    initData JETTON_WALLET_CODE owner data
    = Ok (mkCell (Layout.initDataLayout owner) [content; JETTON_WALLET_CODE]).
Proof.
  intros W owner data content Hown Hc. unfold initData.
  cbn [bind]. do 2 store. rewrite Hc.
  cbn [storeRef endCell bind bbits brefs app].
  unfold Layout.initDataLayout. reflexivity.
Qed.

Lemma initData_layout_witness :
  initData Examples.walletCode0 Examples.owner0 Examples.testMetadata
  = Ok (mkCell (Layout.initDataLayout Examples.owner0)
               [Examples.testContent; Examples.walletCode0]).
Proof.
  apply (initData_layout Examples.walletCode0 Examples.owner0
           Examples.testMetadata Examples.testContent).
  - exact wfAddress_owner0.
  - vm_compute. reflexivity.
Defined.

End MessageFacts.

(** ** Dictionaries: the tree does not depend on the insertion order *)

Module DictOrderFacts.
Import Ton.

Lemma commonPrefix_comm a b : commonPrefix a b = commonPrefix b a.
Proof.
  revert b; induction a as [|x a IH]; intros [|y b]; cbn; try reflexivity.
  destruct x, y; cbn; try reflexivity; now rewrite IH.
Qed.

Lemma commonPrefix_assoc a b c :
  commonPrefix (commonPrefix a b) c = commonPrefix a (commonPrefix b c).
Proof.
  revert b c; induction a as [|x a IH]; intros [|y b] [|z c]; cbn;
    try reflexivity.
  - now destruct (Bool.eqb x y).
  - destruct x, y, z; cbn; try reflexivity; now rewrite IH.
Qed.

Lemma fold_commonPrefix_perm (l l' : list bits) :
  Permutation l l' ->
  forall a, fold_left commonPrefix l a = fold_left commonPrefix l' a.
Proof.
  induction 1 as [|x l l' _ IH|x y l|l l' l'' _ IH1 _ IH2]; intros a; cbn.
  - reflexivity.
  - apply IH.
  - f_equal. rewrite !commonPrefix_assoc. f_equal. apply commonPrefix_comm.
  - now rewrite IH1.
Qed.

Lemma fold_commonPrefix_cons (l : list bits) (a b : bits) :
  fold_left commonPrefix l (commonPrefix a b)
  = commonPrefix a (fold_left commonPrefix l b).
Proof.
  revert b; induction l as [|x l IH]; intros b; cbn; [reflexivity|].
  now rewrite commonPrefix_assoc, IH.
Qed.

Lemma findCommonPrefix_perm (l l' : list bits) :
  Permutation l l' -> findCommonPrefix l = findCommonPrefix l'.
Proof.
  induction 1 as [|x l l' H _|x y l|l l' l'' _ IH1 _ IH2]; cbn.
  - reflexivity.
  - now apply fold_commonPrefix_perm.
  - now rewrite (commonPrefix_comm y x).
  - congruence.
Qed.

Lemma filter_perm {A} (f : A -> bool) (l l' : list A) :
  Permutation l l' -> Permutation (filter f l) (filter f l').
Proof.
  induction 1 as [|x l l' _ IH|x y l|l l' l'' _ IH1 _ IH2]; cbn.
  - constructor.
  - destruct (f x); [now constructor | exact IH].
  - destruct (f x), (f y); try reflexivity. constructor.
  - etransitivity; eassumption.
Qed.

Section Perm.
Context {T : Type}.

Lemma forkMap_perm (src src' : list (bits * T)) :
  Permutation src src' ->
  match forkMap src, forkMap src' with
  | Ok (l, r), Ok (l', r') => Permutation l l' /\ Permutation r r'
  | Err e, Err e' => e = e'
  | _, _ => False
  end.
Proof.
  intros H. unfold forkMap.
  pose proof (Permutation_map substr1 (filter_perm startsWith0 _ _ H)) as Hl.
  pose proof (Permutation_map substr1
                (filter_perm (fun kv => negb (startsWith0 kv)) _ _ H)) as Hr.
  destruct src as [|x src], src' as [|x' src'];
    [reflexivity
    | now apply Permutation_nil_cons in H
    | now apply Permutation_sym, Permutation_nil_cons in H
    | ].
  destruct (map substr1 (filter startsWith0 (x :: src))) as [|a l],
           (map substr1 (filter startsWith0 (x' :: src'))) as [|a' l'];
    [reflexivity
    | now apply Permutation_nil_cons in Hl
    | now apply Permutation_sym, Permutation_nil_cons in Hl
    | ].
  destruct (map substr1 (filter _ (x :: src))) as [|b r],
           (map substr1 (filter _ (x' :: src'))) as [|b' r'];
    [reflexivity
    | now apply Permutation_nil_cons in Hr
    | now apply Permutation_sym, Permutation_nil_cons in Hr
    | auto ].
Qed.

Lemma buildEdge_perm (fuel : nat) (src src' : list (bits * T)) :
  Permutation src src' -> buildEdge fuel src = buildEdge fuel src'.
Proof.
  revert src src'; induction fuel as [|f IH]; intros src src' H;
    [reflexivity|].
  cbn [buildEdge].
  rewrite <- (findCommonPrefix_perm _ _ (Permutation_map fst H)).
  set (label := findCommonPrefix (map fst src)).
  assert (HR : Permutation (removePrefixMap src (length label))
                           (removePrefixMap src' (length label)))
    by (apply Permutation_map, H).
  destruct src as [|x src], src' as [|x' src'];
    [reflexivity
    | now apply Permutation_nil_cons in H
    | now apply Permutation_sym, Permutation_nil_cons in H
    | ].
  destruct (removePrefixMap (x :: src) (length label)) as [|a [|b R]] eqn:ER,
           (removePrefixMap (x' :: src') (length label)) as [|a' [|b' R']] eqn:ER';
    try (apply Permutation_length in HR; cbn in HR; lia).
  - reflexivity.
  - apply Permutation_length_1 in HR. now subst a'.
  - pose proof (forkMap_perm _ _ HR) as HF.
    destruct (forkMap (a :: b :: R)) as [[l r]|e],
             (forkMap (a' :: b' :: R')) as [[l' r']|e'];
      try contradiction; cbn [bind].
    + destruct HF as [Hl Hr].
      now rewrite (IH _ _ Hl), (IH _ _ Hr).
    + now subst e'.
Qed.

Lemma buildTree_perm (src src' : list (Z * T)) (keyLength : Z) :
  Permutation src src' -> buildTree src keyLength = buildTree src' keyLength.
Proof.
  intros H. unfold buildTree. rewrite !length_map.
  rewrite (Permutation_length H).
  apply buildEdge_perm. now apply Permutation_map.
Qed.

Lemma serializeDict_perm (serializer : T -> Builder -> result Builder)
  (src src' : list (Z * T)) (keyLength : Z) :
  Permutation src src' ->
  serializeDict serializer src keyLength
  = serializeDict serializer src' keyLength.
Proof.
  intros H. unfold serializeDict. now rewrite (buildTree_perm _ _ _ H).
Qed.

End Perm.

Lemma mapGet_None {T} (key : Z) (m : list (Z * T)) :
  mapGet key m = None <-> ~ In key (map fst m).
Proof.
  induction m as [|[k v] m IH]; cbn.
  - tauto.
  - destruct (Z.eqb_spec k key) as [->|Hne].
    + split; [discriminate | tauto].
    + rewrite IH. tauto.
Qed.

Lemma mapGet_In {T} (key : Z) (v : T) (m : list (Z * T)) :
  NoDup (map fst m) -> In (key, v) m -> mapGet key m = Some v.
Proof.
  induction m as [|[k w] m IH]; cbn; intros Hnd Hin; [contradiction|].
  inversion Hnd as [|? ? Hk Hnd']; subst.
  destruct Hin as [[= -> ->]|Hin].
  - now rewrite Z.eqb_refl.
  - destruct (Z.eqb_spec k key) as [->|Hne]; [|now apply IH].
    exfalso. apply Hk. apply in_map_iff. now exists (key, v).
Qed.

(** Two maps with the same entries and distinct keys answer every lookup
    alike. *)
Lemma mapGet_perm {T} (key : Z) (m m' : list (Z * T)) :
  NoDup (map fst m) -> Permutation m m' -> mapGet key m = mapGet key m'.
Proof.
  intros Hnd Hp.
  assert (Hnd' : NoDup (map fst m'))
    by (eapply Permutation_NoDup; [apply Permutation_map, Hp | exact Hnd]).
  destruct (mapGet key m) as [v|] eqn:E.
  - symmetry. apply mapGet_In; [exact Hnd'|].
    eapply Permutation_in; [exact Hp|].
    clear -E. induction m as [|[k w] m IH]; cbn in *; [discriminate|].
    destruct (Z.eqb_spec k key) as [->|Hne]; [left; congruence | right; auto].
  - symmetry. apply mapGet_None. apply mapGet_None in E.
    intros Hin. apply E. eapply Permutation_in; [|exact Hin].
    apply Permutation_map, Permutation_sym, Hp.
Qed.

End DictOrderFacts.

(** ** [buildOnChainData]: what the loop over the entries stores *)

Module BuildFacts.
Import Ton JettonMinter Codec DictOrderFacts.

Lemma NoDup_snoc {A} (l : list A) (x : A) :
  NoDup l -> ~ In x l -> NoDup (l ++ [x]).
Proof.
  intros Hl Hx. apply NoDup_app; [exact Hl | repeat constructor; intros [] |].
  intros a Ha [<-|[]]. contradiction.
Qed.

Lemma NoDup_app_disjoint {A} (l1 l2 : list A) (x : A) :
  NoDup (l1 ++ l2) -> In x l1 -> ~ In x l2.
Proof.
  induction l1 as [|a l1 IH]; cbn; intros Hnd Hin; [contradiction|].
  inversion Hnd as [|? ? Ha Hnd']; subst.
  destruct Hin as [->|Hin]; [|now apply IH].
  intros Hx. apply Ha. apply in_or_app. now right.
Qed.

Lemma jsstring_eqb_eq (a b : jsstring) : jsstring_eqb a b = true <-> a = b.
Proof.
  unfold jsstring_eqb. destruct (list_eq_dec Z.eq_dec a b); split;
    congruence.
Qed.

Lemma jsstring_eqb_refl (a : jsstring) : jsstring_eqb a a = true.
Proof. now apply jsstring_eqb_eq. Qed.

Lemma jsstring_eqb_neq (a b : jsstring) : a <> b -> jsstring_eqb a b = false.
Proof.
  intros H. destruct (jsstring_eqb a b) eqn:E; [|reflexivity].
  now apply jsstring_eqb_eq in E.
Qed.

Lemma existsb_jsstring_eqb (k : jsstring) (l : list jsstring) :
  existsb (jsstring_eqb k) l = true <-> In k l.
Proof.
  rewrite existsb_exists. split.
  - intros (x & Hin & E). apply jsstring_eqb_eq in E. now subst.
  - intros Hin. exists k. split; [exact Hin | apply jsstring_eqb_refl].
Qed.

(** The property read yields [undefined] exactly for the keys that are
    neither own keys of the table nor members of [Object.prototype]. *)
Lemma spec_Undefined_iff (k : jsstring) :
  jettonOnChainMetadataSpec k = Undefined <->
  ~ In k JETTON_METADATA_KEYS /\ ~ In k OBJECT_PROTOTYPE_KEYS.
Proof.
  unfold jettonOnChainMetadataSpec, JETTON_METADATA_KEYS.
  destruct (jsstring_eqb k (js "name")) eqn:E1;
    [apply jsstring_eqb_eq in E1; subst; cbn; split; [discriminate|tauto]|].
  destruct (jsstring_eqb k (js "description")) eqn:E2;
    [apply jsstring_eqb_eq in E2; subst; cbn; split; [discriminate|tauto]|].
  destruct (jsstring_eqb k (js "image")) eqn:E3;
    [apply jsstring_eqb_eq in E3; subst; cbn; split; [discriminate|tauto]|].
  destruct (jsstring_eqb k (js "symbol")) eqn:E4;
    [apply jsstring_eqb_eq in E4; subst; cbn; split; [discriminate|tauto]|].
  assert (Hk : ~ In k [js "name"; js "description"; js "image"; js "symbol"]).
  { cbn [In]. intros [H|[H|[H|[H|[]]]]]; subst k;
      rewrite jsstring_eqb_refl in *; discriminate. }
  destruct (existsb (jsstring_eqb k) OBJECT_PROTOTYPE_KEYS) eqn:E5.
  - apply existsb_jsstring_eqb in E5. split; [discriminate | tauto].
  - split; [intros _|reflexivity]. split; [exact Hk|].
    intros Hin. apply existsb_jsstring_eqb in Hin. congruence.
Qed.

Lemma spec_own (k : jsstring) :
  In k JETTON_METADATA_KEYS ->
  jettonOnChainMetadataSpec k = OwnEncoding (encodingOf k).
Proof.
  unfold JETTON_METADATA_KEYS. cbn [In].
  intros [H|[H|[H|[H|[]]]]]; subst k; reflexivity.
Qed.

Lemma storeEntry_entryItem (d : DictBuilder) (kv : jsstring * option jsstring) :
  storeEntry d kv =
  (it <- entryItem kv ;;
   match it with
   | None => Ok d
   | Some (key, cell) =>
       match mapGet key (items d) with
       | Some _ => Err ItemAlreadyExists
       | None => Ok (mkDictBuilder (keySize d) (items d ++ [(key, cell)]))
       end
   end).
Proof.
  destruct kv as [k [v|]]; unfold storeEntry, entryItem;
    destruct (jettonOnChainMetadataSpec k); try reflexivity;
    destruct (snakeCell k v); reflexivity.
Qed.

Lemma forEach_storeEntry_inv (data : Metadata) (d0 d : DictBuilder) :
  NoDup (map fst (items d0)) ->
  forEach storeEntry data d0 = Ok d ->
  Forall okEntry data /\
  d = mkDictBuilder (keySize d0) (items d0 ++ flat_map itemsOf data) /\
  NoDup (map fst (items d0 ++ flat_map itemsOf data)).
Proof.
  revert d0; induction data as [|kv data IH]; intros d0 Hnd H.
  - cbn in H. injection H as <-. cbn. rewrite app_nil_r.
    split; [constructor|]. split; [now destruct d0 | exact Hnd].
  - cbn [forEach] in H. inv_bind H. rewrite storeEntry_entryItem in Ha.
    unfold okEntry, itemsOf. cbn [flat_map].
    destruct (entryItem kv) as [[[key cell]|]|e] eqn:E; cbn [bind] in Ha;
      try discriminate.
    + destruct (mapGet key (items d0)) eqn:G; [discriminate|].
      injection Ha as <-. apply mapGet_None in G.
      apply IH in H; cbn [items keySize] in *.
      * destruct H as (Hok & -> & Hnd'). rewrite <- app_assoc in *.
        repeat split; [constructor; [now rewrite E | exact Hok] | exact Hnd'].
      * rewrite map_app. cbn. now apply NoDup_snoc.
    + injection Ha as <-. apply IH in H; [|exact Hnd].
      destruct H as (Hok & -> & Hnd').
      repeat split; [constructor; [now rewrite E | exact Hok] | exact Hnd'].
Qed.

Lemma forEach_storeEntry_intro (data : Metadata) (d0 : DictBuilder) :
  Forall okEntry data ->
  NoDup (map fst (items d0 ++ flat_map itemsOf data)) ->
  forEach storeEntry data d0
  = Ok (mkDictBuilder (keySize d0) (items d0 ++ flat_map itemsOf data)).
Proof.
  revert d0; induction data as [|kv data IH]; intros d0 Hok Hnd.
  - cbn. rewrite app_nil_r. now destruct d0.
  - inversion Hok as [|? ? Hkv Hok']; subst.
    cbn [forEach]. rewrite storeEntry_entryItem.
    unfold okEntry in Hkv. cbn [flat_map] in Hnd. unfold itemsOf in Hnd |- *.
    cbn [flat_map].
    destruct (entryItem kv) as [[[key cell]|]|e] eqn:E; cbn [bind];
      try discriminate.
    + assert (G : mapGet key (items d0) = None).
      { apply mapGet_None. intros Hin.
        rewrite map_app in Hnd.
        apply (NoDup_app_disjoint _ _ key Hnd Hin). cbn. now left. }
      rewrite G. cbn [bind]. rewrite IH; cbn [items keySize].
      * now rewrite <- app_assoc.
      * exact Hok'.
      * now rewrite <- app_assoc.
    + now apply IH.
Qed.

Lemma endDict_perm (d d' : DictBuilder) :
  keySize d = keySize d' -> Permutation (items d) (items d') ->
  endDict d = endDict d'.
Proof.
  intros Hk Hp. unfold endDict.
  destruct (items d) as [|x l] eqn:E, (items d') as [|x' l'] eqn:E';
    [reflexivity
    | now apply Permutation_nil_cons in Hp
    | now apply Permutation_sym, Permutation_nil_cons in Hp
    | ].
  now rewrite Hk, (serializeDict_perm writeCell _ _ (keySize d') Hp).
Qed.

(** C7. [buildOnChainData] is a function of its input, and the cell it
    returns does not depend on the order in which the entries of the
    metadata object are listed: if it returns a cell on one listing, it
    returns the same cell on every permutation of that listing. *)
Theorem buildOnChainData_order_independent :
  forall (data data' : Metadata) (content : Cell),
    Permutation data data' ->
    buildOnChainData data = Ok content ->
    buildOnChainData data' = Ok content.
Proof.
  intros data data' content Hp H. unfold buildOnChainData in *.
  inv_bind H. rename a into d.
  apply forEach_storeEntry_inv in Ha; [|constructor].
  destruct Ha as (Hok & -> & Hnd). cbn [items keySize beginDict app] in *.
  rewrite (forEach_storeEntry_intro data').
  - cbn [bind items keySize beginDict app].
    rewrite <- (endDict_perm (mkDictBuilder 256 (flat_map itemsOf data))); auto.
    now apply Permutation_flat_map.
  - eapply Permutation_Forall; eassumption.
  - cbn [items beginDict app].
    eapply Permutation_NoDup; [|exact Hnd].
    now apply Permutation_map, Permutation_flat_map.
Qed.

Lemma buildOnChainData_order_independent_witness :
  buildOnChainData
    [(js "symbol", Some (js "TST")); (js "name", Some (js "Test"))]
  = Ok Examples.testContent.
Proof.
  apply (buildOnChainData_order_independent Examples.testMetadata).
  - apply perm_swap.
  - vm_compute. reflexivity.
Defined.

(** An entry with an unsupported key stops the loop. *)
Lemma storeEntry_unsupported (d : DictBuilder) (k : jsstring)
  (v : option jsstring) :
  jettonOnChainMetadataSpec k = Undefined ->
  storeEntry d (k, v) = Err (UnsupportedOnchainKey k).
Proof. intros H. unfold storeEntry. now rewrite H. Qed.

(** C2, amended. Let [k] be a key that is neither one of the four recognized
    keys nor a member name of [Object.prototype].  Every metadata object that
    has [k] among its keys makes [buildOnChainData] fail, whether the value
    of [k] is defined or not; and when the entries listed before [k] are
    stored without error, the failure is the unsupported-key error for
    [k]. *)
Theorem buildOnChainData_unsupported_key :
  forall (k : jsstring),
    ~ In k JETTON_METADATA_KEYS ->
    ~ In k OBJECT_PROTOTYPE_KEYS ->
    (forall (data : Metadata),
        In k (map fst data) -> isOk (buildOnChainData data) = false) /\
    (forall (before after : Metadata) (v : option jsstring) (d : DictBuilder),
        forEach storeEntry before (beginDict 256) = Ok d ->
        buildOnChainData (before ++ (k, v) :: after)
        = Err (UnsupportedOnchainKey k)).
Proof.
  intros k Hk Hp.
  assert (Hu : jettonOnChainMetadataSpec k = Undefined)
    by (now apply spec_Undefined_iff).
  split.
  - intros data Hin. destruct (buildOnChainData data) as [c|e] eqn:E;
      [|reflexivity].
    exfalso. unfold buildOnChainData in E. inv_bind E.
    apply forEach_storeEntry_inv in Ha; [|constructor].
    destruct Ha as (Hok & _). apply in_map_iff in Hin.
    destruct Hin as ([k' v] & Hk' & Hin). cbn in Hk'. subst k'.
    rewrite Forall_forall in Hok. specialize (Hok _ Hin).
    unfold okEntry, entryItem in Hok. rewrite Hu in Hok. discriminate.
  - intros before after v d Hd. unfold buildOnChainData.
    rewrite forEach_app, Hd. cbn [bind forEach].
    now rewrite storeEntry_unsupported.
Qed.

Lemma buildOnChainData_unsupported_key_witness :
  isOk (buildOnChainData [(js "foo", None)]) = false /\
  buildOnChainData
    ([(js "name", Some (js "Test"))] ++ (js "foo", None) :: [])
  = Err (UnsupportedOnchainKey (js "foo")).
Proof.
  assert (H1 : ~ In (js "foo") JETTON_METADATA_KEYS)
    by (cbn; intros [H|[H|[H|[H|[]]]]]; discriminate H).
  assert (H2 : ~ In (js "foo") OBJECT_PROTOTYPE_KEYS)
    by (cbn; intuition discriminate).
  destruct (buildOnChainData_unsupported_key (js "foo") H1 H2) as [A B].
  split.
  - apply A. cbn. now left.
  - eapply B. vm_compute. reflexivity.
Defined.

(** C2 as stated fails: the entry before the unsupported key is too long
    for a cell, and the error is the overflow of that entry. *)
Lemma buildOnChainData_overflow_before_unsupported :
  ~ In (js "foo") JETTON_METADATA_KEYS /\
  buildOnChainData
    [(js "name", Some Examples.longName); (js "foo", Some (js "x"))]
  = Err BitStringOverflow.
Proof.
  split; [cbn; intros [H|[H|[H|[H|[]]]]]; discriminate H|].
  vm_compute. reflexivity.
Qed.

(** A key that names a member of [Object.prototype] passes the check of
    [buildOnChainData] although it is not a recognized key. *)
Lemma buildOnChainData_prototype_key :
  ~ In (js "constructor") JETTON_METADATA_KEYS /\
  isOk (buildOnChainData [(js "constructor", Some (js "x"))]) = true /\
  isOk (buildOnChainData [(js "constructor", None)]) = true.
Proof.
  split; [cbn; intros [H|[H|[H|[H|[]]]]]; discriminate H|].
  split; vm_compute; reflexivity.
Qed.

(** An entry whose value is [undefined] leaves the dictionary as it is. *)
Lemma storeEntry_undefined (d : DictBuilder) (k : jsstring) :
  In k JETTON_METADATA_KEYS -> storeEntry d (k, None) = Ok d.
Proof. intros H. unfold storeEntry. now rewrite (spec_own k H). Qed.

Lemma buildOnChainData_skip_undefined (before after : Metadata)
  (k : jsstring) :
  In k JETTON_METADATA_KEYS ->
  buildOnChainData (before ++ (k, None) :: after)
  = buildOnChainData (before ++ after).
Proof.
  intros Hk. unfold buildOnChainData. rewrite !forEach_app.
  destruct (forEach storeEntry before (beginDict 256)) as [d|e];
    cbn [bind forEach]; [|reflexivity].
  now rewrite storeEntry_undefined.
Qed.

End BuildFacts.

(** ** Slices: reading back what was written *)

Module ReadFacts.
Import Ton BitFacts.

Lemma takeBits_app (l rest : bits) :
  takeBits (length l) (l ++ rest) = Ok (l, rest).
Proof.
  induction l as [|b l IH]; cbn; [reflexivity|]. now rewrite IH.
Qed.

Lemma takeBits_inv (n : nat) (bs l rest : bits) :
  takeBits n bs = Ok (l, rest) -> bs = l ++ rest /\ length l = n.
Proof.
  revert bs l rest; induction n as [|n IH]; intros bs l rest H.
  - cbn in H. injection H as <- <-. auto.
  - cbn [takeBits] in H. destruct bs as [|b bs]; [discriminate|].
    cbn [takeBit bind] in H.
    destruct (takeBits n bs) as [[l' rest']|] eqn:E; [|discriminate].
    cbn in H. injection H as <- <-.
    apply IH in E. destruct E as [-> <-]. auto.
Qed.

Lemma takeUint_bitsOfUint (n : nat) (v : Z) (rest : bits) :
  0 <= v < 2 ^ Z.of_nat n ->
  takeUint n (bitsOfUint n v ++ rest) = Ok (v, rest).
Proof.
  intros Hv. unfold takeUint.
  rewrite <- (length_bitsOfUint n v) at 1.
  rewrite takeBits_app. cbn. now rewrite uintOfBits_bitsOfUint.
Qed.

Lemma takeUnaryLength_repeat (k : nat) (rest : bits) :
  takeUnaryLength (repeat true k ++ false :: rest) = Ok (k, rest).
Proof.
  induction k as [|k IH]; cbn; [reflexivity|]. now rewrite IH.
Qed.

Lemma isSame_repeat (l : bits) :
  isSame l = true -> l = repeat (hd false l) (length l).
Proof.
  destruct l as [|b l]; cbn; [reflexivity|]. intros H. f_equal.
  induction l as [|x l IH]; cbn in *; [reflexivity|].
  apply andb_prop in H. destruct H as [Hx Hl].
  apply Bool.eqb_prop in Hx. subst x. f_equal. now apply IH.
Qed.

Lemma writeBit_inv (b : bool) (bs r : bits) :
  writeBit b bs = Ok r -> r = bs ++ [b].
Proof.
  unfold writeBit. destruct (_ <? _)%nat; [|discriminate]. congruence.
Qed.

(** What [writeLabel] appends is read back by [readLabel]. *)
Lemma readLabel_writeLabel (label : bits) (n : Z) (to bs : bits) :
  writeLabel label n to = Ok bs ->
  exists w, bs = to ++ w /\
            forall rest, readLabel n (w ++ rest) = Ok (label, rest).
Proof.
  unfold writeLabel. destruct (detectLabelType label n) eqn:Ety.
  - (* short *)
    unfold writeLabelShort. intros H.
    inv_bind H. inv_bind H. inv_bind H.
    apply writeBit_inv in Ha. apply writeBits_inv in Ha0.
    apply writeBit_inv in Ha1. apply writeBits_inv in H.
    destruct Ha0 as [-> _], H as [-> _]. subst.
    exists (false :: repeat true (length label) ++ false :: label).
    split.
    + repeat rewrite <- app_assoc. reflexivity.
    + intros rest. unfold readLabel. cbn [app takeBit bind negb].
      rewrite <- app_assoc. cbn [app].
      rewrite takeUnaryLength_repeat. cbn [bind].
      apply takeBits_app.
  - (* long *)
    unfold writeLabelLong. intros H.
    inv_bind H. inv_bind H. inv_bind H.
    apply writeBit_inv in Ha. apply writeBit_inv in Ha0.
    apply writeUint_inv in Ha1. destruct Ha1 as [Hlen Ha1].
    apply writeBits_inv in Ha1. apply writeBits_inv in H.
    destruct Ha1 as [-> _], H as [-> _]. subst.
    exists (true :: false ::
              bitsOfUint (lenBits n) (Z.of_nat (length label)) ++ label).
    split.
    + repeat rewrite <- app_assoc. reflexivity.
    + intros rest. unfold readLabel. cbn [app takeBit bind negb].
      rewrite <- app_assoc.
      rewrite takeUint_bitsOfUint by exact Hlen. cbn [bind].
      rewrite Nat2Z.id. apply takeBits_app.
  - (* same *)
    assert (Hsame : isSame label = true).
    { unfold detectLabelType in Ety.
      destruct (_ <? _) in Ety; destruct (isSame label); try reflexivity;
        try discriminate. }
    unfold writeLabelSame. intros H.
    inv_bind H. inv_bind H. inv_bind H.
    apply writeBit_inv in Ha. apply writeBit_inv in Ha0.
    apply writeBit_inv in Ha1.
    apply writeUint_inv in H. destruct H as [Hlen H].
    apply writeBits_inv in H. destruct H as [-> _]. subst.
    exists (true :: true :: hd false label ::
              bitsOfUint (lenBits n) (Z.of_nat (length label))).
    split.
    + repeat rewrite <- app_assoc. reflexivity.
    + intros rest. unfold readLabel. cbn [app takeBit bind negb].
      rewrite takeUint_bitsOfUint by exact Hlen. cbn [bind].
      rewrite Nat2Z.id. now rewrite <- isSame_repeat.
Qed.

(** Bytes written by [writeBuffer] are read back by [readRemainingBytes]. *)
Lemma bytesOfBits_bufferLayout (buf : list Z) (fuel : nat) :
  Forall (fun b => 0 <= b < 256) buf ->
  (length buf <= fuel)%nat ->
  bytesOfBits fuel (Layout.bufferLayout buf) = buf.
Proof.
  intros H. revert fuel. induction H as [|b buf Hb _ IH]; intros fuel Hf.
  - destruct fuel; reflexivity.
  - destruct fuel as [|fuel]; [cbn in Hf; lia|].
    cbn [Layout.bufferLayout flat_map].
    fold (Layout.bufferLayout buf).
    cbn [bytesOfBits].
    destruct (bitsOfUint 8 b ++ Layout.bufferLayout buf) as [|x l] eqn:E.
    { cbn in E. discriminate. }
    rewrite <- E. clear E x l.
    rewrite <- (length_bitsOfUint 8 b) at 1 3.
    rewrite firstn_app, Nat.sub_diag, firstn_all, firstn_O, app_nil_r.
    rewrite skipn_app, Nat.sub_diag, skipn_all, skipn_O. cbn [app].
    rewrite uintOfBits_bitsOfUint by (change (2 ^ Z.of_nat 8) with 256; lia).
    f_equal. apply IH. cbn in Hf. lia.
Qed.

End ReadFacts.

(** ** Dictionaries: [parseDict] reads back what [serializeDict] wrote *)

Module DictFacts.
Import Ton BitFacts ReadFacts DictOrderFacts Codec.

(** Induction on a cell, with the property for all its references. *)
Lemma Cell_induction (P : Cell -> Prop) :
  (forall cb cr, Forall P cr -> P (mkCell cb cr)) -> forall c, P c.
Proof.
  intros H. fix IH 1. intros [cb cr]. apply H.
  induction cr as [|c cr IHcr]; constructor; [apply IH | exact IHcr].
Qed.

(** *** The common prefix is a prefix of every key *)

Lemma commonPrefix_l (a b : bits) : exists t, a = commonPrefix a b ++ t.
Proof.
  revert b; induction a as [|x a IH]; intros [|y b]; cbn;
    try (eexists; reflexivity).
  destruct (Bool.eqb x y); [|eexists; reflexivity].
  destruct (IH b) as [t Ht]. exists t. cbn. f_equal. exact Ht.
Qed.

Lemma commonPrefix_r (a b : bits) : exists t, b = commonPrefix a b ++ t.
Proof. rewrite commonPrefix_comm. apply commonPrefix_l. Qed.

Lemma fold_commonPrefix_prefix (l : list bits) (x k : bits) :
  In k (x :: l) -> exists t, k = fold_left commonPrefix l x ++ t.
Proof.
  revert x k; induction l as [|y l IH]; intros x k Hin.
  - destruct Hin as [<-|[]]. exists []. cbn. now rewrite app_nil_r.
  - cbn [fold_left].
    destruct (IH (commonPrefix x y) (commonPrefix x y) (or_introl eq_refl))
      as [t1 Ht1].
    destruct Hin as [<-|[<-|Hin]].
    + destruct (commonPrefix_l x y) as [t2 Ht2].
      exists (t1 ++ t2). rewrite app_assoc, <- Ht1. exact Ht2.
    + destruct (commonPrefix_r x y) as [t2 Ht2].
      exists (t1 ++ t2). rewrite app_assoc, <- Ht1. exact Ht2.
    + apply IH. now right.
Qed.

Lemma findCommonPrefix_prefix (keys : list bits) (k : bits) :
  In k keys -> k = findCommonPrefix keys
                   ++ skipn (length (findCommonPrefix keys)) k.
Proof.
  intros Hin. destruct keys as [|x l]; [contradiction|].
  cbn [findCommonPrefix].
  destruct (fold_commonPrefix_prefix l x k Hin) as [t Ht].
  rewrite Ht at 1. f_equal. rewrite Ht at 1.
  now rewrite skipn_app, Nat.sub_diag, skipn_all.
Qed.

(** *** Lists of entries *)

Lemma partition_perm {A} (f : A -> bool) (l : list A) :
  Permutation (filter f l ++ filter (fun x => negb (f x)) l) l.
Proof.
  induction l as [|x l IH]; cbn; [constructor|].
  destruct (f x); cbn.
  - now constructor.
  - apply Permutation_sym, Permutation_cons_app, Permutation_sym, IH.
Qed.

Lemma NoDup_map_inj_in {A B} (f : A -> B) (l : list A) :
  (forall x y, In x l -> In y l -> f x = f y -> x = y) ->
  NoDup l -> NoDup (map f l).
Proof.
  induction l as [|a l IH]; intros Hinj Hnd; cbn; [constructor|].
  inversion Hnd as [|? ? Ha Hnd']; subst. constructor.
  - intros Hin. apply in_map_iff in Hin. destruct Hin as (y & Hy & Hin).
    apply Ha. rewrite <- (Hinj y a); cbn; auto.
  - apply IH; [|exact Hnd']. intros x y Hx Hy. apply Hinj; cbn; auto.
Qed.

Lemma NoDup_keys_filter {T} (f : bits * T -> bool) (l : list (bits * T)) :
  NoDup (map fst l) -> NoDup (map fst (filter f l)).
Proof.
  induction l as [|x l IH]; cbn; intros Hnd; [constructor|].
  inversion Hnd as [|? ? Hx Hnd']; subst.
  destruct (f x); cbn; [|now apply IH].
  constructor; [|now apply IH].
  intros Hin. apply Hx. apply in_map_iff in Hin.
  destruct Hin as (y & Hy & Hin). apply filter_In in Hin.
  apply in_map_iff. exists y. tauto.
Qed.

Section Fork.
Context {T : Type}.

Lemma forkMap_inv (src l r : list (bits * T)) :
  forkMap src = Ok (l, r) ->
  l = map substr1 (filter startsWith0 src) /\
  r = map substr1 (filter (fun kv => negb (startsWith0 kv)) src).
Proof.
  unfold forkMap. destruct src as [|x src]; [discriminate|].
  destruct (map substr1 (filter startsWith0 (x :: src))) as [|a l'];
    [discriminate|].
  destruct (map substr1 (filter _ (x :: src))) as [|b r'];
    [discriminate|].
  intros [= <- <-]. auto.
Qed.

(** The keys on one side of a fork: one bit shorter, still distinct, and
    each the tail of a key that starts with the bit of that side. *)
Lemma fork_side (bit : bool) (f : bits * T -> bool) (m : nat)
  (src : list (bits * T)) :
  (forall kv, In kv src -> f kv = true -> exists t, fst kv = bit :: t) ->
  Forall (fun kv => length (fst kv) = S m) src ->
  NoDup (map fst src) ->
  Forall (fun kv => length (fst kv) = m) (map substr1 (filter f src)) /\
  NoDup (map fst (map substr1 (filter f src))) /\
  (forall kv, In kv (filter f src) -> fst kv = bit :: fst (substr1 kv)).
Proof.
  intros Hbit Hlen Hnd.
  assert (Hshape : forall kv, In kv (filter f src) ->
                              fst kv = bit :: fst (substr1 kv)).
  { intros kv Hin. apply filter_In in Hin. destruct Hin as [Hin Hf].
    destruct (Hbit kv Hin Hf) as [t Ht]. unfold substr1. cbn.
    now rewrite Ht. }
  split; [|split; [|exact Hshape]].
  - apply Forall_forall. intros kv' Hin. apply in_map_iff in Hin.
    destruct Hin as (kv & <- & Hin). pose proof (Hshape kv Hin) as Hs.
    apply filter_In in Hin. destruct Hin as [Hin _].
    rewrite Forall_forall in Hlen. specialize (Hlen kv Hin).
    cbn beta in Hlen. apply (f_equal (@length bool)) in Hs.
    cbn [length] in Hs. lia.
  - rewrite map_map.
    replace (map (fun x => fst (substr1 x)) (filter f src))
      with (map (@tl bool) (map fst (filter f src)))
      by (rewrite map_map; reflexivity).
    apply NoDup_map_inj_in; [|now apply NoDup_keys_filter].
    intros x y Hx Hy Heq.
    apply in_map_iff in Hx. destruct Hx as (kx & <- & Hx).
    apply in_map_iff in Hy. destruct Hy as (ky & <- & Hy).
    pose proof (Hshape kx Hx) as E1. pose proof (Hshape ky Hy) as E2.
    unfold substr1 in *. cbn [fst] in *. congruence.
Qed.

End Fork.

(** *** The walk of [doParse] over the tree written by [writeEdge] *)

Lemma writeCell_inv (v : Cell) (to to' : Builder) :
  writeCell v to = Ok to' ->
  to' = mkBuilder (bbits to ++ cellBits v) (brefs to ++ cellRefs v).
Proof.
  unfold writeCell. intros H. inv_bind H.
  apply writeBits_inv in Ha. destruct Ha as [-> _]. congruence.
Qed.

Lemma filter_map_comm {A B} (f : B -> bool) (g : A -> B) (l : list A) :
  filter f (map g l) = map g (filter (fun x => f (g x)) l).
Proof.
  induction l as [|x l IH]; cbn; [reflexivity|].
  destruct (f (g x)); cbn; now rewrite IH.
Qed.

(** The entries below one side of a fork are the entries of the keys that
    continue with the bit of that side. *)
Lemma side_entries (prefix label : bits) (bit : bool)
  (f : bits * Cell -> bool) (src : list (bits * Cell)) :
  let strip := fun kv : bits * Cell =>
                 (skipn (length label) (fst kv), snd kv) in
  (forall kv, In kv src ->
              fst kv = label ++ skipn (length label) (fst kv)) ->
  (forall kv, In kv (filter f (map strip src)) ->
              fst kv = bit :: fst (substr1 kv)) ->
  map (entryOf ((prefix ++ label) ++ [bit]))
      (map substr1 (filter f (map strip src)))
  = map (entryOf prefix) (filter (fun kv => f (strip kv)) src).
Proof.
  intros strip Hshape Hbit. rewrite filter_map_comm, !map_map.
  apply map_ext_in. intros kv Hin.
  assert (Hin' : In (strip kv) (filter f (map strip src))).
  { rewrite filter_map_comm. now apply in_map. }
  apply filter_In in Hin. destruct Hin as [Hin _].
  specialize (Hbit _ Hin'). specialize (Hshape _ Hin).
  unfold entryOf. f_equal. f_equal.
  transitivity (prefix ++ label ++ skipn (length label) (fst kv));
    [|now rewrite <- Hshape].
  subst strip. unfold substr1 in *. cbn [fst snd] in *.
  destruct (skipn (length label) (fst kv)) as [|b t]; [discriminate|].
  cbn [tl] in *. injection Hbit as ->. now rewrite <- !app_assoc.
Qed.

Lemma doParse_buildEdge (fuel : nat) :
  forall (src : list (bits * Cell)) (n : nat) (e : Edge Cell) (c : Cell)
         (prefix : bits),
    buildEdge fuel src = Ok e ->
    Forall (fun kv => length (fst kv) = n) src ->
    NoDup (map fst src) ->
    writeEdge writeCell e (Z.of_nat n) beginCell = Ok c ->
    exists es,
      doParse Ok prefix c (Z.of_nat n) = Ok es /\
      Permutation es (map (entryOf prefix) src).
Proof.
  induction fuel as [|f IH]; intros src n e c prefix Hb Hlen Hnd Hw;
    [discriminate|].
  destruct src as [|kv0 src0]; [discriminate|].
  cbn [buildEdge] in Hb.
  remember (kv0 :: src0) as src eqn:Esrc.
  set (label := findCommonPrefix (map fst src)) in *.
  assert (Hshape : forall kv, In kv src ->
            fst kv = label ++ skipn (length label) (fst kv)).
  { intros kv Hin. apply findCommonPrefix_prefix.
    apply in_map_iff. now exists kv. }
  destruct (removePrefixMap src (length label)) as [|a [|b R]] eqn:ER;
    [discriminate| |].
  - (* a single entry: a leaf *)
    injection Hb as <-.
    assert (Es : src = [kv0]).
    { apply (f_equal (@length _)) in ER. unfold removePrefixMap in ER.
      rewrite length_map, Esrc in ER. cbn in ER.
      destruct src0; [exact Esrc | discriminate]. }
    assert (El : label = fst kv0) by (subst label; now rewrite Es).
    assert (Ea : snd a = snd kv0).
    { rewrite Es in ER. cbn in ER. now injection ER as <-. }
    cbn [writeEdge writeNode] in Hw. inv_bind Hw. inv_bind Hw.
    destruct (readLabel_writeLabel _ _ _ _ Ha) as (w & -> & Hr).
    apply writeCell_inv in Ha0. subst. cbn [endCell bbits brefs app] in Hw.
    injection Hw as <-.
    exists [entryOf prefix kv0]. split; [|now rewrite Es].
    assert (Hk : length label = n).
    { rewrite El. rewrite Forall_forall in Hlen. apply (Hlen kv0).
      rewrite Es. now left. }
    cbn [doParse]. rewrite Hr. cbn [bind].
    rewrite Hk, Z.sub_diag. cbn [Z.eqb bind]. unfold entryOf, beginParse.
    now rewrite Ea, El.
  - (* several entries: a fork *)
    remember (a :: b :: R) as RR eqn:ERR.
    inv_bind Hb. destruct a0 as [l r]. inv_bind Hb. inv_bind Hb.
    rename a0 into le, a1 into re. injection Hb as <-.
    apply forkMap_inv in Ha. destruct Ha as [El Er].
    (* the stripped keys *)
    assert (HRR : RR = map (fun kv => (skipn (length label) (fst kv), snd kv))
                           src) by (symmetry; exact ER).
    assert (Hll : (length label <= n)%nat).
    { rewrite Forall_forall in Hlen.
      specialize (Hlen kv0 ltac:(rewrite Esrc; now left)).
      cbn beta in Hlen.
      pose proof (f_equal (@length bool)
                    (Hshape kv0 ltac:(rewrite Esrc; now left))) as Hl.
      rewrite length_app in Hl. lia. }
    assert (HlenR : Forall (fun kv => length (fst kv) = n - length label)%nat RR).
    { rewrite HRR. apply Forall_forall. intros kv' Hin.
      apply in_map_iff in Hin. destruct Hin as (kv & <- & Hin). cbn [fst].
      rewrite Forall_forall in Hlen. specialize (Hlen kv Hin).
      cbn beta in Hlen. rewrite length_skipn. lia. }
    assert (HndR : NoDup (map fst RR)).
    { assert (Hkeys : map fst RR = map (skipn (length label)) (map fst src))
        by (rewrite HRR, !map_map; reflexivity).
      rewrite Hkeys. apply NoDup_map_inj_in; [|exact Hnd].
      intros x y Hx Hy Heq.
      apply in_map_iff in Hx. destruct Hx as (kx & <- & Hx).
      apply in_map_iff in Hy. destruct Hy as (ky & <- & Hy).
      pose proof (Hshape kx Hx) as E1. pose proof (Hshape ky Hy) as E2.
      congruence. }
    (* two distinct keys of the same length: at least one bit is left *)
    destruct (n - length label)%nat as [|m] eqn:Em.
    { exfalso. rewrite ERR in HlenR, HndR.
      inversion HlenR as [|? ? Ha' Hrest]. inversion Hrest as [|? ? Hb' _].
      inversion HndR as [|? ? Hnin _]. apply Hnin.
      apply length_zero_iff_nil in Ha', Hb'. cbn. left.
      congruence. }
    destruct (fork_side false startsWith0 m RR) as (HlenL & HndL & HshL);
      [|exact HlenR|exact HndR|].
    { intros kv _ Hf. unfold startsWith0 in Hf.
      destruct (fst kv) as [|[] t]; try discriminate. now exists t. }
    destruct (fork_side true (fun kv => negb (startsWith0 kv)) m RR)
      as (HlenRt & HndRt & HshR); [|exact HlenR|exact HndR|].
    { intros kv Hin Hf. unfold startsWith0 in Hf.
      rewrite Forall_forall in HlenR. specialize (HlenR kv Hin).
      cbn beta in HlenR. revert Hf HlenR.
      destruct (fst kv) as [|[] t]; cbn; try discriminate. now exists t. }
    rewrite <- El in HlenL, HndL. rewrite <- Er in HlenRt, HndRt.
    (* the cell that was written *)
    cbn [writeEdge writeNode] in Hw. inv_bind Hw.
    destruct (readLabel_writeLabel _ _ _ _ Ha) as (w & -> & Hr).
    inv_bind Hw. inv_bind Hw. rename a0 into lc, a1 into rc.
    cbn [endCell bbits brefs beginCell app] in Hw. injection Hw as <-.
    assert (Hn : Z.of_nat n - Z.of_nat (length label) - 1 = Z.of_nat m)
      by lia.
    rewrite Hn in Ha2, Ha3.
    destruct (IH l m le lc ((prefix ++ label) ++ [false]) Ha0 HlenL HndL Ha2)
      as (esl & Hpl & Hperml).
    destruct (IH r m re rc ((prefix ++ label) ++ [true]) Ha1 HlenRt HndRt Ha3)
      as (esr & Hpr & Hpermr).
    exists (esl ++ esr). split.
    + cbn [doParse]. specialize (Hr []). rewrite app_nil_r in Hr.
      rewrite Hr. cbn [bind].
      replace (Z.of_nat n - Z.of_nat (length label) =? 0) with false
        by (symmetry; apply Z.eqb_neq; lia).
      rewrite Hn, Hpl, Hpr. reflexivity.
    + etransitivity; [apply Permutation_app; eassumption|].
      etransitivity;
        [|apply Permutation_map,
                (partition_perm
                   (fun kv => startsWith0
                      (skipn (length label) (fst kv), snd kv)) src)].
      rewrite map_app. rewrite HRR in El, Er, HshL, HshR.
      apply Permutation_app.
      * rewrite El, (side_entries prefix label false) by assumption.
        reflexivity.
      * rewrite Er, (side_entries prefix label true) by assumption.
        reflexivity.
Qed.

(** *** Keys as numbers *)

Lemma bitsOfUint_high (k L : nat) (v : Z) :
  0 <= v < 2 ^ Z.of_nat L ->
  bitsOfUint (k + L) v = repeat false k ++ bitsOfUint L v.
Proof.
  intros Hv. induction k as [|k IH]; [reflexivity|].
  cbn [Nat.add bitsOfUint repeat app]. rewrite IH. f_equal.
  apply Z.testbit_false; [lia|].
  rewrite Z.div_small; [reflexivity|].
  split; [lia|]. apply Z.lt_le_trans with (2 ^ Z.of_nat L); [lia|].
  apply Z.pow_le_mono_r; lia.
Qed.

Lemma bitLength_spec (v : Z) :
  0 <= v -> 0 < bitLength v /\ v < 2 ^ bitLength v.
Proof.
  intros Hv. unfold bitLength.
  destruct (Z.eqb_spec v 0) as [->|Hne]; [cbn; lia|].
  pose proof (Z.log2_nonneg v). split; [lia|].
  replace (Z.log2 v + 1) with (Z.succ (Z.log2 v)) by lia.
  apply Z.log2_spec. lia.
Qed.

Lemma padKey_bitsOfUint (n : nat) (v : Z) :
  (0 < n)%nat -> 0 <= v < 2 ^ Z.of_nat n ->
  padKey (Z.of_nat n) v = bitsOfUint n v.
Proof.
  intros Hn Hv. unfold padKey, toBinary.
  rewrite length_bitsOfUint, Nat2Z.id.
  destruct (bitLength_spec v) as [Hpos Hlt]; [lia|].
  pose proof (bitLength_le v n Hv Hn) as Hle.
  replace n with ((n - Z.to_nat (bitLength v)) + Z.to_nat (bitLength v))%nat
    at 2 by lia.
  rewrite bitsOfUint_high; [reflexivity|].
  rewrite Z2Nat.id by lia. lia.
Qed.

(** [parseDict] reads back the entries [serializeDict] wrote, each value
    cell as the slice of its bits and references. *)
Lemma doParse_serializeDict (items : list (Z * Cell)) (n : nat) (c : Cell) :
  (0 < n)%nat ->
  serializeDict writeCell items (Z.of_nat n) = Ok c ->
  Forall (fun kv => 0 <= fst kv < 2 ^ Z.of_nat n) items ->
  NoDup (map fst items) ->
  exists es,
    doParse Ok [] c (Z.of_nat n) = Ok es /\
    Permutation es (map (fun kv => (fst kv, beginParse (snd kv))) items).
Proof.
  intros Hn Hs Hrange Hnd. unfold serializeDict, buildTree in Hs.
  inv_bind Hs. rename a into e.
  set (conv := map (fun kv : Z * Cell => (padKey (Z.of_nat n) (fst kv), snd kv))
                   items) in *.
  assert (Hconv : conv = map (fun kv => (bitsOfUint n (fst kv), snd kv)) items).
  { subst conv. apply map_ext_in. intros kv Hin.
    rewrite Forall_forall in Hrange.
    now rewrite padKey_bitsOfUint by (auto using Hrange). }
  destruct (doParse_buildEdge _ conv n e c [] Ha) as (es & Hes & Hperm);
    [| |exact Hs|].
  - rewrite Hconv. apply Forall_forall. intros kv' Hin.
    apply in_map_iff in Hin. destruct Hin as (kv & <- & _).
    apply length_bitsOfUint.
  - rewrite Hconv, map_map. cbn [fst].
    replace (map (fun x : Z * Cell => bitsOfUint n (fst x)) items)
      with (map (bitsOfUint n) (map fst items))
      by (rewrite map_map; reflexivity).
    apply NoDup_map_inj_in; [|exact Hnd].
    intros x y Hx Hy. rewrite Forall_forall in Hrange.
    apply in_map_iff in Hx. destruct Hx as (kx & <- & Hx).
    apply in_map_iff in Hy. destruct Hy as (ky & <- & Hy).
    apply bitsOfUint_inj; now apply Hrange.
  - exists es. split; [exact Hes|].
    etransitivity; [exact Hperm|]. rewrite Hconv, map_map.
    erewrite map_ext_in; [reflexivity|].
    intros kv Hin. unfold entryOf. cbn [fst snd app].
    rewrite Forall_forall in Hrange.
    now rewrite uintOfBits_bitsOfUint by (now apply Hrange).
Qed.

(** *** The extractor is applied to the entries in the order of the walk *)

Lemma mapM_app {A B} (g : A -> result B) (l1 l2 : list A) :
  mapM g (l1 ++ l2)
  = (a <- mapM g l1 ;; b <- mapM g l2 ;; Ok (a ++ b)).
Proof.
  induction l1 as [|x l1 IH]; cbn [mapM app bind].
  - destruct (mapM g l2); reflexivity.
  - destruct (g x); cbn [bind]; [|reflexivity]. rewrite IH.
    destruct (mapM g l1); cbn [bind]; [|reflexivity].
    destruct (mapM g l2); reflexivity.
Qed.

Lemma doParse_extractor {T} (ex : Slice -> result T) (c : Cell) :
  forall (prefix : bits) (n : Z) (es : list (Z * Slice)),
    doParse Ok prefix c n = Ok es ->
    doParse ex prefix c n = mapM (extractEntry ex) es.
Proof.
  induction c as [cb cr IH] using Cell_induction.
  intros prefix n es H. cbn [doParse] in H |- *.
  destruct (readLabel n cb) as [[label rest]|e]; [|discriminate].
  cbn [bind] in H |- *.
  destruct (n - Z.of_nat (length label) =? 0).
  - cbn [bind] in H. injection H as <-. cbn [mapM]. unfold extractEntry.
    cbn [fst snd]. destruct (ex _); reflexivity.
  - destruct cr as [|l [|r cr]]; try discriminate.
    inversion IH as [|? ? IHl IH']; subst.
    inversion IH' as [|? ? IHr _]; subst.
    inv_bind H. inv_bind H. injection H as <-.
    rewrite (IHl _ _ _ Ha), (IHr _ _ _ Ha0). symmetry. apply mapM_app.
Qed.

Lemma doParse_entries (c : Cell) :
  forall (prefix : bits) (n : Z) (es : list (Z * Slice)),
    doParse Ok prefix c n = Ok es ->
    forall ks, In ks es -> dictEntry n c (snd ks).
Proof.
  induction c as [cb cr IH] using Cell_induction.
  intros prefix n es H ks Hin. cbn [doParse] in H.
  destruct (readLabel n cb) as [[label rest]|e] eqn:Hl; [|discriminate].
  cbn [bind] in H.
  destruct (Z.eqb_spec (n - Z.of_nat (length label)) 0) as [Hz|Hnz].
  - cbn [bind] in H. injection H as <-. destruct Hin as [<-|[]].
    cbn [snd]. eapply dictEntry_leaf; eassumption.
  - destruct cr as [|l [|r cr]]; try discriminate.
    inversion IH as [|? ? IHl IH']; subst.
    inversion IH' as [|? ? IHr _]; subst.
    inv_bind H. inv_bind H. injection H as <-.
    apply in_app_or in Hin. destruct Hin as [Hin|Hin].
    + eapply dictEntry_left; eauto.
    + eapply dictEntry_right; eauto.
Qed.






End DictFacts.

(** ** SHA-256: the digest is 32 bytes *)

Module Sha256Facts.
Import Sha256.

Lemma length_bytesOf (n : nat) (v : Z) : length (bytesOf n v) = n.
Proof. induction n; cbn; congruence. Qed.

Lemma land_255_range (x : Z) : 0 <= Z.land x 0xFF < 256.
Proof.
  change 0xFF with (Z.ones 8). rewrite Z.land_ones by lia.
  change (2 ^ 8) with 256. apply Z.mod_pos_bound. lia.
Qed.

Lemma bytesOf_range (n : nat) (v : Z) :
  Forall (fun b => 0 <= b < 256) (bytesOf n v).
Proof.
  induction n as [|n IH]; cbn [bytesOf]; constructor;
    [apply land_255_range | exact IH].
Qed.

Lemma length_round (st : list Z) (kw : Z * Z) :
  length (round st kw) = length st.
Proof.
  unfold round.
  repeat (destruct st as [|? st]; try reflexivity).
Qed.

Lemma length_rounds (kws : list (Z * Z)) (st : list Z) :
  length (fold_left round kws st) = length st.
Proof.
  revert st; induction kws as [|kw kws IH]; intros st; cbn; [reflexivity|].
  now rewrite IH, length_round.
Qed.

Lemma length_compress (st block : list Z) :
  length (compress st block) = length st.
Proof.
  unfold compress.
  rewrite length_map, length_combine, length_rounds. apply Nat.min_id.
Qed.

Lemma length_blocks (fuel : nat) (ws st : list Z) :
  length (blocks fuel ws st) = length st.
Proof.
  revert ws st; induction fuel as [|f IH]; intros ws st; cbn; [reflexivity|].
  destruct ws; [reflexivity|]. now rewrite IH, length_compress.
Qed.

Lemma length_flat_bytesOf (l : list Z) :
  length (flat_map (bytesOf 4) l) = (4 * length l)%nat.
Proof.
  induction l as [|x l IH]; [reflexivity|].
  cbn [flat_map]. rewrite length_app, length_bytesOf, IH. cbn [length]. lia.
Qed.

Lemma length_digest (msg : list Z) : length (digest msg) = 32%nat.
Proof.
  unfold digest. now rewrite length_flat_bytesOf, length_blocks.
Qed.

Lemma digest_range (msg : list Z) :
  Forall (fun b => 0 <= b < 256) (digest msg).
Proof.
  unfold digest. apply Forall_flat_map, Forall_forall.
  intros x _. apply bytesOf_range.
Qed.

Lemma toBN_acc (buf : list Z) (acc : Z) :
  fold_left (fun a b => 256 * a + b) buf acc
  = acc * 256 ^ Z.of_nat (length buf) + Buffer.toBN buf.
Proof.
  unfold Buffer.toBN. revert acc.
  induction buf as [|b buf IH]; intros acc; cbn [fold_left length].
  - cbn. lia.
  - rewrite IH, (IH (256 * 0 + b)).
    rewrite Nat2Z.inj_succ, Z.pow_succ_r by lia. ring.
Qed.

Lemma toBN_range (buf : list Z) :
  Forall (fun b => 0 <= b < 256) buf ->
  0 <= Buffer.toBN buf < 256 ^ Z.of_nat (length buf).
Proof.
  induction 1 as [|b buf Hb _ IH].
  - cbn. lia.
  - unfold Buffer.toBN. cbn [fold_left length]. rewrite toBN_acc.
    rewrite Nat2Z.inj_succ, Z.pow_succ_r by lia.
    assert (0 < 256 ^ Z.of_nat (length buf)) by (apply Z.pow_pos_nonneg; lia).
    nia.
Qed.

(** The dictionary key of a metadata key fits in 256 bits. *)
Lemma sha256_key_range (k : jsstring) :
  0 <= Buffer.toBN (sha256 k) < 2 ^ Z.of_nat 256.
Proof.
  unfold sha256.
  pose proof (toBN_range _ (digest_range (Buffer.utf8ToBytes k))) as H.
  rewrite length_digest in H. exact H.
Qed.

End Sha256Facts.

(** ** The codec: [parseOnChainData] after [buildOnChainData] *)

Module CodecFacts.
Import Ton JettonMinter Codec Layout.
Import BitFacts BuilderFacts ReadFacts DictOrderFacts BuildFacts DictFacts.

Lemma toCell_beginParse (c : Cell) : toCell (beginParse c) = c.
Proof. now destruct c. Qed.

Lemma beginParse_toCell (s : Slice) : beginParse (toCell s) = s.
Proof. now destruct s. Qed.

(** *** Value cells *)

Lemma snakeCell_inv (k v : jsstring) (cell : Cell) :
  snakeCell k v = Ok cell ->
  Forall (fun b => 0 <= b < 256)
         (Buffer.from v (asEncoding (jettonOnChainMetadataSpec k))) /\
  cell = mkCell (bitsOfUint 8 SNAKE_PREFIX
                 ++ bufferLayout
                      (Buffer.from v
                         (asEncoding (jettonOnChainMetadataSpec k)))) [].
Proof.
  unfold snakeCell. cbn [bind].
  set (bytes := Buffer.from v (asEncoding (jettonOnChainMetadataSpec k))).
  intros H.
  apply bind_Ok_inv in H. destruct H as (b2 & H2 & H).
  apply bind_Ok_inv in H2. destruct H2 as (b1 & H1 & H2).
  unfold storeUint8, storeBuffer, onBits in H1, H2.
  apply bind_Ok_inv in H1. destruct H1 as (bs1 & H1 & E1).
  apply bind_Ok_inv in H2. destruct H2 as (bs2 & H2 & E2).
  injection E1 as <-. injection E2 as <-. cbn [bbits brefs beginCell] in *.
  unfold writeUint8 in H1. apply writeUint_inv in H1.
  destruct H1 as [_ H1]. apply writeBits_inv in H1. destruct H1 as [-> _].
  apply writeBuffer_inv in H2. destruct H2 as [Hbytes H2].
  apply writeBits_inv in H2. destruct H2 as [-> _].
  cbn in H. injection H as <-. auto.
Qed.

Lemma mod8_bufferLayout (buf : list Z) :
  (length (bufferLayout buf) mod 8 = 0)%nat.
Proof.
  rewrite length_bufferLayout, Nat.mul_comm. apply Nat.Div0.mod_mul.
Qed.

Lemma snakeExtractor_snakeCell (k v : jsstring) (cell : Cell) :
  snakeCell k v = Ok cell ->
  snakeExtractor (beginParse cell)
  = Ok (Buffer.from v (asEncoding (jettonOnChainMetadataSpec k))).
Proof.
  intros H. apply snakeCell_inv in H. destruct H as [Hbytes ->].
  unfold snakeExtractor. rewrite beginParse_toCell.
  unfold readUint, onSlice, beginParse. cbn [sbits srefs cellBits cellRefs].
  rewrite takeUint_bitsOfUint by (vm_compute; split; congruence).
  cbn [bind]. rewrite Z.eqb_refl. cbn [negb].
  unfold readRemainingBytes. cbn [sbits].
  rewrite mod8_bufferLayout. cbn [Nat.eqb]. f_equal.
  apply bytesOfBits_bufferLayout; [exact Hbytes|].
  rewrite length_bufferLayout. lia.
Qed.

(** *** The dictionary that is read back *)

Lemma storedBytes_spec (data : Metadata) :
  Forall okEntry data ->
  mapM (extractEntry snakeExtractor)
       (map (fun kv => (fst kv, beginParse (snd kv))) (flat_map itemsOf data))
  = Ok (storedBytes data).
Proof.
  induction 1 as [|[k v] data Hkv _ IH]; [reflexivity|].
  cbn [flat_map]. rewrite map_app, mapM_app, IH.
  unfold storedBytes. cbn [flat_map fst snd]. fold (storedBytes data).
  unfold okEntry in Hkv. unfold itemsOf. unfold entryItem in *.
  destruct (jettonOnChainMetadataSpec k) eqn:Hk; try discriminate;
    (destruct v as [v|]; [|reflexivity]);
    (destruct (snakeCell k v) as [cell|err] eqn:Hc; [|discriminate]);
    cbn [bind map mapM]; unfold extractEntry; cbn [fst snd];
    rewrite (snakeExtractor_snakeCell _ _ _ Hc), Hk; reflexivity.
Qed.

Lemma mapM_perm {A B} (g : A -> result B) (l l' : list A) :
  Permutation l l' ->
  forall r, mapM g l = Ok r ->
            exists r', mapM g l' = Ok r' /\ Permutation r r'.
Proof.
  induction 1 as [|x l l' _ IH|x y l|l l' l'' _ IH1 _ IH2]; intros r H.
  - exists r. split; [exact H | reflexivity].
  - cbn [mapM] in *. inv_bind H. inv_bind H. injection H as <-.
    destruct (IH _ Ha0) as (r' & -> & Hp). rewrite Ha. cbn [bind].
    eexists. split; [reflexivity | now constructor].
  - cbn [mapM] in *. inv_bind H. inv_bind H. inv_bind Ha0. inv_bind Ha0.
    injection Ha0 as <-. injection H as <-.
    rewrite Ha1, Ha, Ha2. cbn [bind].
    eexists. split; [reflexivity | constructor].
  - destruct (IH1 _ H) as (r' & H' & Hp).
    destruct (IH2 _ H') as (r'' & H'' & Hp').
    exists r''. split; [exact H'' | etransitivity; eassumption].
Qed.

Lemma mapM_extract_keys {T} (ex : Slice -> result T) (es : list (Z * Slice))
  (r : list (Z * T)) :
  mapM (extractEntry ex) es = Ok r -> map fst r = map fst es.
Proof.
  revert r; induction es as [|[k s] es IH]; intros r H.
  - cbn in H. now injection H as <-.
  - cbn [mapM] in H. inv_bind H. inv_bind H. injection H as <-.
    unfold extractEntry in Ha. inv_bind Ha. injection Ha as <-.
    cbn. f_equal. now apply IH.
Qed.

Lemma storedBytes_keys (data : Metadata) :
  Forall okEntry data ->
  map fst (storedBytes data) = map fst (flat_map itemsOf data).
Proof.
  intros H. pose proof (storedBytes_spec data H) as Hs.
  apply mapM_extract_keys in Hs. now rewrite Hs, map_map.
Qed.

(** What [parseOnChainData] does on the cells [buildOnChainData] makes: with
    a dictionary it reports the recognized keys found in it, without one it
    throws for the missing reference. *)
Lemma parseOnChainData_content (tagBits : bits) (d : option Cell) :
  tagBits = bitsOfUint 8 ONCHAIN_CONTENT_PREFIX ->
  parseOnChainData
    (mkCell (tagBits ++ [match d with Some _ => true | None => false end])
            (match d with Some dc => [dc] | None => [] end))
  = match d with
    | Some dc =>
        dict <- doParse snakeExtractor [] dc 256 ;;
        Ok (fold_left (collectEntry dict) JETTON_METADATA_KEYS [])
    | None => Err NoMoreRefs
    end.
Proof.
  intros ->. unfold parseOnChainData, readUint, onSlice, beginParse.
  cbn [cellBits cellRefs sbits srefs].
  rewrite takeUint_bitsOfUint by (vm_compute; split; congruence).
  cbn [bind]. rewrite Z.eqb_refl. cbn [negb].
  unfold readDict, readRef. cbn [sbits srefs].
  destruct d as [dc|]; cbn [bind].
  - unfold parseDict. rewrite toCell_beginParse.
    destruct (doParse snakeExtractor [] dc 256); reflexivity.
  - reflexivity.
Qed.

(** The cell [buildOnChainData] returns: the tag byte, the bit that tells
    whether there is a dictionary, and the dictionary. *)
Lemma buildOnChainData_inv (data : Metadata) (c : Cell) :
  buildOnChainData data = Ok c ->
  Forall okEntry data /\
  NoDup (map fst (flat_map itemsOf data)) /\
  exists d : option Cell,
    endDict (mkDictBuilder 256 (flat_map itemsOf data)) = Ok d /\
    c = mkCell (bitsOfUint 8 ONCHAIN_CONTENT_PREFIX
                ++ [match d with Some _ => true | None => false end])
               (match d with Some dc => [dc] | None => [] end).
Proof.
  unfold buildOnChainData. intros H.
  apply bind_Ok_inv in H. destruct H as (dict & Hd & H).
  apply bind_Ok_inv in H. destruct H as (d & He & H).
  apply forEach_storeEntry_inv in Hd; [|constructor].
  destruct Hd as (Hok & -> & Hnd). cbn [items keySize beginDict app] in *.
  split; [exact Hok|]. split; [exact Hnd|]. exists d. split; [exact He|].
  destruct d as [dc|]; cbn in H; now injection H as <-.
Qed.

(** *** Mappings with and without a defined value *)

Lemma itemsOf_defined (k v : jsstring) :
  okEntry (k, Some v) -> itemsOf (k, Some v) <> [].
Proof.
  unfold okEntry, itemsOf.
  destruct (entryItem (k, Some v)) as [[item|]|e] eqn:E; try discriminate.
  unfold entryItem in E.
  destruct (jettonOnChainMetadataSpec k); try discriminate;
    destruct (snakeCell k v); discriminate.
Qed.

Lemma items_nonempty_iff (data : Metadata) :
  Forall okEntry data ->
  (flat_map itemsOf data <> [] <-> exists k v, In (k, Some v) data).
Proof.
  intros Hok. split.
  - intros H. destruct (flat_map itemsOf data) as [|it its] eqn:E;
      [contradiction|].
    assert (Hin : In it (flat_map itemsOf data)) by (rewrite E; now left).
    apply in_flat_map in Hin. destruct Hin as ([k [v|]] & Hin & Hit).
    + eauto.
    + exfalso. unfold itemsOf, entryItem in Hit.
      destruct (jettonOnChainMetadataSpec k); exact Hit.
  - intros (k & v & Hin) E.
    rewrite Forall_forall in Hok.
    apply (itemsOf_defined k v (Hok _ Hin)).
    destruct (itemsOf (k, Some v)) as [|it its] eqn:Eit; [reflexivity|].
    assert (Hit : In it (flat_map itemsOf data)).
    { apply in_flat_map. exists (k, Some v). split; [exact Hin|].
      rewrite Eit. now left. }
    rewrite E in Hit. contradiction.
Qed.

(** After [buildOnChainData] of a mapping with a defined value,
    [parseOnChainData] succeeds and has read a dictionary with the entries
    that were stored. *)
Lemma parseOnChainData_buildOnChainData (data : Metadata) (c : Cell) :
  (exists k v, In (k, Some v) data) ->
  buildOnChainData data = Ok c ->
  exists dict,
    parseOnChainData c
    = Ok (fold_left (collectEntry dict) JETTON_METADATA_KEYS []) /\
    NoDup (map fst dict) /\
    Permutation (storedBytes data) dict.
Proof.
  intros Hsome H. apply buildOnChainData_inv in H.
  destruct H as (Hok & Hnd & d & Hd & ->).
  rewrite parseOnChainData_content by reflexivity.
  pose proof (storedBytes_spec data Hok) as Hs.
  pose proof (storedBytes_keys data Hok) as Hk.
  apply (items_nonempty_iff data Hok) in Hsome.
  unfold endDict in Hd. cbn [items keySize] in Hd.
  destruct (flat_map itemsOf data) as [|it its] eqn:Eits; [contradiction|].
  rewrite <- Eits in *. clear Eits it its Hsome.
  apply bind_Ok_inv in Hd. destruct Hd as (dc & Hser & Hd).
  injection Hd as <-.
  change 256 with (Z.of_nat 256) in Hser.
  apply doParse_serializeDict in Hser; [|lia| |exact Hnd].
  - destruct Hser as (es & Hes & Hperm).
    apply Permutation_sym in Hperm.
    destruct (mapM_perm _ _ _ Hperm _ Hs) as (dict & Hdict & Hp).
    exists dict. change 256 with (Z.of_nat 256).
    rewrite (doParse_extractor _ _ _ _ _ Hes), Hdict. cbn [bind].
    repeat split; [|exact Hp].
    eapply Permutation_NoDup; [apply Permutation_map, Hp|].
    now rewrite Hk.
  - apply Forall_forall. intros [key cell] Hin.
    apply in_flat_map in Hin. destruct Hin as ([k v] & _ & Hin).
    unfold itemsOf, entryItem in Hin.
    destruct (jettonOnChainMetadataSpec k); try contradiction;
      (destruct v as [v|]; [|contradiction]);
      (destruct (snakeCell k v); [|contradiction]);
      cbn in Hin; destruct Hin as [[= <- <-]|[]];
      apply Sha256Facts.sha256_key_range.
Qed.

(** The encoding of a mapping without a defined value has no dictionary,
    and [parseOnChainData] throws on it for the missing reference. *)
Lemma parseOnChainData_no_values (data : Metadata) (c : Cell) :
  (forall k v, ~ In (k, Some v) data) ->
  buildOnChainData data = Ok c ->
  parseOnChainData c = Err NoMoreRefs.
Proof.
  intros Hnone H. apply buildOnChainData_inv in H.
  destruct H as (Hok & _ & d & Hd & ->).
  rewrite parseOnChainData_content by reflexivity.
  unfold endDict in Hd. cbn [items keySize] in Hd.
  destruct (flat_map itemsOf data) as [|it its] eqn:Eits.
  - now injection Hd as <-.
  - exfalso. assert (Hne : flat_map itemsOf data <> [])
      by (rewrite Eits; discriminate).
    apply (items_nonempty_iff data Hok) in Hne.
    destruct Hne as (k & v & Hin). exact (Hnone k v Hin).
Qed.

(** *** Lookups in the result *)

Lemma resGet_app (k k' : jsstring) (v : jsstring)
  (res : list (jsstring * jsstring)) :
  resGet k (res ++ [(k', v)])
  = match resGet k res with
    | Some x => Some x
    | None => if jsstring_eqb k k' then Some v else None
    end.
Proof.
  induction res as [|[k0 v0] res IH]; cbn [app resGet]; [reflexivity|].
  destruct (jsstring_eqb k k0); [reflexivity | exact IH].
Qed.

Lemma collectEntry_resGet (dict : list (Z * list Z)) (k k' : jsstring)
  (res : list (jsstring * jsstring)) :
  resGet k (collectEntry dict res k')
  = match resGet k res with
    | Some x => Some x
    | None => if jsstring_eqb k k' then decodedValue dict k' else None
    end.
Proof.
  unfold collectEntry, decodedValue.
  destruct (mapGet (toKey (sha256 k')) dict) as [buf|]; cbn [option_map].
  - destruct (Buffer.toString buf (encodingOf k')) as [|c s].
    + destruct (resGet k res), (jsstring_eqb k k'); reflexivity.
    + apply resGet_app.
  - destruct (resGet k res), (jsstring_eqb k k'); reflexivity.
Qed.

Lemma fold_collectEntry_resGet (dict : list (Z * list Z)) (k : jsstring)
  (keys : list jsstring) (res : list (jsstring * jsstring)) :
  resGet k (fold_left (collectEntry dict) keys res)
  = match resGet k res with
    | Some x => Some x
    | None =>
        if existsb (jsstring_eqb k) keys then decodedValue dict k else None
    end.
Proof.
  revert res; induction keys as [|k' keys IH]; intros res;
    cbn [fold_left existsb].
  - now destruct (resGet k res).
  - rewrite IH, collectEntry_resGet.
    destruct (resGet k res); [reflexivity|].
    destruct (jsstring_eqb k k') eqn:E; cbn [orb]; [|reflexivity].
    apply jsstring_eqb_eq in E. subst k'.
    destruct (decodedValue dict k); [reflexivity|].
    now destruct (existsb (jsstring_eqb k) keys).
Qed.

(** The result of [parseOnChainData] on a dictionary: a recognized key has
    its decoded value, any other key has none. *)
Lemma parsed_resGet (dict : list (Z * list Z)) (k : jsstring) :
  resGet k (fold_left (collectEntry dict) JETTON_METADATA_KEYS [])
  = if existsb (jsstring_eqb k) JETTON_METADATA_KEYS
    then decodedValue dict k else None.
Proof. now rewrite fold_collectEntry_resGet. Qed.

Lemma decodedValue_ext (dict dict' : list (Z * list Z)) (k : jsstring) :
  mapGet (toKey (sha256 k)) dict = mapGet (toKey (sha256 k)) dict' ->
  decodedValue dict k = decodedValue dict' k.
Proof. unfold decodedValue. now intros ->. Qed.

(** *** The digests of the keys that can be stored are distinct *)

Lemma NoDup_map_inj {A B} (f : A -> B) (l : list A) (x y : A) :
  NoDup (map f l) -> In x l -> In y l -> f x = f y -> x = y.
Proof.
  induction l as [|a l IH]; cbn; intros Hnd Hx Hy Heq; [contradiction|].
  inversion Hnd as [|? ? Ha Hnd']; subst.
  destruct Hx as [->|Hx], Hy as [->|Hy]; auto.
  - exfalso. apply Ha. rewrite Heq. now apply in_map.
  - exfalso. apply Ha. rewrite <- Heq. now apply in_map.
Qed.

Lemma distinctb_NoDup (l : list Z) : distinctb l = true -> NoDup l.
Proof.
  induction l as [|x l IH]; cbn [distinctb]; intros H; [constructor|].
  apply andb_prop in H. destruct H as [Hx Hl]. constructor; [|now apply IH].
  intros Hin. apply negb_true_iff in Hx.
  assert (existsb (Z.eqb x) l = true); [|congruence].
  apply existsb_exists. exists x. split; [exact Hin | apply Z.eqb_refl].
Qed.

Lemma passing_digests_distinct :
  NoDup (map (fun k => toKey (sha256 k)) PASSING_KEYS).
Proof. apply distinctb_NoDup. vm_compute. reflexivity. Qed.

Lemma sha256_injective (k k' : jsstring) :
  In k PASSING_KEYS -> In k' PASSING_KEYS ->
  toKey (sha256 k) = toKey (sha256 k') -> k = k'.
Proof.
  intros Hk Hk'.
  apply (NoDup_map_inj (fun k => toKey (sha256 k)) PASSING_KEYS);
    auto using passing_digests_distinct.
Qed.

Lemma okEntry_passing (kv : jsstring * option jsstring) :
  okEntry kv -> In (fst kv) PASSING_KEYS.
Proof.
  destruct kv as [k v]. unfold okEntry, entryItem. cbn [fst].
  destruct (jettonOnChainMetadataSpec k) eqn:E; try discriminate; intros _;
    unfold PASSING_KEYS; apply in_or_app;
    destruct (in_dec (list_eq_dec Z.eq_dec) k JETTON_METADATA_KEYS) as [|H1];
    auto;
    destruct (in_dec (list_eq_dec Z.eq_dec) k OBJECT_PROTOTYPE_KEYS) as [|H2];
    auto;
    exfalso; assert (jettonOnChainMetadataSpec k = Undefined)
      by (now apply spec_Undefined_iff); congruence.
Qed.

Lemma recognized_passing (k : jsstring) :
  In k JETTON_METADATA_KEYS -> In k PASSING_KEYS.
Proof. intros H. apply in_or_app. now left. Qed.

(** *** The stored dictionary, looked up by metadata key *)

Lemma storedBytes_In (data : Metadata) (k v : jsstring) :
  In (k, Some v) data ->
  In (toKey (sha256 k),
      Buffer.from v (asEncoding (jettonOnChainMetadataSpec k)))
     (storedBytes data).
Proof.
  intros Hin. unfold storedBytes. apply in_flat_map.
  exists (k, Some v). split; [exact Hin | now left].
Qed.

Lemma storedBytes_In_inv (data : Metadata) (key : Z) (bytes : list Z) :
  In (key, bytes) (storedBytes data) ->
  exists k v, In (k, Some v) data /\ key = toKey (sha256 k).
Proof.
  unfold storedBytes. intros Hin. apply in_flat_map in Hin.
  destruct Hin as ([k [v|]] & Hin & H); cbn [fst snd] in H; [|contradiction].
  destruct H as [[= <- <-]|[]]. eauto.
Qed.

Lemma metaGet_Some (data : Metadata) (k v : jsstring) :
  metaGet k data = Some v -> In (k, Some v) data.
Proof.
  induction data as [|[k' v'] data IH]; cbn; [discriminate|].
  destruct (jsstring_eqb k k') eqn:E.
  - apply jsstring_eqb_eq in E. subst k'. intros ->. now left.
  - intros H. right. now apply IH.
Qed.

Lemma metaGet_None (data : Metadata) (k v : jsstring) :
  NoDup (map fst data) -> metaGet k data = None -> ~ In (k, Some v) data.
Proof.
  induction data as [|[k' v'] data IH]; cbn; intros Hnd H Hin; [exact Hin|].
  inversion Hnd as [|? ? Hk' Hnd']; subst.
  destruct (jsstring_eqb k k') eqn:E.
  - apply jsstring_eqb_eq in E. subst k' v'.
    destruct Hin as [[=]|Hin]. apply Hk'.
    apply in_map_iff. now exists (k, Some v).
  - destruct Hin as [[= -> _]|Hin].
    + now rewrite jsstring_eqb_refl in E.
    + now apply (IH Hnd' H).
Qed.

Lemma metaGet_not_key (data : Metadata) (k : jsstring) :
  ~ In k (map fst data) -> metaGet k data = None.
Proof.
  induction data as [|[k' v'] data IH]; cbn; intros H; [reflexivity|].
  destruct (jsstring_eqb k k') eqn:E.
  - apply jsstring_eqb_eq in E. subst k'. tauto.
  - apply IH. tauto.
Qed.

(** The dictionary read back from the cell of [data], looked up at the
    digest of a recognized key, holds the bytes of the value [data] gives
    that key. *)
Lemma dict_lookup (data : Metadata) (dict : list (Z * list Z))
  (k : jsstring) :
  NoDup (map fst data) ->
  Forall okEntry data ->
  NoDup (map fst dict) ->
  Permutation (storedBytes data) dict ->
  In k JETTON_METADATA_KEYS ->
  mapGet (toKey (sha256 k)) dict
  = option_map (fun v => Buffer.from v (Some (encodingOf k)))
               (metaGet k data).
Proof.
  intros Hnd Hok Hndd Hp Hk.
  destruct (metaGet k data) as [v|] eqn:Hm; cbn [option_map].
  - apply mapGet_In; [exact Hndd|].
    eapply Permutation_in; [exact Hp|].
    apply metaGet_Some, storedBytes_In in Hm.
    now rewrite (spec_own k Hk) in Hm.
  - apply mapGet_None. intros Hin. apply in_map_iff in Hin.
    destruct Hin as ([key bytes] & Hkey & Hin). cbn in Hkey. subst key.
    apply Permutation_sym in Hp.
    apply (Permutation_in _ Hp), storedBytes_In_inv in Hin.
    destruct Hin as (k' & v & Hin & Heq).
    assert (k = k').
    { apply sha256_injective; [now apply recognized_passing| |exact Heq].
      rewrite Forall_forall in Hok. apply (okEntry_passing _ (Hok _ Hin)). }
    subst k'. now apply (metaGet_None data k v Hnd Hm).
Qed.

(** *** The round trip *)

Lemma roundTrips_keys (data : Metadata) (k : jsstring) :
  roundTrips data -> In k (map fst data) -> In k JETTON_METADATA_KEYS.
Proof.
  intros [_ H] Hin. apply in_map_iff in Hin. destruct Hin as (kv & <- & Hin).
  rewrite Forall_forall in H. now apply H.
Qed.

(** C1, amended. For every metadata mapping with distinct recognized keys
    whose defined values are non-empty and representable in the encoding
    mode of their key, in which at least one value is defined, and which
    [buildOnChainData] encodes (every value fits in its cell),
    [parseOnChainData] of the encoding returns a mapping that agrees with
    the input at every key. *)
Theorem parseOnChainData_buildOnChainData_roundtrip :
  forall (data : Metadata) (content : Cell),
    roundTrips data ->
    (exists k v, In (k, Some v) data) ->
    buildOnChainData data = Ok content ->
    exists res,
      parseOnChainData content = Ok res /\
      forall k, resGet k res = metaGet k data.
Proof.
  intros data content Hrt Hsome Hb.
  destruct (buildOnChainData_inv data content Hb) as (Hok & _).
  destruct (parseOnChainData_buildOnChainData data content Hsome Hb)
    as (dict & Hp & Hnd & Hperm).
  exists (fold_left (collectEntry dict) JETTON_METADATA_KEYS []).
  split; [exact Hp|]. intros k. rewrite parsed_resGet.
  destruct (existsb (jsstring_eqb k) JETTON_METADATA_KEYS) eqn:Ek.
  - apply existsb_jsstring_eqb in Ek. unfold decodedValue.
    rewrite (dict_lookup data dict k (proj1 Hrt) Hok Hnd Hperm Ek).
    destruct (metaGet k data) as [v|] eqn:Hm; cbn [option_map];
      [|reflexivity].
    apply metaGet_Some in Hm. destruct Hrt as [_ Hrt].
    rewrite Forall_forall in Hrt. destruct (Hrt _ Hm) as [_ [Hne Hrep]].
    cbn [fst snd] in *. unfold representable in Hrep. rewrite Hrep.
    destruct v; [contradiction | reflexivity].
  - symmetry. apply metaGet_not_key. intros Hin.
    apply (roundTrips_keys data k Hrt), existsb_jsstring_eqb in Hin.
    congruence.
Qed.

Lemma roundTrips_testMetadata : roundTrips Examples.testMetadata.
Proof.
  split.
  - unfold Examples.testMetadata. cbn [map fst]. constructor.
    + intros [H|[]]. vm_compute in H. discriminate H.
    + constructor; [intros [] | constructor].
  - unfold Examples.testMetadata. constructor; [|constructor; [|constructor]];
      cbn [fst snd]; (split; [|split]).
    + left. reflexivity.
    + discriminate.
    + vm_compute. reflexivity.
    + right. right. right. left. reflexivity.
    + discriminate.
    + vm_compute. reflexivity.
Qed.

Lemma parseOnChainData_buildOnChainData_roundtrip_witness :
  exists res,
    parseOnChainData Examples.testContent = Ok res /\
    forall k, resGet k res = metaGet k Examples.testMetadata.
Proof.
  apply (parseOnChainData_buildOnChainData_roundtrip Examples.testMetadata).
  - exact roundTrips_testMetadata.
  - exists (js "name"), (js "Test"). left. reflexivity.
  - vm_compute. reflexivity.
Defined.

(** C1 as stated fails: a name that is the empty string is encoded, and
    decoding the encoding returns a mapping without the name. *)
Lemma roundtrip_loses_empty_string :
  buildOnChainData [(js "name", Some [])] = Ok Examples.emptyNameContent /\
  parseOnChainData Examples.emptyNameContent = Ok [] /\
  metaGet (js "name") [(js "name", Some [])] = Some [] /\
  resGet (js "name") [] = None.
Proof. repeat split; vm_compute; reflexivity. Qed.

(** Nor does the empty mapping come back: its encoding has no dictionary,
    and [parseOnChainData] throws on it for the missing reference. *)
Lemma roundtrip_fails_on_empty_mapping :
  roundTrips [] /\
  buildOnChainData [] = Ok Examples.noValueContent /\
  parseOnChainData Examples.noValueContent = Err NoMoreRefs.
Proof.
  split; [split; constructor|]. split; vm_compute; reflexivity.
Qed.

(** An image value with a character above U+007F comes back changed: the
    'ascii' mode keeps the low byte on writing and seven bits on reading. *)
Lemma roundtrip_changes_non_ascii_image :
  buildOnChainData [(js "image", Some [0xE9])]
  = Ok Examples.nonAsciiImageContent /\
  parseOnChainData Examples.nonAsciiImageContent
  = Ok [(js "image", [0x69])].
Proof. split; vm_compute; reflexivity. Qed.

(** *** Values that are undefined, absent or empty *)

Lemma parseOnChainData_dict (c : Cell) (s1 s2 : Slice)
  (dict : list (Z * list Z)) :
  readUint 8 (beginParse c) = Ok (ONCHAIN_CONTENT_PREFIX, s1) ->
  readDict 256 snakeExtractor s1 = Ok (dict, s2) ->
  parseOnChainData c
  = Ok (fold_left (collectEntry dict) JETTON_METADATA_KEYS []).
Proof.
  intros H1 H2. unfold parseOnChainData. rewrite H1. cbn [bind].
  rewrite Z.eqb_refl. cbn [negb]. now rewrite H2.
Qed.

Lemma from_empty (e : option Buffer.Encoding) : Buffer.from [] e = [].
Proof. now destruct e as [[]|]. Qed.

Lemma toString_empty (e : Buffer.Encoding) : Buffer.toString [] e = [].
Proof. now destruct e. Qed.

(** C9. When the dictionary entry of a key decodes to the empty string,
    [parseOnChainData] leaves the key out of its result; in particular, if
    a recognized key maps to the empty string in a metadata mapping, then
    decoding the encoding of that mapping yields a result without the
    key. *)
Theorem empty_string_omitted :
  (forall (c : Cell) (s1 s2 : Slice) (dict : list (Z * list Z))
          (k : jsstring) (buf : list Z),
      readUint 8 (beginParse c) = Ok (ONCHAIN_CONTENT_PREFIX, s1) ->
      readDict 256 snakeExtractor s1 = Ok (dict, s2) ->
      mapGet (toKey (sha256 k)) dict = Some buf ->
      Buffer.toString buf (encodingOf k) = [] ->
      exists res, parseOnChainData c = Ok res /\ resGet k res = None) /\
  (forall (data : Metadata) (k : jsstring) (content : Cell),
      In k JETTON_METADATA_KEYS ->
      In (k, Some []) data ->
      buildOnChainData data = Ok content ->
      exists res, parseOnChainData content = Ok res /\ resGet k res = None).
Proof.
  split.
  - intros c s1 s2 dict k buf H1 H2 Hg He.
    eexists. split; [now apply (parseOnChainData_dict c s1 s2 dict)|].
    rewrite parsed_resGet. unfold decodedValue. rewrite Hg, He.
    now destruct (existsb _ _).
  - intros data k content Hk Hin Hb.
    destruct (parseOnChainData_buildOnChainData data content
                (ex_intro _ k (ex_intro _ [] Hin)) Hb)
      as (dict & Hp & Hnd & Hperm).
    eexists. split; [exact Hp|].
    rewrite parsed_resGet. unfold decodedValue.
    apply storedBytes_In in Hin. rewrite from_empty in Hin.
    apply (Permutation_in _ Hperm), (mapGet_In _ _ _ Hnd) in Hin.
    rewrite Hin, toString_empty. now destruct (existsb _ _).
Qed.

Lemma empty_string_omitted_witness :
  exists res,
    parseOnChainData Examples.emptySymbolContent = Ok res /\
    resGet (js "symbol") res = None.
Proof.
  apply (proj2 empty_string_omitted Examples.emptySymbolMetadata
           (js "symbol") Examples.emptySymbolContent).
  - right. right. right. left. reflexivity.
  - right. left. reflexivity.
  - vm_compute. reflexivity.
Defined.

(** C8, amended. An entry of a recognized key whose value is [undefined] is
    skipped: [buildOnChainData] returns on the mapping what it returns on
    the mapping without that entry (a cell if the other entries encode, and
    their error if they do not).  [parseOnChainData], on a cell whose
    dictionary it reads, raises no error for a key without a dictionary
    entry and leaves it out of its result; so decoding the encoding of a
    mapping in which some value is defined leaves out every key that is
    absent or undefined in the mapping. *)
Theorem undefined_and_absent_skipped :
  (forall (before after : Metadata) (k : jsstring),
      In k JETTON_METADATA_KEYS ->
      buildOnChainData (before ++ (k, None) :: after)
      = buildOnChainData (before ++ after)) /\
  (forall (c : Cell) (s1 s2 : Slice) (dict : list (Z * list Z))
          (k : jsstring),
      readUint 8 (beginParse c) = Ok (ONCHAIN_CONTENT_PREFIX, s1) ->
      readDict 256 snakeExtractor s1 = Ok (dict, s2) ->
      mapGet (toKey (sha256 k)) dict = None ->
      exists res, parseOnChainData c = Ok res /\ resGet k res = None) /\
  (forall (data : Metadata) (k : jsstring) (content : Cell),
      NoDup (map fst data) ->
      metaGet k data = None ->
      (exists k' v', In (k', Some v') data) ->
      buildOnChainData data = Ok content ->
      exists res, parseOnChainData content = Ok res /\ resGet k res = None).
Proof.
  split; [|split].
  - intros before after k Hk. now apply buildOnChainData_skip_undefined.
  - intros c s1 s2 dict k H1 H2 Hg.
    eexists. split; [now apply (parseOnChainData_dict c s1 s2 dict)|].
    rewrite parsed_resGet. unfold decodedValue. rewrite Hg.
    now destruct (existsb _ _).
  - intros data k content Hnd Hm Hsome Hb.
    destruct (buildOnChainData_inv data content Hb) as (Hok & _).
    destruct (parseOnChainData_buildOnChainData data content Hsome Hb)
      as (dict & Hp & Hndd & Hperm).
    eexists. split; [exact Hp|].
    rewrite parsed_resGet.
    destruct (existsb (jsstring_eqb k) JETTON_METADATA_KEYS) eqn:Ek;
      [|reflexivity].
    apply existsb_jsstring_eqb in Ek. unfold decodedValue.
    rewrite (dict_lookup data dict k Hnd Hok Hndd Hperm Ek), Hm.
    reflexivity.
Qed.

Lemma undefined_and_absent_skipped_witness :
  exists res,
    parseOnChainData Examples.testContent = Ok res /\
    resGet (js "image") res = None.
Proof.
  apply (proj2 (proj2 undefined_and_absent_skipped)
           Examples.testMetadata (js "image") Examples.testContent).
  - constructor; [intros [H|[]]; vm_compute in H; discriminate H|].
    constructor; [intros []|constructor].
  - vm_compute. reflexivity.
  - exists (js "name"), (js "Test"). left. reflexivity.
  - vm_compute. reflexivity.
Defined.

(** C8 as stated fails on both sides.  The value of [name] is undefined,
    yet [buildOnChainData] does not succeed on the mapping, because another
    entry does not fit.  And the encoding of a mapping whose only value is
    undefined has no dictionary: [parseOnChainData] throws on it for the
    missing reference instead of returning a result without the key. *)
Lemma undefined_entry_counterexamples :
  In (js "name") JETTON_METADATA_KEYS /\
  buildOnChainData
    [(js "name", None); (js "description", Some Examples.longName)]
  = Err BitStringOverflow /\
  buildOnChainData [(js "name", None)] = Ok Examples.noValueContent /\
  parseOnChainData Examples.noValueContent = Err NoMoreRefs.
Proof.
  split; [left; reflexivity|]. repeat split; vm_compute; reflexivity.
Qed.

(** *** Tag errors *)

Lemma takeBits_ok (n : nat) (bs : bits) :
  (n <= length bs)%nat -> takeBits n bs = Ok (firstn n bs, skipn n bs).
Proof.
  revert bs; induction n as [|n IH]; intros bs H; [reflexivity|].
  destruct bs as [|b bs]; [cbn in H; lia|].
  cbn [takeBits takeBit bind firstn skipn]. rewrite IH by (cbn in H; lia).
  reflexivity.
Qed.












End CodecFacts.

(** ** The encoding modes of the [buffer] package *)

Module EncodingFacts.
Import Buffer Codec Utf8.
Import BuildFacts.

Lemma In_zrangeFrom (n : nat) :
  forall lo c : Z, lo <= c < lo + Z.of_nat n -> In c (zrangeFrom lo n).
Proof.
  induction n as [|n IH]; intros lo c H; [lia|].
  cbn [zrangeFrom]. destruct (Z.eq_dec lo c) as [->|Hne]; [now left|].
  right. apply IH. lia.
Qed.

Lemma forallb_zrange (f : Z -> bool) (lo n c : Z) :
  forallb f (zrange lo n) = true -> lo <= c < lo + n -> f c = true.
Proof.
  intros H Hc. rewrite forallb_forall in H. apply H.
  apply In_zrangeFrom. lia.
Qed.

Ltac bools :=
  repeat match goal with
         | H : _ && _ = true |- _ => apply andb_prop in H; destruct H
         | H : negb _ = true |- _ => apply negb_true_iff in H
         end.

Ltac rewrite_bools :=
  repeat match goal with
         | E : ?b = true |- context [?b] => rewrite E; cbv iota
         | E : ?b = false |- context [?b] => rewrite E; cbv iota
         end.

(** Unfold [utf8Slice] by one byte, keeping the calls on the tail. *)
Ltac utf8Slice_step :=
  match goal with
  | |- context [utf8Slice (_ :: ?t)] =>
      let t1 := fresh "t" in
      let Et := fresh "Et" in
      remember t as t1 eqn:Et; cbn [utf8Slice]; rewrite_bools;
      subst t1; cbv iota; rewrite_bools
  end.

Lemma lor_disjoint_add (a b n : Z) :
  0 <= n -> 0 <= b < 2 ^ n -> a mod 2 ^ n = 0 -> Z.lor a b = a + b.
Proof.
  intros Hn Hb Ha.
  assert (Hland : Z.land a b = 0).
  { apply Z.bits_inj'. intros i Hi. rewrite Z.land_spec, Z.bits_0.
    destruct (Z.ltb_spec i n) as [Hlt|Hge].
    - rewrite <- (Z.mod_pow2_bits_low a n i) by lia. rewrite Ha, Z.bits_0.
      reflexivity.
    - destruct (Z.eq_dec b 0) as [->|Hb0];
        [now rewrite Z.bits_0, andb_false_r|].
      rewrite (Z.bits_above_log2 b i), andb_false_r; [reflexivity|lia|].
      apply Z.log2_lt_pow2; [lia|].
      apply Z.lt_le_trans with (2 ^ n); [lia|].
      apply Z.pow_le_mono_r; lia. }
  rewrite <- (Z.lxor_lor _ _ Hland). symmetry. now apply Z.add_nocarry_lxor.
Qed.

(** *** One encoded code point is decoded to its code units *)

Lemma decodesTo_spec (bytes rest : list Z) (units : jsstring) :
  decodesTo bytes units = true ->
  utf8Slice (bytes ++ rest) = units ++ utf8Slice rest.
Proof.
  destruct bytes as [|b1 [|b2 [|b3 [|b4 [|b5 bytes]]]]]; try discriminate;
    cbn [decodesTo]; intros H; bools;
    match goal with
    | E : jsstring_eqb _ _ = true |- _ => apply jsstring_eqb_eq in E
    end; subst units; cbn [app]; utf8Slice_step; reflexivity.
Qed.

Lemma bmp_encoded (c : Z) :
  0 <= c < 0x10000 -> isSurrogate c = false ->
  forallb isByte (encodeCodePoint c) = true /\
  decodesTo (encodeCodePoint c) [c] = true.
Proof.
  intros Hc Hs.
  assert (H : bmpCheck c = true).
  { apply (forallb_zrange bmpCheck 0 65536 c); [|exact Hc].
    vm_compute. reflexivity. }
  unfold bmpCheck in H. rewrite Hs in H. cbn [orb] in H. now apply andb_prop in H.
Qed.

Lemma leadByte (h : Z) :
  0 <= h < 8 ->
  Z.lor h 0xF0 = 0xF0 + h /\ (0xEF <? Z.lor h 0xF0) = true /\
  Z.land (Z.lor h 0xF0) 0xF = h.
Proof.
  intros Hh.
  assert (H : leadByteCheck h = true).
  { apply (forallb_zrange leadByteCheck 0 8 h); [|exact Hh].
    vm_compute. reflexivity. }
  unfold leadByteCheck in H. bools. repeat split; [now apply Z.eqb_eq | assumption | now apply Z.eqb_eq].
Qed.

Lemma continuationByte (q : Z) :
  0 <= q < 64 ->
  Z.lor q 0x80 = 0x80 + q /\ isContinuation (Z.lor q 0x80) = true /\
  Z.land (Z.lor q 0x80) 0x3F = q.
Proof.
  intros Hq.
  assert (H : continuationCheck q = true).
  { apply (forallb_zrange continuationCheck 0 64 q); [|exact Hq].
    vm_compute. reflexivity. }
  unfold continuationCheck in H. bools. repeat split; [now apply Z.eqb_eq | assumption | now apply Z.eqb_eq].
Qed.

Lemma surrogateUnits (x : Z) :
  0 <= x < 1024 ->
  Z.lor x 0xD800 = 0xD800 + x /\ Z.lor 0xDC00 x = 0xDC00 + x.
Proof.
  intros Hx.
  assert (H : surrogateCheck x = true).
  { apply (forallb_zrange surrogateCheck 0 1024 x); [|exact Hx].
    vm_compute. reflexivity. }
  unfold surrogateCheck in H. bools. split; now apply Z.eqb_eq.
Qed.

Lemma land_low (a : Z) (n : Z) (m : Z) :
  0 <= n -> m = Z.ones n -> Z.land a m = a mod 2 ^ n.
Proof. intros Hn ->. now apply Z.land_ones. Qed.

(** The four bytes of a code point above the basic plane. *)
Lemma encodeCodePoint_four (cp : Z) :
  0x10000 <= cp < 0x110000 ->
  encodeCodePoint cp
  = [Z.lor (cp / 2 ^ 18) 0xF0; Z.lor ((cp / 2 ^ 12) mod 2 ^ 6) 0x80;
     Z.lor ((cp / 2 ^ 6) mod 2 ^ 6) 0x80; Z.lor (cp mod 2 ^ 6) 0x80].
Proof.
  intros H. unfold encodeCodePoint.
  destruct (Z.ltb_spec cp 0x80); [lia|].
  destruct (Z.ltb_spec cp 0x800); [lia|].
  destruct (Z.ltb_spec cp 0x10000); [lia|].
  rewrite !Z.shiftr_div_pow2 by lia.
  rewrite !(land_low _ 6 0x3F) by (reflexivity || lia).
  reflexivity.
Qed.

Lemma fourBytes_decode (cp : Z) (rest : list Z) :
  0x10000 <= cp < 0x110000 ->
  forallb isByte (encodeCodePoint cp) = true /\
  utf8Slice (encodeCodePoint cp ++ rest) = pushCodePoint cp ++ utf8Slice rest.
Proof.
  intros H. rewrite (encodeCodePoint_four cp H).
  set (h := cp / 2 ^ 18). set (q2 := (cp / 2 ^ 12) mod 2 ^ 6).
  set (q3 := (cp / 2 ^ 6) mod 2 ^ 6). set (q4 := cp mod 2 ^ 6).
  assert (Hh : 0 <= h < 8) by (subst h; Z.div_mod_to_equations; lia).
  assert (H2 : 0 <= q2 < 64) by (subst q2; Z.div_mod_to_equations; lia).
  assert (H3 : 0 <= q3 < 64) by (subst q3; Z.div_mod_to_equations; lia).
  assert (H4 : 0 <= q4 < 64) by (subst q4; Z.div_mod_to_equations; lia).
  assert (Hcp : cp = h * 2 ^ 18 + q2 * 2 ^ 12 + q3 * 2 ^ 6 + q4).
  { subst h q2 q3 q4. Z.div_mod_to_equations. lia. }
  destruct (leadByte h Hh) as (E1 & L1 & D1).
  destruct (continuationByte q2 H2) as (E2 & C2 & D2).
  destruct (continuationByte q3 H3) as (E3 & C3 & D3).
  destruct (continuationByte q4 H4) as (E4 & C4 & D4).
  split.
  - cbn [forallb]. rewrite E1, E2, E3, E4. unfold isByte.
    repeat (apply andb_true_intro; split); try reflexivity;
      try (apply Z.leb_le; lia); apply Z.ltb_lt; lia.
  - cbn [app]. utf8Slice_step. rewrite D1, D2, D3, D4. cbn [andb].
    rewrite !Z.shiftl_mul_pow2 by lia.
    rewrite (lor_disjoint_add (h * 2 ^ 18) (q2 * 2 ^ 12) 18)
      by (try apply Z.mod_mul; lia).
    rewrite (lor_disjoint_add (h * 2 ^ 18 + q2 * 2 ^ 12) (q3 * 2 ^ 6) 12)
      by (try (Z.div_mod_to_equations; lia); lia).
    rewrite (lor_disjoint_add _ q4 6)
      by (try (Z.div_mod_to_equations; lia); lia).
    rewrite <- Hcp.
    destruct (Z.ltb_spec 0xFFFF cp); [|lia].
    destruct (Z.ltb_spec cp 0x110000); [|lia].
    reflexivity.
Qed.

Lemma isLead_range (c : Z) : isLead c = true <-> 0xD800 <= c < 0xDC00.
Proof. unfold isLead. rewrite andb_true_iff, Z.leb_le, Z.ltb_lt. lia. Qed.

Lemma isTrail_range (c : Z) : isTrail c = true <-> 0xDC00 <= c < 0xE000.
Proof. unfold isTrail. rewrite andb_true_iff, Z.leb_le, Z.ltb_lt. lia. Qed.

Lemma isSurrogate_range (c : Z) : isSurrogate c = true <-> 0xD800 <= c < 0xE000.
Proof. unfold isSurrogate. rewrite andb_true_iff, !Z.ltb_lt. lia. Qed.

Lemma pairCodePoint_eq (l t : Z) :
  isLead l = true -> isTrail t = true ->
  pairCodePoint l t = (l - 0xD800) * 2 ^ 10 + (t - 0xDC00) + 0x10000.
Proof.
  intros Hl Ht. apply isLead_range in Hl. apply isTrail_range in Ht.
  unfold pairCodePoint. rewrite Z.shiftl_mul_pow2 by lia.
  rewrite (lor_disjoint_add _ _ 10) by (try apply Z.mod_mul; lia).
  reflexivity.
Qed.

Lemma pushCodePoint_pair (l t : Z) :
  isLead l = true -> isTrail t = true ->
  pushCodePoint (pairCodePoint l t) = [l; t].
Proof.
  intros Hl Ht. rewrite (pairCodePoint_eq l t Hl Ht).
  apply isLead_range in Hl. apply isTrail_range in Ht.
  unfold pushCodePoint.
  destruct (Z.ltb_spec 0xFFFF ((l - 0xD800) * 2 ^ 10 + (t - 0xDC00) + 0x10000));
    [|lia].
  cbv zeta.
  replace ((l - 0xD800) * 2 ^ 10 + (t - 0xDC00) + 0x10000 - 0x10000)
    with ((l - 0xD800) * 2 ^ 10 + (t - 0xDC00)) by lia.
  rewrite Z.shiftr_div_pow2 by lia.
  rewrite !(land_low _ 10 0x3FF) by (reflexivity || lia).
  assert (E1 : (((l - 0xD800) * 2 ^ 10 + (t - 0xDC00)) / 2 ^ 10) mod 2 ^ 10
               = l - 0xD800) by (Z.div_mod_to_equations; lia).
  assert (E2 : ((l - 0xD800) * 2 ^ 10 + (t - 0xDC00)) mod 2 ^ 10
               = t - 0xDC00) by (Z.div_mod_to_equations; lia).
  rewrite E1, E2.
  destruct (surrogateUnits (l - 0xD800)) as [-> _]; [lia|].
  destruct (surrogateUnits (t - 0xDC00)) as [_ ->]; [lia|].
  f_equal; [lia|]. f_equal. lia.
Qed.

Lemma pair_encoded (l t : Z) (rest : list Z) :
  isLead l = true -> isTrail t = true ->
  forallb isByte (encodeCodePoint (pairCodePoint l t)) = true /\
  utf8Slice (encodeCodePoint (pairCodePoint l t) ++ rest)
  = [l; t] ++ utf8Slice rest.
Proof.
  intros Hl Ht. rewrite <- (pushCodePoint_pair l t Hl Ht).
  apply fourBytes_decode. rewrite (pairCodePoint_eq l t Hl Ht).
  apply isLead_range in Hl. apply isTrail_range in Ht. lia.
Qed.


(** *** Encoding then decoding a well-formed string *)

Lemma notLead_notSurrogate (c : Z) :
  isLead c = false -> isTrail c = false -> isSurrogate c = false.
Proof.
  intros Hl Ht. destruct (isSurrogate c) eqn:E; [|reflexivity].
  apply isSurrogate_range in E.
  destruct (Z.lt_ge_cases c 0xDC00).
  - rewrite (proj2 (isLead_range c)) in Hl by lia. discriminate.
  - rewrite (proj2 (isTrail_range c)) in Ht by lia. discriminate.
Qed.

Lemma utf8ToBytes_loop_pair (l t : Z) (rest : jsstring) :
  isLead l = true -> isTrail t = true ->
  utf8ToBytes_loop (l :: t :: rest) None
  = encodeCodePoint (pairCodePoint l t) ++ utf8ToBytes_loop rest None.
Proof.
  intros Hl Ht.
  assert (Sl : isSurrogate l = true)
    by (apply isSurrogate_range; apply isLead_range in Hl; lia).
  assert (St : isSurrogate t = true)
    by (apply isSurrogate_range; apply isTrail_range in Ht; lia).
  assert (Bl : (0xDBFF <? l) = false)
    by (apply Z.ltb_ge; apply isLead_range in Hl; lia).
  assert (Bt : (t <? 0xDC00) = false)
    by (apply Z.ltb_ge; apply isTrail_range in Ht; lia).
  remember (t :: rest) as r eqn:Er. cbn [utf8ToBytes_loop].
  rewrite Sl, Bl. subst r. cbn [utf8ToBytes_loop]. rewrite St, Bt.
  reflexivity.
Qed.

Lemma utf8ToBytes_loop_bmp (c : Z) (rest : jsstring) :
  isSurrogate c = false ->
  utf8ToBytes_loop (c :: rest) None
  = encodeCodePoint c ++ utf8ToBytes_loop rest None.
Proof. intros Hs. cbn [utf8ToBytes_loop]. now rewrite Hs. Qed.

Lemma utf8Slice_utf8ToBytes (n : nat) :
  forall v : jsstring,
    (length v <= n)%nat -> wellFormed v = true ->
    utf8Slice (utf8ToBytes v) = v.
Proof.
  unfold utf8ToBytes.
  induction n as [|n IH]; intros [|c rest] Hlen Hwf; try reflexivity;
    cbn [length] in Hlen; [lia|].
  cbn [wellFormed] in Hwf. destruct (isLead c) eqn:Hl.
  - destruct rest as [|d rest]; [discriminate|]. bools.
    rewrite utf8ToBytes_loop_pair by assumption.
    rewrite (proj2 (pair_encoded c d _ Hl H)). cbn [app].
    rewrite IH; [reflexivity | cbn [length] in Hlen; lia | assumption].
  - bools.
    assert (Hs : isSurrogate c = false) by now apply notLead_notSurrogate.
    rewrite utf8ToBytes_loop_bmp by assumption.
    destruct (bmp_encoded c) as [_ Hd]; [lia | assumption|].
    rewrite (decodesTo_spec _ _ _ Hd). cbn [app].
    rewrite IH; [reflexivity | lia | assumption].
Qed.

(** *** The bytes of an encoded string *)

Lemma forallb_isByte_app (a b : list Z) :
  forallb isByte a = true -> forallb isByte b = true ->
  forallb isByte (a ++ b) = true.
Proof. intros Ha Hb. now rewrite forallb_app, Ha, Hb. Qed.

Lemma utf8ToBytes_loop_bytes (v : jsstring) :
  forall leadSurrogate : option Z,
    isString v = true ->
    (forall l, leadSurrogate = Some l -> isLead l = true) ->
    forallb isByte (utf8ToBytes_loop v leadSurrogate) = true.
Proof.
  induction v as [|c rest IH]; intros ls Hv Hls; [reflexivity|].
  cbn [isString forallb] in Hv. apply andb_prop in Hv.
  destruct Hv as [Hc Hrest]. fold (isString rest) in Hrest. bools.
  cbn [utf8ToBytes_loop]. destruct (isSurrogate c) eqn:Hs.
  - apply isSurrogate_range in Hs. destruct ls as [lead|].
    + destruct (Z.ltb_spec c 0xDC00).
      * apply forallb_isByte_app; [reflexivity|]. apply IH; [assumption|].
        intros l [= <-]. apply isLead_range. lia.
      * apply forallb_isByte_app; [|now apply IH].
        apply (pair_encoded lead c []); [now apply Hls|].
        apply isTrail_range. lia.
    + destruct (Z.ltb_spec 0xDBFF c).
      * apply forallb_isByte_app; [reflexivity|]. now apply IH.
      * destruct rest as [|d rest]; [reflexivity|].
        apply IH; [assumption|]. intros l [= <-]. apply isLead_range. lia.
  - apply forallb_isByte_app; [now destruct ls|].
    apply forallb_isByte_app; [|now apply IH].
    apply bmp_encoded; [|assumption].
    apply Z.leb_le in H. apply Z.ltb_lt in H0. lia.
Qed.

Lemma utf8ToBytes_bytes (v : jsstring) :
  isString v = true -> forallb isByte (utf8ToBytes v) = true.
Proof. intros H. now apply utf8ToBytes_loop_bytes. Qed.

Lemma asciiToBytes_bytes (v : jsstring) :
  forallb isByte (asciiToBytes v) = true.
Proof.
  unfold asciiToBytes. induction v as [|c v IH]; [reflexivity|].
  cbn [map forallb]. rewrite IH, andb_true_r.
  rewrite (land_low c 8 0xFF) by (reflexivity || lia). unfold isByte.
  apply andb_true_intro. split; [apply Z.leb_le | apply Z.ltb_lt];
    Z.div_mod_to_equations; lia.
Qed.

Lemma from_bytes (v : jsstring) (e : option Encoding) :
  isString v = true -> forallb isByte (from v e) = true.
Proof.
  intros H. destruct e as [[]|]; cbn [from];
    [now apply utf8ToBytes_bytes | apply asciiToBytes_bytes
    | now apply utf8ToBytes_bytes].
Qed.

(** *** What the decoder yields is well formed *)

Lemma wellFormed_app_valid (u s : jsstring) :
  validUnits u = true -> wellFormed (u ++ s) = wellFormed s.
Proof.
  destruct u as [|c [|d [|e u]]]; try discriminate; cbn [validUnits];
    intros H; bools; cbn [app wellFormed].
  - destruct (isLead c) eqn:Hl.
    + apply isLead_range in Hl.
      rewrite (proj2 (isSurrogate_range c)) in H0 by lia. discriminate.
    + destruct (isTrail c) eqn:Ht.
      * apply isTrail_range in Ht.
        rewrite (proj2 (isSurrogate_range c)) in H0 by lia. discriminate.
      * now rewrite H, H1.
  - now rewrite H, H0.
Qed.

Lemma twoByte_ok (x y : Z) :
  0 <= x < 32 -> 0 <= y < 64 -> twoByteCheck x y = true.
Proof.
  intros Hx Hy.
  apply (forallb_zrange (twoByteCheck x) 0 64 y); [|exact Hy].
  apply (forallb_zrange
           (fun x => forallb (twoByteCheck x) (zrange 0 64)) 0 32 x);
    [|exact Hx].
  vm_compute. reflexivity.
Qed.

Lemma threeByte_ok (x y z : Z) :
  0 <= x < 16 -> 0 <= y < 64 -> 0 <= z < 64 -> threeByteCheck x y z = true.
Proof.
  intros Hx Hy Hz.
  apply (forallb_zrange (threeByteCheck x y) 0 64 z); [|exact Hz].
  apply (forallb_zrange
           (fun y => forallb (threeByteCheck x y) (zrange 0 64)) 0 64 y);
    [|exact Hy].
  apply (forallb_zrange
           (fun x => forallb (fun y => forallb (threeByteCheck x y)
                                               (zrange 0 64))
                             (zrange 0 64)) 0 16 x);
    [|exact Hx].
  vm_compute. reflexivity.
Qed.

Lemma land_range (a n m : Z) :
  0 <= n -> m = Z.ones n -> 0 <= Z.land a m < 2 ^ n.
Proof.
  intros Hn ->. rewrite Z.land_ones by exact Hn.
  apply Z.mod_pos_bound. apply Z.pow_pos_nonneg; lia.
Qed.

Lemma validUnits_supplementary (cp : Z) :
  (0xFFFF <? cp) = true -> validUnits (pushCodePoint cp) = true.
Proof.
  intros H. unfold pushCodePoint. rewrite H. cbv zeta. cbn [validUnits].
  pose proof (land_range (Z.shiftr (cp - 0x10000) 10) 10 0x3FF) as Hx.
  pose proof (land_range (cp - 0x10000) 10 0x3FF) as Hy.
  specialize (Hx ltac:(lia) eq_refl). specialize (Hy ltac:(lia) eq_refl).
  change (2 ^ 10) with 1024 in Hx, Hy.
  destruct (surrogateUnits _ Hx) as [-> _].
  destruct (surrogateUnits _ Hy) as [_ ->].
  apply andb_true_intro.
  split; [apply isLead_range | apply isTrail_range]; lia.
Qed.

Lemma validUnits_replacement : validUnits [0xFFFD] = true.
Proof. reflexivity. Qed.

Lemma wellFormed_invalid (s : jsstring) :
  wellFormed s = true -> wellFormed (0xFFFD :: s) = true.
Proof.
  intros H. change (0xFFFD :: s) with ([0xFFFD] ++ s).
  now rewrite (wellFormed_app_valid _ _ validUnits_replacement).
Qed.

Lemma utf8Slice_wellFormed (n : nat) :
  forall buf : list Z,
    (length buf <= n)%nat -> forallb isByte buf = true ->
    wellFormed (utf8Slice buf) = true.
Proof.
  induction n as [|n IH]; intros [|b1 t1] Hlen Hb; try reflexivity;
    cbn [length] in Hlen; [lia|].
  cbn [forallb] in Hb. apply andb_prop in Hb. destruct Hb as [Hb1 Ht1].
  assert (Hinv : wellFormed (0xFFFD :: utf8Slice t1) = true).
  { apply wellFormed_invalid. apply IH; [lia | assumption]. }
  remember t1 as t eqn:Et. cbn [utf8Slice]. cbv zeta.
  destruct (0xEF <? b1).
  - subst t. destruct t1 as [|b2 [|b3 [|b4 t4]]]; try exact Hinv.
    match goal with
    | |- context [if ?c then _ else _] => destruct c eqn:Hc
    end; [|exact Hinv].
    bools. rewrite wellFormed_app_valid
      by now apply validUnits_supplementary.
    cbn [forallb length] in Ht1, Hlen. bools. apply IH; [lia | assumption].
  - destruct (0xDF <? b1).
    + subst t. destruct t1 as [|b2 [|b3 t3]]; try exact Hinv.
      match goal with
      | |- context [if ?c then _ else _] => destruct c eqn:Hc
      end; [|exact Hinv].
      pose proof (threeByte_ok (Z.land b1 0xF) (Z.land b2 0x3F)
                    (Z.land b3 0x3F)
                    (land_range b1 4 0xF ltac:(lia) eq_refl)
                    (land_range b2 6 0x3F ltac:(lia) eq_refl)
                    (land_range b3 6 0x3F ltac:(lia) eq_refl)) as Hv.
      unfold threeByteCheck in Hv. cbv zeta in Hv. bools.
      rewrite H1, H0 in Hv. cbn [andb negb orb] in Hv.
      rewrite wellFormed_app_valid by exact Hv.
      cbn [forallb length] in Ht1, Hlen. bools. apply IH; [lia | assumption].
    + destruct (0xBF <? b1).
      * subst t. destruct t1 as [|b2 t2]; try exact Hinv.
        match goal with
        | |- context [if ?c then _ else _] => destruct c eqn:Hc
        end; [|exact Hinv].
        pose proof (twoByte_ok (Z.land b1 0x1F) (Z.land b2 0x3F)
                      (land_range b1 5 0x1F ltac:(lia) eq_refl)
                      (land_range b2 6 0x3F ltac:(lia) eq_refl)) as Hv.
        unfold twoByteCheck in Hv. cbv zeta in Hv. bools.
        rewrite H0 in Hv. cbn [negb orb] in Hv.
        rewrite wellFormed_app_valid by exact Hv.
        cbn [forallb length] in Ht1, Hlen. bools.
        apply IH; [lia | assumption].
      * subst t. destruct (Z.ltb_spec b1 0x80); [|exact Hinv].
        rewrite wellFormed_app_valid; [apply IH; [lia | assumption]|].
        unfold isByte in Hb1. bools. apply Z.leb_le in H0.
        unfold pushCodePoint. destruct (Z.ltb_spec 0xFFFF b1); [lia|].
        cbn [validUnits]. rewrite (proj2 (Z.leb_le 0 b1)) by lia.
        rewrite (proj2 (Z.ltb_lt b1 0x10000)) by lia.
        destruct (isSurrogate b1) eqn:Hs; [|reflexivity].
        apply isSurrogate_range in Hs. lia.
Qed.

Lemma wellFormed_isString (v : jsstring) :
  wellFormed v = true -> isString v = true.
Proof.
  assert (H : forall n (v : jsstring),
             (length v <= n)%nat -> wellFormed v = true ->
             isString v = true).
  { clear v. induction n as [|n IH]; intros [|c rest] Hlen Hwf;
      try reflexivity; cbn [length] in Hlen; [lia|].
    cbn [wellFormed] in Hwf. cbn [isString forallb].
    destruct (isLead c) eqn:Hl.
    - destruct rest as [|d rest]; [discriminate|]. bools.
      apply isLead_range in Hl. apply isTrail_range in H.
      cbn [forallb]. cbn [length] in Hlen.
      rewrite (proj2 (Z.leb_le 0 c)), (proj2 (Z.ltb_lt c 0x10000)),
        (proj2 (Z.leb_le 0 d)), (proj2 (Z.ltb_lt d 0x10000)) by lia.
      apply (IH rest); [lia | assumption].
    - bools. rewrite H, H2. apply (IH rest); [lia | assumption]. }
  apply (H (length v)). lia.
Qed.

(** X4. In the 'utf8' mode a string comes back unchanged from
    [Buffer.from] followed by [toString] exactly when it is well formed:
    every lead surrogate is followed by a trail surrogate and no trail
    surrogate stands alone. *)
Theorem utf8_preserves_exactly_well_formed :
  forall v : jsstring,
    isString v = true ->
    (Buffer.toString (Buffer.from v (Some utf8)) utf8 = v
     <-> wellFormed v = true).
Proof.
  intros v Hv. cbn [from toString]. split.
  - intros H. rewrite <- H.
    apply (utf8Slice_wellFormed (length (utf8ToBytes v))); [lia|].
    now apply utf8ToBytes_bytes.
  - apply (utf8Slice_utf8ToBytes (length v)). lia.
Qed.

Lemma utf8_preserves_exactly_well_formed_witness :
  Buffer.toString (Buffer.from [0xD83D; 0xDE00; 0x41] (Some utf8)) utf8
  = [0xD83D; 0xDE00; 0x41]
  <-> wellFormed [0xD83D; 0xDE00; 0x41] = true.
Proof.
  apply (utf8_preserves_exactly_well_formed [0xD83D; 0xDE00; 0x41]).
  reflexivity.
Defined.

Lemma asciiSlice_asciiToBytes (v : jsstring) :
  asciiSlice (asciiToBytes v) = map (fun c => c mod 128) v.
Proof.
  unfold asciiSlice, asciiToBytes. rewrite map_map. apply map_ext.
  intros c. rewrite <- Z.land_assoc. change (Z.land 0xFF 0x7F) with 0x7F.
  now rewrite (land_low c 7 0x7F) by (reflexivity || lia).
Qed.

Lemma ascii_representable (v : jsstring) :
  map (fun c => c mod 128) v = v <-> isAscii v = true.
Proof.
  unfold isAscii. induction v as [|c v IH]; [now split|].
  cbn [map forallb]. rewrite andb_true_iff, <- IH. split.
  - intros [= Hc Hv]. split; [|exact Hv].
    apply andb_true_intro.
    split; [apply Z.leb_le | apply Z.ltb_lt]; Z.div_mod_to_equations; lia.
  - intros [Hc ->]. bools. apply Z.leb_le in H. apply Z.ltb_lt in H0.
    now rewrite Z.mod_small by lia.
Qed.

(** X5. In the 'ascii' mode [Buffer.from] followed by [toString] keeps of
    every code unit its seven low bits, so a string comes back unchanged
    exactly when all its code units are below 128. *)
Theorem ascii_keeps_seven_bits :
  forall v : jsstring,
    Buffer.toString (Buffer.from v (Some ascii)) ascii
    = map (fun c => c mod 128) v /\
    (Buffer.toString (Buffer.from v (Some ascii)) ascii = v
     <-> isAscii v = true).
Proof.
  intros v. cbn [from toString]. rewrite asciiSlice_asciiToBytes.
  split; [reflexivity | apply ascii_representable].
Qed.

(** *** At most three bytes for a code unit *)

Lemma length_encodeCodePoint (c : Z) :
  (length (encodeCodePoint c) <= 4)%nat /\
  (c < 0x10000 -> (length (encodeCodePoint c) <= 3)%nat).
Proof.
  unfold encodeCodePoint.
  destruct (Z.ltb_spec c 0x80); [cbn [length]; lia|].
  destruct (Z.ltb_spec c 0x800); [cbn [length]; lia|].
  destruct (Z.ltb_spec c 0x10000); cbn [length]; lia.
Qed.

Lemma length_utf8ToBytes_loop (v : jsstring) :
  forall leadSurrogate : option Z,
    isString v = true ->
    (length (utf8ToBytes_loop v leadSurrogate)
     <= 3 * length v + match leadSurrogate with Some _ => 3 | None => 0 end)%nat.
Proof.
  induction v as [|c rest IH]; intros ls Hv; [cbn; lia|].
  cbn [isString forallb] in Hv. apply andb_prop in Hv.
  destruct Hv as [Hc Hrest]. fold (isString rest) in Hrest. bools.
  apply Z.ltb_lt in H0.
  pose proof (IH None Hrest) as IHn. pose proof (IH (Some c) Hrest) as IHs.
  cbv iota in IHn, IHs.
  assert (HR : length REPLACEMENT = 3%nat) by reflexivity.
  cbn [utf8ToBytes_loop]. cbn [length]. destruct (isSurrogate c).
  - destruct ls as [lead|].
    + destruct (c <? 0xDC00); rewrite length_app.
      * rewrite HR. lia.
      * pose proof (proj1 (length_encodeCodePoint
                             (Z.lor (Z.shiftl (lead - 0xD800) 10)
                                    (c - 0xDC00) + 0x10000))). lia.
    + destruct (0xDBFF <? c); [rewrite length_app, HR; lia|].
      destruct rest as [|d rest]; [rewrite HR; cbn [length]; lia|]. lia.
  - rewrite !length_app.
    pose proof (proj2 (length_encodeCodePoint c) H0).
    destruct ls; rewrite ?HR; cbn [length]; lia.
Qed.

Lemma length_from (v : jsstring) (e : Encoding) :
  isString v = true ->
  (length (from v (Some e))
   <= match e with utf8 => 3 | ascii => 1 end * length v)%nat.
Proof.
  intros Hv. destruct e; cbn [from].
  - pose proof (length_utf8ToBytes_loop v None Hv) as H. cbv iota in H.
    unfold utf8ToBytes. lia.
  - unfold asciiToBytes. rewrite length_map. lia.
Qed.

End EncodingFacts.

(** ** More on the codec: the shape of what is built and of what is read *)

Module CodecShape.
Import Ton JettonMinter Codec Layout.
Import BitFacts BuilderFacts ReadFacts DictOrderFacts BuildFacts DictFacts.
Import CodecFacts EncodingFacts.

Lemma parseOnChainData_Ok_inv (c : Cell) (res : list (jsstring * jsstring)) :
  parseOnChainData c = Ok res ->
  exists dict, res = fold_left (collectEntry dict) JETTON_METADATA_KEYS [].
Proof.
  unfold parseOnChainData. intros H.
  destruct (readUint 8 (beginParse c)) as [[tag s1]|e]; cbn [bind] in H;
    [|discriminate].
  destruct (negb (tag =? ONCHAIN_CONTENT_PREFIX)); [discriminate|].
  destruct (readDict 256 snakeExtractor s1) as [[dict s2]|e];
    cbn [bind] in H; [|discriminate].
  injection H as <-. now exists dict.
Qed.

Lemma collectEntry_shape (dict : list (Z * list Z)) (k : jsstring)
  (res : list (jsstring * jsstring)) :
  collectEntry dict res k = res \/
  exists c s, collectEntry dict res k = res ++ [(k, c :: s)].
Proof.
  unfold collectEntry.
  destruct (option_map _ _) as [[|c s]|]; eauto.
Qed.

Lemma fold_collectEntry_shape (dict : list (Z * list Z))
  (keys : list jsstring) :
  NoDup keys ->
  forall res : list (jsstring * jsstring),
    NoDup (map fst res) ->
    (forall k, In k keys -> ~ In k (map fst res)) ->
    let res' := fold_left (collectEntry dict) keys res in
    NoDup (map fst res') /\
    forall k v, In (k, v) res' -> In (k, v) res \/ (In k keys /\ v <> []).
Proof.
  induction 1 as [|k keys Hk Hnd IH]; intros res Hres Hdis; cbn [fold_left].
  - split; [exact Hres | auto].
  - destruct (collectEntry_shape dict k res) as [->|(c & s & ->)].
    + destruct (IH res Hres) as [H1 H2].
      { intros k' Hk'. apply Hdis. now right. }
      split; [exact H1|]. intros k' v Hin.
      destruct (H2 k' v Hin) as [|[? ?]]; [now left | right].
      split; [now right | assumption].
    + destruct (IH (res ++ [(k, c :: s)])) as [H1 H2].
      { rewrite map_app. cbn. apply NoDup_snoc; [exact Hres|].
        apply Hdis. now left. }
      { intros k' Hk' Hin. rewrite map_app in Hin. apply in_app_or in Hin.
        destruct Hin as [Hin|[<-|[]]].
        - apply (Hdis k'); [now right | exact Hin].
        - contradiction. }
      split; [exact H1|]. intros k' v Hin.
      destruct (H2 k' v Hin) as [Hin'|[? ?]].
      * apply in_app_or in Hin'. destruct Hin' as [|[[= <- <-]|[]]];
          [now left | right]. split; [now left | discriminate].
      * right. split; [now right | assumption].
Qed.

Lemma NoDup_JETTON_METADATA_KEYS : NoDup JETTON_METADATA_KEYS.
Proof.
  unfold JETTON_METADATA_KEYS.
  repeat (constructor;
          [cbn [In]; intros H;
           repeat (destruct H as [H|H]; [vm_compute in H; discriminate H|]);
           exact H|]).
  constructor.
Qed.

(** X1. Whatever cell [parseOnChainData] accepts, the mapping it returns
    has pairwise distinct keys, every key is one of name, description, image
    and symbol, and no value is the empty string. *)
Theorem parseOnChainData_result_shape :
  forall (c : Cell) (res : list (jsstring * jsstring)),
    parseOnChainData c = Ok res ->
    NoDup (map fst res) /\
    forall k v, In (k, v) res -> In k JETTON_METADATA_KEYS /\ v <> [].
Proof.
  intros c res H. apply parseOnChainData_Ok_inv in H. destruct H as [dict ->].
  destruct (fold_collectEntry_shape dict JETTON_METADATA_KEYS
              NoDup_JETTON_METADATA_KEYS [] (NoDup_nil _)) as [H1 H2].
  { intros k _ []. }
  split; [exact H1|]. intros k v Hin.
  destruct (H2 k v Hin) as [[]|H]. exact H.
Qed.

Lemma parseOnChainData_result_shape_witness :
  NoDup (map fst [(js "name", js "Test"); (js "symbol", js "TST")]) /\
  forall k v, In (k, v) [(js "name", js "Test"); (js "symbol", js "TST")] ->
              In k JETTON_METADATA_KEYS /\ v <> [].
Proof.
  apply (parseOnChainData_result_shape Examples.testContent).
  vm_compute. reflexivity.
Defined.

(** The value of a key after a round trip through its encoding mode, as
    [parseOnChainData] reports it. *)
Lemma decodedValue_stored (data : Metadata) (dict : list (Z * list Z))
  (k v : jsstring) :
  NoDup (map fst dict) ->
  Permutation (storedBytes data) dict ->
  In k JETTON_METADATA_KEYS ->
  In (k, Some v) data ->
  decodedValue dict k = normalized (encodingOf k) v.
Proof.
  intros Hnd Hperm Hk Hin. unfold decodedValue, normalized.
  apply storedBytes_In in Hin. rewrite (spec_own k Hk) in Hin.
  apply (Permutation_in _ Hperm), (mapGet_In _ _ _ Hnd) in Hin.
  cbn [asEncoding] in Hin. now rewrite Hin.
Qed.

(** X2. What [parseOnChainData] returns on a cell that [buildOnChainData]
    made of a mapping with distinct keys in which at least one value is
    defined (without one the cell has no dictionary and [parseOnChainData]
    fails on it): it succeeds, and for each of name, description, image and
    symbol it reports the value of the mapping as the encoding mode of the
    key renders it ([Buffer.from] then [toString] in that mode), leaving the
    key out when the value is missing, [undefined], or rendered as the empty
    string; no other key is reported. *)
Theorem parseOnChainData_after_buildOnChainData :
  forall (data : Metadata) (content : Cell),
    NoDup (map fst data) ->
    (exists k v, In (k, Some v) data) ->
    buildOnChainData data = Ok content ->
    exists res,
      parseOnChainData content = Ok res /\
      (forall k, In k JETTON_METADATA_KEYS ->
                 resGet k res = match metaGet k data with
                                | Some v => normalized (encodingOf k) v
                                | None => None
                                end) /\
      (forall k, ~ In k JETTON_METADATA_KEYS -> resGet k res = None).
Proof.
  intros data content Hndd Hdef Hb.
  destruct (parseOnChainData_buildOnChainData data content Hdef Hb)
    as (dict & Hp & Hnd & Hperm).
  apply buildOnChainData_inv in Hb. destruct Hb as (Hok & _).
  eexists. split; [exact Hp|]. split; intros k Hk; rewrite parsed_resGet.
  - rewrite (proj2 (existsb_jsstring_eqb _ _) Hk). unfold decodedValue.
    rewrite (dict_lookup data dict k Hndd Hok Hnd Hperm Hk).
    destruct (metaGet k data) as [v|]; reflexivity.
  - destruct (existsb (jsstring_eqb k) JETTON_METADATA_KEYS) eqn:E;
      [|reflexivity].
    apply existsb_jsstring_eqb in E. contradiction.
Qed.

Lemma parseOnChainData_after_buildOnChainData_witness :
  exists res,
    parseOnChainData Examples.nonAsciiImageContent = Ok res /\
    (forall k, In k JETTON_METADATA_KEYS ->
               resGet k res
               = match metaGet k [(js "image", Some [0xE9])] with
                 | Some v => normalized (encodingOf k) v
                 | None => None
                 end) /\
    (forall k, ~ In k JETTON_METADATA_KEYS -> resGet k res = None).
Proof.
  apply (parseOnChainData_after_buildOnChainData
           [(js "image", Some [0xE9])]).
  - constructor; [intros []|constructor].
  - exists (js "image"), [0xE9]. left. reflexivity.
  - vm_compute. reflexivity.
Defined.

Lemma normalized_Some (e : Buffer.Encoding) (v : jsstring) :
  normalized e v = Some v <-> v <> [] /\ representable e v.
Proof.
  unfold normalized, representable.
  destruct (Buffer.toString _ e) as [|c s]; split.
  - discriminate.
  - intros [Hne <-]. now contradiction Hne.
  - intros [= <-]. split; [discriminate | reflexivity].
  - intros [_ ->]. reflexivity.
Qed.

Lemma representable_preserved (e : Buffer.Encoding) (v : jsstring) :
  Utf8.isString v = true ->
  (representable e v <-> Utf8.preserved e v = true).
Proof.
  intros Hv. unfold representable.
  destruct e; cbn [Utf8.preserved Buffer.from Buffer.toString].
  - split.
    + intros H. rewrite <- H.
      apply (utf8Slice_wellFormed (length (Buffer.utf8ToBytes v))); [lia|].
      now apply utf8ToBytes_bytes.
    + apply (utf8Slice_utf8ToBytes (length v)). lia.
  - rewrite asciiSlice_asciiToBytes. apply ascii_representable.
Qed.

(** X6. If a recognized key has a defined value in a mapping that
    [buildOnChainData] encodes, then decoding the encoding reports that very
    value for the key exactly when the value is not empty and, for image,
    all its code units are below 128, for name, description and symbol, it is
    well formed (no unpaired surrogate). *)
Theorem parseOnChainData_preserves_value_iff :
  forall (data : Metadata) (content : Cell) (k v : jsstring),
    In k JETTON_METADATA_KEYS ->
    In (k, Some v) data ->
    Utf8.isString v = true ->
    buildOnChainData data = Ok content ->
    exists res,
      parseOnChainData content = Ok res /\
      (resGet k res = Some v
       <-> v <> [] /\ Utf8.preserved (encodingOf k) v = true).
Proof.
  intros data content k v Hk Hin Hv Hb.
  destruct (parseOnChainData_buildOnChainData data content
              (ex_intro _ k (ex_intro _ v Hin)) Hb)
    as (dict & Hp & Hnd & Hperm).
  eexists. split; [exact Hp|]. rewrite parsed_resGet.
  rewrite (proj2 (existsb_jsstring_eqb _ _) Hk).
  rewrite (decodedValue_stored data dict k v Hnd Hperm Hk Hin).
  rewrite normalized_Some. now rewrite (representable_preserved _ v Hv).
Qed.

Lemma parseOnChainData_preserves_value_iff_witness :
  exists res,
    parseOnChainData Examples.nonAsciiImageContent = Ok res /\
    (resGet (js "image") res = Some [0xE9]
     <-> [0xE9] <> [] /\
         Utf8.preserved (encodingOf (js "image")) [0xE9] = true).
Proof.
  apply (parseOnChainData_preserves_value_iff [(js "image", Some [0xE9])]).
  - right. right. left. reflexivity.
  - left. reflexivity.
  - reflexivity.
  - vm_compute. reflexivity.
Defined.

(** *** The values that are read are strings of their encoding mode *)

Lemma doParse_values {T} (ex : Slice -> result T) (c : Cell) :
  forall (prefix : bits) (n : Z) (d : list (Z * T)),
    doParse ex prefix c n = Ok d ->
    forall kv, In kv d -> exists s, ex s = Ok (snd kv).
Proof.
  induction c as [cb cr IH] using Cell_induction.
  intros prefix n d H kv Hin. cbn [doParse] in H.
  destruct (readLabel n cb) as [[label rest]|e]; [|discriminate].
  cbn [bind] in H.
  destruct (n - Z.of_nat (length label) =? 0).
  - destruct (ex (mkSlice rest cr)) as [v|e] eqn:E; [|discriminate].
    cbn [bind] in H. injection H as <-. destruct Hin as [<-|[]].
    now exists (mkSlice rest cr).
  - destruct cr as [|l [|r cr]]; try discriminate.
    inversion IH as [|? ? IHl IH']; subst.
    inversion IH' as [|? ? IHr _]; subst.
    destruct (doParse ex _ l _) as [dl|e] eqn:El; [|discriminate].
    cbn [bind] in H.
    destruct (doParse ex _ r _) as [dr|e] eqn:Er; [|discriminate].
    cbn [bind] in H. injection H as <-.
    apply in_app_or in Hin. destruct Hin as [Hin|Hin].
    + exact (IHl _ _ _ El kv Hin).
    + exact (IHr _ _ _ Er kv Hin).
Qed.

Lemma readDict_values {T} (ex : Slice -> result T) (n : Z) (s s2 : Slice)
  (d : list (Z * T)) :
  readDict n ex s = Ok (d, s2) ->
  forall kv, In kv d -> exists s', ex s' = Ok (snd kv).
Proof.
  unfold readDict.
  destruct (readRef s) as [[ref s3]|e]; cbn [bind]; [|discriminate].
  unfold parseDict.
  destruct (doParse ex [] (toCell ref) n) as [d'|e] eqn:E; cbn [bind];
    [|discriminate].
  intros [= <- <-]. exact (doParse_values ex _ _ _ _ E).
Qed.

Lemma bytesOfBits_bytes (fuel : nat) :
  forall bs : bits, forallb Utf8.isByte (bytesOfBits fuel bs) = true.
Proof.
  induction fuel as [|f IH]; intros bs; [reflexivity|].
  cbn [bytesOfBits]. destruct bs as [|b bs]; [reflexivity|].
  cbn [forallb]. rewrite IH, andb_true_r.
  pose proof (uintOfBits_range (firstn 8 (b :: bs))) as Hr.
  assert (Hl : (length (firstn 8 (b :: bs)) <= 8)%nat)
    by apply firstn_le_length.
  assert (Hp : 2 ^ Z.of_nat (length (firstn 8 (b :: bs))) <= 2 ^ 8)
    by (apply Z.pow_le_mono_r; lia).
  unfold Utf8.isByte. apply andb_true_intro.
  split; [apply Z.leb_le | apply Z.ltb_lt]; lia.
Qed.

Lemma snakeExtractor_bytes (s : Slice) (buf : list Z) :
  snakeExtractor s = Ok buf -> forallb Utf8.isByte buf = true.
Proof.
  unfold snakeExtractor.
  destruct (readUint 8 _) as [[tag vs]|e]; cbn [bind]; [|discriminate].
  destruct (negb _); [discriminate|]. unfold readRemainingBytes.
  destruct (_ =? _)%nat; [|discriminate].
  intros [= <-]. apply bytesOfBits_bytes.
Qed.

Lemma mapGet_Some_In {T} (key : Z) (v : T) (m : list (Z * T)) :
  mapGet key m = Some v -> In (key, v) m.
Proof.
  induction m as [|[k w] m IH]; cbn [mapGet]; [discriminate|].
  destruct (Z.eqb_spec k key) as [->|Hne].
  - intros [= ->]. now left.
  - intros H. right. now apply IH.
Qed.

Lemma fold_collectEntry_values (dict : list (Z * list Z))
  (keys : list jsstring) :
  forall (res : list (jsstring * jsstring)) k v,
    In (k, v) (fold_left (collectEntry dict) keys res) ->
    In (k, v) res \/
    exists buf, In (toKey (sha256 k), buf) dict /\
                v = Buffer.toString buf (encodingOf k).
Proof.
  induction keys as [|k' keys IH]; intros res k v Hin; cbn [fold_left] in Hin;
    [now left|].
  apply IH in Hin. destruct Hin as [Hin|Hin]; [|now right].
  unfold collectEntry in Hin.
  destruct (mapGet (toKey (sha256 k')) dict) as [buf|] eqn:Hg;
    cbn [option_map] in Hin; [|now left].
  destruct (Buffer.toString buf (encodingOf k')) as [|c s] eqn:Hs;
    [now left|].
  apply in_app_or in Hin. destruct Hin as [Hin|[[= <- <-]|[]]]; [now left|].
  right. exists buf. split; [now apply mapGet_Some_In | now rewrite Hs].
Qed.

Lemma asciiSlice_isAscii (buf : list Z) :
  isAscii (Buffer.asciiSlice buf) = true.
Proof.
  unfold isAscii, Buffer.asciiSlice. induction buf as [|b buf IH];
    [reflexivity|].
  cbn [map forallb]. rewrite IH, andb_true_r.
  pose proof (land_range b 7 0x7F ltac:(lia) eq_refl) as Hr.
  change (2 ^ 7) with 128 in Hr.
  apply andb_true_intro. split; [apply Z.leb_le | apply Z.ltb_lt]; lia.
Qed.

(** X7. Whatever cell [parseOnChainData] accepts, every value it returns is
    a string of the encoding mode of its key: for image all code units are
    below 128, for name, description and symbol every surrogate is part of a
    pair. *)
Theorem parseOnChainData_values_in_mode :
  forall (c : Cell) (res : list (jsstring * jsstring)) (k v : jsstring),
    parseOnChainData c = Ok res ->
    In (k, v) res ->
    Utf8.preserved (encodingOf k) v = true.
Proof.
  intros c res k v H Hin. unfold parseOnChainData in H.
  destruct (readUint 8 (beginParse c)) as [[tag s1]|e]; cbn [bind] in H;
    [|discriminate].
  destruct (negb (tag =? ONCHAIN_CONTENT_PREFIX)); [discriminate|].
  destruct (readDict 256 snakeExtractor s1) as [[dict s2]|e] eqn:Hd;
    cbn [bind] in H; [|discriminate].
  injection H as <-.
  change (In (k, v) (fold_left (collectEntry dict) JETTON_METADATA_KEYS []))
    in Hin.
  apply fold_collectEntry_values in Hin.
  destruct Hin as [[]|(buf & Hbuf & ->)].
  destruct (readDict_values _ _ _ _ _ Hd _ Hbuf) as (s' & Hs').
  apply snakeExtractor_bytes in Hs'. cbn [snd] in Hs'.
  destruct (encodingOf k); cbn [Utf8.preserved Buffer.toString].
  - now apply (utf8Slice_wellFormed (length buf)).
  - apply asciiSlice_isAscii.
Qed.

Lemma parseOnChainData_values_in_mode_witness :
  Utf8.preserved (encodingOf (js "name")) (js "Test") = true.
Proof.
  apply (parseOnChainData_values_in_mode Examples.testContent
           [(js "name", js "Test"); (js "symbol", js "TST")]).
  - vm_compute. reflexivity.
  - left. reflexivity.
Defined.

(** X3. The cell [buildOnChainData] returns always holds exactly nine bits,
    the tag byte 0 and one bit that tells whether a dictionary follows, and
    it holds one reference, the dictionary, exactly when some value of the
    mapping is defined; otherwise the bit is 0 and there is no reference. *)
Theorem buildOnChainData_shape :
  forall (data : Metadata) (content : Cell),
    buildOnChainData data = Ok content ->
    exists present : bool,
      cellBits content = bitsOfUint 8 ONCHAIN_CONTENT_PREFIX ++ [present] /\
      length (cellRefs content) = (if present then 1 else 0)%nat /\
      (present = true <-> exists k v, In (k, Some v) data).
Proof.
  intros data content H. apply buildOnChainData_inv in H.
  destruct H as (Hok & _ & d & Hd & ->).
  pose proof (items_nonempty_iff data Hok) as Hne.
  unfold endDict in Hd. cbn [items keySize] in Hd.
  destruct (flat_map itemsOf data) as [|it its].
  - injection Hd as <-. exists false. cbn [cellBits cellRefs length].
    repeat split; try discriminate. intros H. apply Hne in H.
    now contradiction H.
  - apply bind_Ok_inv in Hd. destruct Hd as (dc & _ & [= <-]).
    exists true. cbn [cellBits cellRefs length].
    repeat split. intros _. apply Hne. discriminate.
Qed.

Lemma buildOnChainData_shape_witness :
  exists present : bool,
    cellBits Examples.testContent
    = bitsOfUint 8 ONCHAIN_CONTENT_PREFIX ++ [present] /\
    length (cellRefs Examples.testContent) = (if present then 1 else 0)%nat /\
    (present = true <-> exists k v, In (k, Some v) Examples.testMetadata).
Proof.
  apply (buildOnChainData_shape Examples.testMetadata).
  vm_compute. reflexivity.
Defined.

End CodecShape.

(** ** Building a dictionary always ends, and when it fits *)

Module DictBuildFacts.
Import Ton Codec Layout DictLayout.
Import BitFacts BuilderFacts ReadFacts DictOrderFacts BuildFacts DictFacts.

Lemma writeBits_Err (l : bits) :
  forall (bs : bits) (e : error),
    writeBits l bs = Err e -> e = BitStringOverflow.
Proof.
  induction l as [|b l IH]; intros bs e H; [discriminate|].
  rewrite writeBits_cons in H. unfold writeBit in H.
  destruct (length bs <? CELL_BITS)%nat; cbn [bind] in H.
  - now apply IH in H.
  - now injection H as <-.
Qed.

Lemma lenBits_spec (n len : Z) :
  0 <= len <= n -> 0 <= len < 2 ^ Z.of_nat (lenBits n).
Proof.
  intros H. unfold lenBits.
  rewrite Z2Nat.id by apply Z.log2_up_nonneg.
  pose proof (Z.log2_log2_up_spec (n + 1) ltac:(lia)). lia.
Qed.

Lemma lenBits_mono (a b : Z) : 0 <= a <= b -> (lenBits a <= lenBits b)%nat.
Proof.
  intros H. unfold lenBits. apply Z2Nat.inj_le;
    try apply Z.log2_up_nonneg. apply Z.log2_up_le_mono. lia.
Qed.

Lemma labelCap_mono (m n : nat) : (m <= n)%nat -> (labelCap m <= labelCap n)%nat.
Proof.
  intros H. unfold labelCap.
  pose proof (lenBits_mono (Z.of_nat m) (Z.of_nat n) ltac:(lia)). lia.
Qed.

Lemma writeLabel_layout (label : bits) (n : Z) (to : bits) :
  Z.of_nat (length label) <= n ->
  writeLabel label n to = writeBits (labelLayout label n) to.
Proof.
  intros Hl. unfold writeLabel, labelLayout.
  destruct (detectLabelType label n).
  - unfold writeLabelShort. rewrite writeBits_cons.
    destruct (writeBit false to) as [to1|]; cbn [bind]; [|reflexivity].
    rewrite writeBits_app.
    destruct (writeBits (repeat true (length label)) to1) as [to2|];
      cbn [bind]; [|reflexivity].
    now rewrite writeBits_cons.
  - unfold writeLabelLong. rewrite writeBits_cons.
    destruct (writeBit true to) as [to1|]; cbn [bind]; [|reflexivity].
    rewrite writeBits_cons.
    destruct (writeBit false to1) as [to2|]; cbn [bind]; [|reflexivity].
    rewrite writeBits_app, writeUint_ok by (apply lenBits_spec; lia).
    reflexivity.
  - unfold writeLabelSame. rewrite writeBits_cons.
    destruct (writeBit true to) as [to1|]; cbn [bind]; [|reflexivity].
    rewrite writeBits_cons.
    destruct (writeBit true to1) as [to2|]; cbn [bind]; [|reflexivity].
    rewrite writeBits_cons.
    destruct (writeBit (hd false label) to2) as [to3|]; cbn [bind];
      [|reflexivity].
    now rewrite writeUint_ok by (apply lenBits_spec; lia).
Qed.

Lemma length_labelLayout (label : bits) (n : Z) :
  (length (labelLayout label n) <= 2 + lenBits n + length label)%nat.
Proof.
  unfold labelLayout, detectLabelType. cbv zeta.
  unfold labelShortLength, labelLongLength, labelSameLength.
  destruct (Z.ltb_spec (1 + 1 + Z.of_nat (lenBits n)
                        + Z.of_nat (length label))
                       (1 + Z.of_nat (length label) + 1
                        + Z.of_nat (length label))) as [Hlong|Hshort];
    cbv iota; destruct (isSame label).
  - destruct (Z.ltb_spec (1 + 1 + 1 + Z.of_nat (lenBits n))
                (1 + 1 + Z.of_nat (lenBits n) + Z.of_nat (length label)));
      cbn [length]; rewrite ?length_app, ?length_bitsOfUint; try lia.
  - cbn [length]. rewrite length_app, length_bitsOfUint. lia.
  - destruct (Z.ltb_spec (1 + 1 + 1 + Z.of_nat (lenBits n))
                (1 + Z.of_nat (length label) + 1
                 + Z.of_nat (length label)));
      cbn [length]; rewrite ?length_app; cbn [length];
      rewrite ?repeat_length, ?length_bitsOfUint; lia.
  - cbn [length]. rewrite length_app. cbn [length].
    rewrite repeat_length. lia.
Qed.

(** *** The common prefix is the longest one *)

Lemma commonPrefix_app (p a b : bits) :
  commonPrefix (p ++ a) (p ++ b) = p ++ commonPrefix a b.
Proof.
  induction p as [|x p IH]; [reflexivity|]. cbn [app commonPrefix].
  now rewrite Bool.eqb_reflx, IH.
Qed.

Lemma fold_commonPrefix_app (p : bits) (l : list bits) :
  forall x : bits,
    fold_left commonPrefix (map (app p) l) (p ++ x)
    = p ++ fold_left commonPrefix l x.
Proof.
  induction l as [|y l IH]; intros x; [reflexivity|].
  cbn [map fold_left]. now rewrite commonPrefix_app, IH.
Qed.

Lemma findCommonPrefix_stripped (keys : list bits) :
  keys <> [] ->
  findCommonPrefix
    (map (skipn (length (findCommonPrefix keys))) keys) = [].
Proof.
  intros Hne. set (p := findCommonPrefix keys).
  assert (Hk : keys = map (app p) (map (skipn (length p)) keys)).
  { rewrite map_map. rewrite <- (map_id keys) at 1. apply map_ext_in.
    intros k Hin. now apply findCommonPrefix_prefix. }
  assert (Hp : p = p ++ findCommonPrefix (map (skipn (length p)) keys)).
  { unfold p at 1. rewrite Hk at 1.
    destruct keys as [|k keys]; [contradiction|].
    cbn [map findCommonPrefix]. apply fold_commonPrefix_app. }
  rewrite <- (app_nil_r p) in Hp at 1. now apply app_inv_head in Hp.
Qed.

Lemma fold_commonPrefix_head (b : bool) (l : list bits) :
  forall x : bits,
    (forall k, In k (x :: l) -> exists t, k = b :: t) ->
    exists t, fold_left commonPrefix l x = b :: t.
Proof.
  induction l as [|y l IH]; intros x H.
  - apply H. now left.
  - cbn [fold_left]. apply IH. intros k [<-|Hin].
    + destruct (H x ltac:(now left)) as [tx ->].
      destruct (H y ltac:(right; now left)) as [ty ->].
      cbn [commonPrefix]. rewrite Bool.eqb_reflx. eauto.
    + apply H. right. now right.
Qed.

Lemma findCommonPrefix_head (b : bool) (keys : list bits) :
  keys <> [] ->
  (forall k, In k keys -> exists t, k = b :: t) ->
  exists t, findCommonPrefix keys = b :: t.
Proof.
  destruct keys as [|x l]; [contradiction|]. intros _ H.
  now apply fold_commonPrefix_head.
Qed.


(** *** Every fork has entries on both sides *)

Lemma filter_nil_all {A} (f : A -> bool) (l : list A) :
  filter f l = [] -> forall x, In x l -> f x = false.
Proof.
  intros H x Hin. destruct (f x) eqn:E; [|reflexivity].
  assert (Hx : In x (filter f l)) by (apply filter_In; auto).
  rewrite H in Hx. contradiction.
Qed.

Lemma filter_lengths {A} (f : A -> bool) (l : list A) :
  (length (filter f l) + length (filter (fun x => negb (f x)) l)
   = length l)%nat.
Proof.
  rewrite <- length_app. apply Permutation_length, partition_perm.
Qed.

Lemma side_values {T} (f : bits * T -> bool) (k : nat)
  (src : list (bits * T)) (P : T -> Prop) :
  Forall (fun kv => P (snd kv)) src ->
  Forall (fun kv => P (snd kv))
         (map substr1 (filter f (removePrefixMap src k))).
Proof.
  intros H. rewrite Forall_forall in H. apply Forall_forall.
  intros kv' Hin. apply in_map_iff in Hin. destruct Hin as (kv1 & <- & Hin).
  apply filter_In in Hin. destruct Hin as [Hin _].
  unfold removePrefixMap in Hin. apply in_map_iff in Hin.
  destruct Hin as (kv & <- & Hin). cbn [substr1 snd]. now apply H.
Qed.

Lemma writeEdge_fork {T} (ser : T -> Builder -> result Builder)
  (label : bits) (l r : Edge T) (n : Z) (to : Builder) :
  writeEdge ser (mkEdge label (Fork l r)) n to
  = (bs <- writeLabel label n (bbits to) ;;
     leftCell <- writeEdge ser l (n - Z.of_nat (length label) - 1) beginCell ;;
     rightCell <- writeEdge ser r (n - Z.of_nat (length label) - 1) beginCell ;;
     endCell (mkBuilder bs (brefs to ++ [leftCell; rightCell]))).
Proof. reflexivity. Qed.

Lemma writeEdge_buildEdge (fuel : nat) :
  forall (src : list (bits * Cell)) (n : nat),
    src <> [] ->
    Forall (fun kv => length (fst kv) = n) src ->
    NoDup (map fst src) ->
    (length src <= fuel)%nat ->
    exists e,
      buildEdge fuel src = Ok e /\
      (forall err,
          writeEdge writeCell e (Z.of_nat n) beginCell = Err err ->
          err = BitStringOverflow) /\
      (Forall (fun kv => (length (cellBits (snd kv)) + labelCap n
                          <= CELL_BITS)%nat) src ->
       isOk (writeEdge writeCell e (Z.of_nat n) beginCell) = true).
Proof.
  induction fuel as [|f IH]; intros src n Hne Hlen Hnd Hfuel.
  { destruct src; [contradiction | cbn in Hfuel; lia]. }
  destruct src as [|kv0 src0]; [contradiction|]. clear Hne.
  cbn [buildEdge].
  remember (kv0 :: src0) as src eqn:Esrc.
  set (label := findCommonPrefix (map fst src)) in *.
  assert (Hshape : forall kv, In kv src ->
            fst kv = label ++ skipn (length label) (fst kv)).
  { intros kv Hin. apply findCommonPrefix_prefix.
    apply in_map_iff. now exists kv. }
  assert (Hin0 : In kv0 src) by (rewrite Esrc; now left).
  assert (Hll : (length label <= n)%nat).
  { rewrite Forall_forall in Hlen. specialize (Hlen kv0 Hin0).
    cbn beta in Hlen.
    pose proof (f_equal (@length bool) (Hshape kv0 Hin0)) as Hl.
    rewrite length_app in Hl. lia. }
  assert (Hcap : (length (labelLayout label (Z.of_nat n)) <= labelCap n)%nat).
  { pose proof (length_labelLayout label (Z.of_nat n)). unfold labelCap.
    lia. }
  destruct (removePrefixMap src (length label)) as [|a [|b R]] eqn:ER.
  - apply (f_equal (@length _)) in ER. unfold removePrefixMap in ER.
    rewrite length_map, Esrc in ER. discriminate.
  - (* a single entry: a leaf *)
    assert (Es : src = [kv0]).
    { apply (f_equal (@length _)) in ER. unfold removePrefixMap in ER.
      rewrite length_map, Esrc in ER. cbn in ER.
      destruct src0; [exact Esrc | discriminate]. }
    assert (Ea : snd a = snd kv0).
    { rewrite Es in ER. cbn in ER. now injection ER as <-. }
    eexists. split; [reflexivity|].
    cbn [writeEdge writeNode]. rewrite writeLabel_layout by lia.
    unfold writeCell, endCell. cbn [beginCell bbits brefs]. split.
    + intros err H.
      destruct (writeBits (labelLayout label (Z.of_nat n)) []) as [bs|e]
        eqn:E1; cbn [bind bbits brefs] in H.
      * destruct (writeBits (cellBits (snd a)) bs) as [bs'|e] eqn:E2;
          cbn [bind] in H; [discriminate|].
        injection H as <-. exact (writeBits_Err _ _ _ E2).
      * injection H as <-. exact (writeBits_Err _ _ _ E1).
    + intros Hfit. rewrite Forall_forall in Hfit.
      specialize (Hfit kv0 Hin0). cbn beta in Hfit. rewrite <- Ea in Hfit.
      rewrite writeBits_ok by (cbn [length]; lia).
      cbn [bind bbits brefs app].
      rewrite writeBits_ok by lia. reflexivity.
  - (* several entries: a fork *)
    remember (a :: b :: R) as RR eqn:ERR.
    assert (HRR : RR = map (fun kv => (skipn (length label) (fst kv), snd kv))
                           src) by (symmetry; exact ER).
    assert (HlenR : Forall (fun kv => length (fst kv) = n - length label)%nat RR).
    { rewrite HRR. apply Forall_forall. intros kv' Hin.
      apply in_map_iff in Hin. destruct Hin as (kv & <- & Hin). cbn [fst].
      rewrite Forall_forall in Hlen. specialize (Hlen kv Hin).
      cbn beta in Hlen. rewrite length_skipn. lia. }
    assert (Hkeys : map fst RR = map (skipn (length label)) (map fst src))
      by (rewrite HRR, !map_map; reflexivity).
    assert (HndR : NoDup (map fst RR)).
    { rewrite Hkeys. apply NoDup_map_inj_in; [|exact Hnd].
      intros x y Hx Hy Heq.
      apply in_map_iff in Hx. destruct Hx as (kx & <- & Hx).
      apply in_map_iff in Hy. destruct Hy as (ky & <- & Hy).
      pose proof (Hshape kx Hx) as E1. pose proof (Hshape ky Hy) as E2.
      congruence. }
    destruct (n - length label)%nat as [|m] eqn:Em.
    { exfalso. rewrite ERR in HlenR, HndR.
      inversion HlenR as [|? ? Ha' Hrest]. inversion Hrest as [|? ? Hb' _].
      inversion HndR as [|? ? Hnin _]. apply Hnin.
      apply length_zero_iff_nil in Ha', Hb'. cbn. left.
      congruence. }
    (* nothing is left in common once the label is removed *)
    assert (Hlcp : findCommonPrefix (map fst RR) = []).
    { rewrite Hkeys. apply findCommonPrefix_stripped.
      rewrite Esrc. discriminate. }
    assert (HRne : map fst RR <> []) by (rewrite ERR; discriminate).
    set (L := map substr1 (filter startsWith0 RR)).
    set (Rt := map substr1 (filter (fun kv => negb (startsWith0 kv)) RR)).
    assert (HL : L <> []).
    { intros E. apply map_eq_nil in E.
      destruct (findCommonPrefix_head true (map fst RR) HRne) as [t Ht];
        [|rewrite Hlcp in Ht; discriminate].
      intros k Hk. apply in_map_iff in Hk. destruct Hk as (kv & <- & Hk).
      pose proof (filter_nil_all _ _ E kv Hk) as Hf.
      rewrite Forall_forall in HlenR. specialize (HlenR kv Hk).
      cbn beta in HlenR. unfold startsWith0 in Hf.
      destruct (fst kv) as [|[] t]; try discriminate. now exists t. }
    assert (HR : Rt <> []).
    { intros E. apply map_eq_nil in E.
      destruct (findCommonPrefix_head false (map fst RR) HRne) as [t Ht];
        [|rewrite Hlcp in Ht; discriminate].
      intros k Hk. apply in_map_iff in Hk. destruct Hk as (kv & <- & Hk).
      pose proof (filter_nil_all _ _ E kv Hk) as Hf.
      apply negb_false_iff in Hf. unfold startsWith0 in Hf.
      destruct (fst kv) as [|[] t]; try discriminate. now exists t. }
    assert (Hfork : forkMap RR = Ok (L, Rt)).
    { unfold forkMap. rewrite ERR at 1. fold L Rt.
      destruct L; [contradiction|]. destruct Rt; [contradiction|].
      reflexivity. }
    rewrite Hfork. cbn [bind].
    destruct (fork_side false startsWith0 m RR) as (HlenL & HndL & _);
      [|exact HlenR|exact HndR|].
    { intros kv _ Hf. unfold startsWith0 in Hf.
      destruct (fst kv) as [|[] t]; try discriminate. now exists t. }
    destruct (fork_side true (fun kv => negb (startsWith0 kv)) m RR)
      as (HlenRt & HndRt & _); [|exact HlenR|exact HndR|].
    { intros kv Hin Hf. unfold startsWith0 in Hf.
      rewrite Forall_forall in HlenR. specialize (HlenR kv Hin).
      cbn beta in HlenR. revert Hf HlenR.
      destruct (fst kv) as [|[] t]; cbn; try discriminate. now exists t. }
    fold L in HlenL, HndL. fold Rt in HlenRt, HndRt.
    assert (Hsizes : (length L + length Rt = length src)%nat).
    { unfold L, Rt. rewrite !length_map, filter_lengths, HRR.
      apply length_map. }
    assert (HLpos : (0 < length L)%nat)
      by (destruct L; [contradiction | cbn; lia]).
    assert (HRpos : (0 < length Rt)%nat)
      by (destruct Rt; [contradiction | cbn; lia]).
    destruct (IH L m HL HlenL HndL ltac:(lia)) as (el & Hel & HelE & HelO).
    destruct (IH Rt m HR HlenRt HndRt ltac:(lia)) as (er & Her & HerE & HerO).
    rewrite Hel, Her. cbn [bind]. eexists. split; [reflexivity|].
    rewrite writeEdge_fork, writeLabel_layout by lia.
    replace (Z.of_nat n - Z.of_nat (length label) - 1) with (Z.of_nat m)
      by lia.
    unfold endCell. change (bbits beginCell) with (@nil bool). split.
    + intros err H.
      destruct (writeBits (labelLayout label (Z.of_nat n)) []) as [bs|e]
        eqn:E1; cbn [bind] in H;
        [|injection H as <-; exact (writeBits_Err _ _ _ E1)].
      destruct (writeEdge writeCell el (Z.of_nat m) beginCell) as [lc|e]
        eqn:E2; cbn [bind] in H; [|injection H as <-; now apply HelE].
      destruct (writeEdge writeCell er (Z.of_nat m) beginCell) as [rc|e]
        eqn:E3; cbn [bind] in H; [discriminate|].
      injection H as <-. now apply HerE.
    + intros Hfit.
      assert (Hcap0 : (labelCap n <= CELL_BITS)%nat).
      { rewrite Forall_forall in Hfit. specialize (Hfit kv0 Hin0).
        cbn beta in Hfit. lia. }
      assert (Hfit' : Forall (fun kv => (length (cellBits (snd kv))
                                         + labelCap m <= CELL_BITS)%nat) src).
      { eapply Forall_impl; [|exact Hfit]. intros kv Hkv. cbn beta in *.
        pose proof (labelCap_mono m n ltac:(lia)). lia. }
      rewrite writeBits_ok by (cbn [length]; lia). cbn [bind].
      assert (HfL : isOk (writeEdge writeCell el (Z.of_nat m) beginCell)
                    = true).
      { apply HelO. unfold L. rewrite HRR.
        apply (side_values startsWith0 (length label) src
                 (fun v => (length (cellBits v) + labelCap m
                            <= CELL_BITS)%nat)).
        exact Hfit'. }
      assert (HfR : isOk (writeEdge writeCell er (Z.of_nat m) beginCell)
                    = true).
      { apply HerO. unfold Rt. rewrite HRR.
        apply (side_values (fun kv => negb (startsWith0 kv))
                 (length label) src
                 (fun v => (length (cellBits v) + labelCap m
                            <= CELL_BITS)%nat)).
        exact Hfit'. }
      destruct (writeEdge writeCell el (Z.of_nat m) beginCell);
        [|discriminate].
      destruct (writeEdge writeCell er (Z.of_nat m) beginCell);
        [|discriminate].
      reflexivity.
Qed.

(** [serializeDict] of a non-empty list of entries with distinct keys of
    [n] bits: the only failure is a cell that is too small, and cells that
    leave room for the longest label are enough. *)
Lemma serializeDict_total (items : list (Z * Cell)) (n : nat) :
  (0 < n)%nat ->
  items <> [] ->
  Forall (fun kv => 0 <= fst kv < 2 ^ Z.of_nat n) items ->
  NoDup (map fst items) ->
  (forall err,
      serializeDict writeCell items (Z.of_nat n) = Err err ->
      err = BitStringOverflow) /\
  (Forall (fun kv => (length (cellBits (snd kv)) + labelCap n
                      <= CELL_BITS)%nat) items ->
   isOk (serializeDict writeCell items (Z.of_nat n)) = true).
Proof.
  intros Hn Hne Hrange Hnd. unfold serializeDict, buildTree.
  set (conv := map (fun kv : Z * Cell => (padKey (Z.of_nat n) (fst kv), snd kv))
                   items).
  assert (Hconv : conv = map (fun kv => (bitsOfUint n (fst kv), snd kv)) items).
  { subst conv. apply map_ext_in. intros kv Hin.
    rewrite Forall_forall in Hrange.
    now rewrite padKey_bitsOfUint by (auto using Hrange). }
  destruct (writeEdge_buildEdge (length conv) conv n)
    as (e & He & HeE & HeO).
  - subst conv. destruct items; [contradiction | discriminate].
  - rewrite Hconv. apply Forall_forall. intros kv' Hin.
    apply in_map_iff in Hin. destruct Hin as (kv & <- & _).
    apply length_bitsOfUint.
  - rewrite Hconv, map_map. cbn [fst].
    replace (map (fun x : Z * Cell => bitsOfUint n (fst x)) items)
      with (map (bitsOfUint n) (map fst items))
      by (rewrite map_map; reflexivity).
    apply NoDup_map_inj_in; [|exact Hnd].
    intros x y Hx Hy. rewrite Forall_forall in Hrange.
    apply in_map_iff in Hx. destruct Hx as (kx & <- & Hx).
    apply in_map_iff in Hy. destruct Hy as (ky & <- & Hy).
    apply bitsOfUint_inj; now apply Hrange.
  - lia.
  - rewrite He. cbn [bind]. split; [exact HeE|].
    intros Hfit. apply HeO. subst conv. apply Forall_forall.
    intros kv' Hin. apply in_map_iff in Hin. destruct Hin as (kv & <- & Hin).
    cbn [snd]. rewrite Forall_forall in Hfit. now apply Hfit.
Qed.

(** *** A value is written behind its label *)

Lemma writeBits_length (l bs r : bits) :
  writeBits l bs = Ok r -> (length bs <= length r)%nat.
Proof.
  intros H. apply writeBits_inv in H. destruct H as [-> _].
  rewrite length_app. lia.
Qed.

Lemma writeUint_length (v : Z) (n : nat) (bs r : bits) :
  writeUint v n bs = Ok r -> (length bs <= length r)%nat.
Proof.
  intros H. apply writeUint_inv in H. destruct H as [_ H].
  exact (writeBits_length _ _ _ H).
Qed.

Lemma writeBit_length (b : bool) (bs r : bits) :
  writeBit b bs = Ok r -> length r = S (length bs).
Proof.
  intros H. apply writeBit_inv in H. subst r. rewrite length_app. cbn. lia.
Qed.

(** Every label takes at least one bit. *)
Lemma writeLabel_grows (label : bits) (n : Z) (to bs : bits) :
  writeLabel label n to = Ok bs -> (length to < length bs)%nat.
Proof.
  unfold writeLabel. intros H.
  destruct (detectLabelType label n);
    unfold writeLabelShort, writeLabelLong, writeLabelSame in H;
    inv_bind H; apply writeBit_length in Ha; inv_bind H; inv_bind H.
  - apply writeBits_length in Ha0, H. apply writeBit_length in Ha1. lia.
  - apply writeBit_length in Ha0. apply writeUint_length in Ha1.
    apply writeBits_length in H. lia.
  - apply writeBit_length in Ha0, Ha1. apply writeUint_length in H. lia.
Qed.

Lemma forkMap_sides {T} (src l r : list (bits * T)) :
  forkMap src = Ok (l, r) ->
  l = map substr1 (filter startsWith0 src) /\
  r = map substr1 (filter (fun kv => negb (startsWith0 kv)) src).
Proof.
  unfold forkMap. destruct src as [|kv src]; [discriminate|].
  destruct (map substr1 (filter startsWith0 (kv :: src))) as [|x xs];
    [discriminate|].
  destruct (map substr1 (filter _ (kv :: src))) as [|y ys]; [discriminate|].
  now intros [= <- <-].
Qed.

(** In a tree that [writeEdge] serializes, every value is shorter than a
    cell: it shares the cell of its leaf with the label. *)
Lemma writeEdge_room (fuel : nat) :
  forall (src : list (bits * Cell)) (e : Edge Cell) (n : Z) (c : Cell),
    buildEdge fuel src = Ok e ->
    writeEdge writeCell e n beginCell = Ok c ->
    Forall (fun kv => (length (cellBits (snd kv)) < CELL_BITS)%nat) src.
Proof.
  induction fuel as [|f IH]; intros src e n c Hb Hw; [discriminate|].
  cbn [buildEdge] in Hb. destruct src as [|kv0 src0]; [discriminate|].
  remember (kv0 :: src0) as src eqn:Esrc.
  set (label := findCommonPrefix (map fst src)) in *.
  destruct (removePrefixMap src (length label)) as [|a [|b R]] eqn:ER;
    [discriminate| |].
  - injection Hb as <-.
    assert (Es : src = [kv0]).
    { apply (f_equal (@length _)) in ER. unfold removePrefixMap in ER.
      rewrite length_map, Esrc in ER. cbn in ER.
      destruct src0; [exact Esrc | discriminate]. }
    assert (Ea : snd a = snd kv0).
    { rewrite Es in ER. cbn in ER. now injection ER as <-. }
    rewrite Es. constructor; [|constructor]. rewrite <- Ea.
    cbn [writeEdge writeNode] in Hw. inv_bind Hw.
    apply writeLabel_grows in Ha. cbn [beginCell bbits length] in Ha.
    inv_bind Hw. unfold writeCell in Ha0. cbn [bbits brefs] in Ha0.
    inv_bind Ha0. apply writeBits_inv in Ha1. destruct Ha1 as [-> [Hnil|Hfit]].
    + rewrite Hnil. unfold CELL_BITS. cbn [length]. lia.
    + rewrite length_app in Hfit. lia.
  - remember (a :: b :: R) as RR eqn:ERR.
    inv_bind Hb. destruct a0 as [l r]. inv_bind Hb. inv_bind Hb.
    injection Hb as <-. rewrite writeEdge_fork in Hw.
    inv_bind Hw. inv_bind Hw. inv_bind Hw.
    pose proof (IH _ _ _ _ Ha0 Ha3) as Hl.
    pose proof (IH _ _ _ _ Ha1 Ha4) as Hr.
    apply forkMap_sides in Ha. destruct Ha as [-> ->].
    rewrite Forall_forall in Hl, Hr. apply Forall_forall. intros kv Hin.
    assert (Hkv : In (skipn (length label) (fst kv), snd kv) RR).
    { rewrite <- ER. unfold removePrefixMap. apply in_map_iff. now exists kv. }
    destruct (startsWith0 (skipn (length label) (fst kv), snd kv)) eqn:Es.
    + apply (Hl (substr1 (skipn (length label) (fst kv), snd kv))).
      apply in_map, filter_In. auto.
    + apply (Hr (substr1 (skipn (length label) (fst kv), snd kv))).
      apply in_map, filter_In. split; [exact Hkv | now rewrite Es].
Qed.

Lemma serializeDict_room (items : list (Z * Cell)) (n : Z) (c : Cell) :
  serializeDict writeCell items n = Ok c ->
  Forall (fun kv => (length (cellBits (snd kv)) < CELL_BITS)%nat) items.
Proof.
  unfold serializeDict, buildTree. intros H. inv_bind H.
  pose proof (writeEdge_room _ _ _ _ _ Ha H) as Hf.
  rewrite Forall_forall in Hf. apply Forall_forall. intros kv Hin.
  apply (Hf (padKey n (fst kv), snd kv)). apply in_map_iff. now exists kv.
Qed.

End DictBuildFacts.

(** ** How [buildOnChainData] ends *)

Module BuildOutcome.
Import Ton JettonMinter Codec Layout DictLayout Outcome.
Import BitFacts BuilderFacts ReadFacts DictOrderFacts BuildFacts DictFacts.
Import Sha256Facts CodecFacts EncodingFacts CodecShape DictBuildFacts.

Lemma isByte_Forall (buf : list Z) :
  forallb Utf8.isByte buf = true -> Forall (fun b => 0 <= b < 256) buf.
Proof.
  intros H. rewrite forallb_forall in H. apply Forall_forall.
  intros b Hb. specialize (H b Hb). unfold Utf8.isByte in H.
  apply andb_prop in H. destruct H as [H1 H2].
  apply Z.leb_le in H1. apply Z.ltb_lt in H2. lia.
Qed.

(** The value cell of an entry, from the bytes of the value. *)
Lemma snakeCell_bytes (k v : jsstring) :
  Forall (fun b => 0 <= b < 256)
         (Buffer.from v (asEncoding (jettonOnChainMetadataSpec k))) ->
  snakeCell k v
  = (bs <- writeBits
             (bufferLayout
                (Buffer.from v (asEncoding (jettonOnChainMetadataSpec k))))
             (bitsOfUint 8 SNAKE_PREFIX) ;;
     Ok (mkCell bs [])).
Proof.
  intros Hb. unfold snakeCell. cbn [bind].
  unfold storeUint8, storeBuffer, onBits, writeUint8.
  rewrite writeUint_ok by (vm_compute; split; congruence).
  rewrite writeBits_ok
    by (rewrite length_bitsOfUint; unfold CELL_BITS;
        cbn [bbits beginCell length]; lia).
  cbn [bind bbits brefs beginCell app]. rewrite writeBuffer_ok by exact Hb.
  destruct (writeBits _ _); reflexivity.
Qed.

Lemma snakeCell_small (k v : jsstring) :
  Forall (fun b => 0 <= b < 256)
         (Buffer.from v (asEncoding (jettonOnChainMetadataSpec k))) ->
  (length (Buffer.from v (asEncoding (jettonOnChainMetadataSpec k)))
   <= 126)%nat ->
  snakeCell k v
  = Ok (mkCell (bitsOfUint 8 SNAKE_PREFIX
                ++ bufferLayout
                     (Buffer.from v
                        (asEncoding (jettonOnChainMetadataSpec k)))) []).
Proof.
  intros Hb Hlen. rewrite snakeCell_bytes by exact Hb.
  rewrite writeBits_ok; [reflexivity|].
  rewrite length_bufferLayout, length_bitsOfUint. unfold CELL_BITS. lia.
Qed.

Lemma snakeCell_Err (k v : jsstring) (e : error) :
  Utf8.isString v = true ->
  snakeCell k v = Err e -> e = BitStringOverflow.
Proof.
  intros Hv H. rewrite snakeCell_bytes in H
    by (apply isByte_Forall; now apply from_bytes).
  destruct (writeBits _ _) as [bs|e'] eqn:E; [discriminate|].
  injection H as <-. exact (writeBits_Err _ _ _ E).
Qed.

Lemma content_cell (d : option Cell) :
  (Ok beginCell
     |> storeInt ONCHAIN_CONTENT_PREFIX 8
     |> storeDict d
     |> endCell)
  = Ok (mkCell (bitsOfUint 8 ONCHAIN_CONTENT_PREFIX
                ++ [match d with Some _ => true | None => false end])
               (match d with Some dc => [dc] | None => [] end)).
Proof. destruct d; reflexivity. Qed.

(** *** The items of the dictionary *)

Lemma itemsOf_In (data : Metadata) (it : Z * Cell) :
  In it (flat_map itemsOf data) ->
  exists k v,
    In (k, Some v) data /\ okEntry (k, Some v) /\
    fst it = toKey (sha256 k) /\ snakeCell k v = Ok (snd it).
Proof.
  intros Hin. apply in_flat_map in Hin. destruct Hin as ([k ov] & Hin & Hit).
  unfold itemsOf in Hit.
  destruct (entryItem (k, ov)) as [[item|]|e] eqn:E; try contradiction.
  destruct Hit as [<-|[]].
  assert (Hok : okEntry (k, ov)) by (unfold okEntry; now rewrite E).
  unfold entryItem in E.
  destruct (jettonOnChainMetadataSpec k); try discriminate;
    (destruct ov as [v|]; [|discriminate]);
    (destruct (snakeCell k v) as [cell|] eqn:Ec; [|discriminate]);
    cbn [bind] in E; injection E as <-; exists k, v; auto.
Qed.

Lemma items_range (data : Metadata) :
  Forall (fun kv => 0 <= fst kv < 2 ^ Z.of_nat 256) (flat_map itemsOf data).
Proof.
  apply Forall_forall. intros it Hin.
  destruct (itemsOf_In data it Hin) as (k & v & _ & _ & -> & _).
  apply sha256_key_range.
Qed.

Lemma items_NoDup (data : Metadata) :
  NoDup (map fst data) -> NoDup (map fst (flat_map itemsOf data)).
Proof.
  induction data as [|[k ov] data IH]; intros Hnd; [constructor|].
  cbn [map fst] in Hnd. inversion Hnd as [|? ? Hk Hnd']; subst.
  cbn [flat_map]. rewrite map_app.
  destruct (itemsOf (k, ov)) as [|it its] eqn:E; [now apply IH|].
  assert (Hits : its = []).
  { unfold itemsOf in E. destruct (entryItem (k, ov)) as [[item|]|];
      try discriminate. now injection E. }
  subst its. cbn [map app]. constructor; [|now apply IH].
  intros Hin. apply in_map_iff in Hin. destruct Hin as (it' & Hkey & Hin').
  destruct (itemsOf_In data it' Hin') as (k' & v' & Hd' & Hok' & Hk' & _).
  destruct (itemsOf_In [(k, ov)] it) as (k0 & v0 & Hd0 & Hok0 & Hk0 & _).
  { cbn [flat_map]. rewrite E. now left. }
  destruct Hd0 as [[= <- ->]|[]].
  assert (Heq : k' = k).
  { apply sha256_injective.
    - exact (okEntry_passing _ Hok').
    - exact (okEntry_passing _ Hok0).
    - congruence. }
  subst k'. apply Hk. apply in_map_iff. now exists (k, Some v').
Qed.

(** *** The errors of the loop over the entries *)

Lemma entryItem_Err (k : jsstring) (ov : option jsstring) (e : error) :
  match ov with Some v => Utf8.isString v = true | None => True end ->
  entryItem (k, ov) = Err e ->
  e = BitStringOverflow \/
  (e = UnsupportedOnchainKey k /\ jettonOnChainMetadataSpec k = Undefined).
Proof.
  intros Hv H. unfold entryItem in H.
  destruct (jettonOnChainMetadataSpec k) eqn:Es;
    try (injection H as <-; now right);
    (destruct ov as [v|]; [|discriminate]);
    (destruct (snakeCell k v) as [cell|e'] eqn:Ec; [discriminate|]);
    cbn [bind] in H; injection H as <-; left;
    exact (snakeCell_Err k v _ Hv Ec).
Qed.

Lemma forEach_storeEntry_Err (data : Metadata) :
  forall (pre : Metadata) (d0 : DictBuilder) (e : error),
    NoDup (map fst (pre ++ data)) ->
    items d0 = flat_map itemsOf pre ->
    stringValues data ->
    forEach storeEntry data d0 = Err e ->
    buildError data e.
Proof.
  induction data as [|[k ov] data IH]; intros pre d0 e Hnd Hit Hsv H;
    [discriminate|].
  inversion Hsv as [|? ? Hv Hsv']; subst. cbn [snd] in Hv.
  cbn [forEach] in H. rewrite storeEntry_entryItem in H.
  assert (Hstep : forall d1,
             items d1 = flat_map itemsOf (pre ++ [(k, ov)]) ->
             forEach storeEntry data d1 = Err e ->
             buildError ((k, ov) :: data) e).
  { intros d1 Hit1 H1.
    destruct (IH (pre ++ [(k, ov)]) d1 e) as [->|(k' & -> & Hin & Hu)];
      try assumption.
    - now rewrite <- app_assoc.
    - now left.
    - right. exists k'. repeat split; [now right | exact Hu]. }
  destruct (entryItem (k, ov)) as [[[key cell]|]|e'] eqn:E; cbn [bind] in H.
  - assert (Hio : itemsOf (k, ov) = [(key, cell)])
      by (unfold itemsOf; now rewrite E).
    destruct (mapGet key (items d0)) as [c|] eqn:Hg.
    + exfalso. apply mapGet_Some_In in Hg. rewrite Hit in Hg.
      destruct (itemsOf_In pre _ Hg) as (k' & v' & Hd' & Hok' & Hk' & _).
      destruct (itemsOf_In [(k, ov)] (key, cell))
        as (k0 & v0 & Hd0 & Hok0 & Hk0 & _).
      { cbn [flat_map]. rewrite Hio. now left. }
      destruct Hd0 as [[= <- ->]|[]]. cbn [fst] in Hk', Hk0.
      assert (Heq : k' = k).
      { apply sha256_injective.
        - exact (okEntry_passing _ Hok').
        - exact (okEntry_passing _ Hok0).
        - congruence. }
      subst k'. rewrite map_app in Hnd. cbn [map fst] in Hnd.
      apply (NoDup_app_disjoint _ _ k Hnd).
      * apply in_map_iff. now exists (k, Some v').
      * now left.
    + cbn [bind] in H. refine (Hstep _ _ H). cbn [items].
      rewrite flat_map_app, Hit. cbn [flat_map]. now rewrite Hio.
  - apply (Hstep d0); [|exact H].
    rewrite flat_map_app, Hit. cbn [flat_map].
    unfold itemsOf. rewrite E. now rewrite !app_nil_r.
  - injection H as <-.
    destruct (entryItem_Err k ov _ Hv E) as [->|[-> Hu]]; [now left|].
    right. exists k. repeat split; [now left | exact Hu].
Qed.

(** X8. On a mapping of strings with distinct keys, [buildOnChainData]
    either returns a cell or throws one of two exceptions: a cell overflow,
    or 'Unsupported onchain key' for a key of the mapping outside the
    metadata mapping.  It never reports a duplicate dictionary item, a value
    too wide for its field or an inconsistent dictionary. *)
Theorem buildOnChainData_errors :
  forall (data : Metadata) (e : error),
    NoDup (map fst data) ->
    stringValues data ->
    buildOnChainData data = Err e ->
    buildError data e.
Proof.
  intros data e Hnd Hsv H. unfold buildOnChainData in H.
  destruct (forEach storeEntry data (beginDict 256)) as [dict|e'] eqn:Ef;
    cbn [bind] in H.
  - apply forEach_storeEntry_inv in Ef; [|constructor].
    destruct Ef as (Hok & -> & Hndi).
    cbn [items keySize beginDict app] in *.
    unfold endDict in H. cbn [items keySize] in H.
    destruct (flat_map itemsOf data) as [|it its] eqn:Eits.
    + cbn in H. discriminate.
    + rewrite <- Eits in *.
      destruct (serializeDict_total (flat_map itemsOf data) 256)
        as [HE _]; try assumption.
      * lia.
      * rewrite Eits. discriminate.
      * apply items_range.
      * change (Z.of_nat 256) with 256 in HE.
        destruct (serializeDict writeCell (flat_map itemsOf data) 256)
          as [c|e'] eqn:Es; cbn [bind] in H.
        -- cbn in H. discriminate.
        -- injection H as <-. left. now apply HE.
  - injection H as <-.
    apply (forEach_storeEntry_Err data [] (beginDict 256)); auto.
Qed.

Lemma buildOnChainData_errors_witness :
  buildError
    [(js "name", Some Examples.longName); (js "foo", Some (js "x"))]
    BitStringOverflow.
Proof.
  apply (buildOnChainData_errors
           [(js "name", Some Examples.longName); (js "foo", Some (js "x"))]).
  - constructor; [intros [H|[]]; vm_compute in H; discriminate H|].
    constructor; [intros []|constructor].
  - repeat constructor; vm_compute; reflexivity.
  - vm_compute. reflexivity.
Defined.


(** *** Values that are small enough, values that are too long *)

Lemma labelCap_256 : labelCap 256 = 267%nat.
Proof. vm_compute. reflexivity. Qed.

Lemma smallValues_okEntry (bound : nat) (data : Metadata) :
  (bound <= 126)%nat -> smallValues bound data -> Forall okEntry data.
Proof.
  intros Hb H. eapply Forall_impl; [|exact H].
  intros [k ov] [Hk Hv]. cbn [fst snd] in *. unfold okEntry, entryItem.
  rewrite (spec_own k Hk). destruct ov as [v|]; [|reflexivity].
  destruct Hv as [Hs Hlen].
  rewrite snakeCell_small; [reflexivity| |];
    rewrite (spec_own k Hk); cbn [asEncoding].
  - apply isByte_Forall. now apply from_bytes.
  - lia.
Qed.

(** X9. [buildOnChainData] returns a cell for every mapping with distinct
    recognized keys whose defined values are strings of at most 93 bytes in
    the encoding mode of their key; [undefined] values are allowed.  This is
    so, in particular, when name, description and symbol have at most 31
    code units and image at most 93. *)
Theorem buildOnChainData_small_values :
  (forall data : Metadata,
      NoDup (map fst data) ->
      smallValues 93 data ->
      exists content, buildOnChainData data = Ok content) /\
  (forall data : Metadata,
      NoDup (map fst data) ->
      shortValues data ->
      exists content, buildOnChainData data = Ok content).
Proof.
  assert (Hfits : forall data : Metadata,
             NoDup (map fst data) -> smallValues 93 data ->
             exists content, buildOnChainData data = Ok content).
  { intros data Hnd Hsmall.
    pose proof (smallValues_okEntry 93 data ltac:(lia) Hsmall) as Hok.
    pose proof (items_NoDup data Hnd) as Hndi.
    unfold buildOnChainData.
    rewrite (forEach_storeEntry_intro data (beginDict 256) Hok Hndi).
    cbn [bind beginDict items keySize app]. unfold endDict. cbn [items keySize].
    destruct (flat_map itemsOf data) as [|it its] eqn:Eits.
    - cbn. eexists. reflexivity.
    - rewrite <- Eits in *.
      destruct (serializeDict_total (flat_map itemsOf data) 256)
        as [_ HO]; try assumption.
      + lia.
      + rewrite Eits. discriminate.
      + apply items_range.
      + change (Z.of_nat 256) with 256 in HO.
        destruct (serializeDict writeCell (flat_map itemsOf data) 256)
          as [c|e] eqn:Es.
        * cbn. eexists. reflexivity.
        * exfalso. enough (false = true) by discriminate. apply HO.
          apply Forall_forall. intros it' Hin. rewrite labelCap_256.
          destruct (itemsOf_In data it' Hin) as (k & v & Hd & _ & _ & Hc).
          unfold smallValues in Hsmall. rewrite Forall_forall in Hsmall.
          destruct (Hsmall _ Hd) as [Hk [Hs Hlen]]. cbn [fst snd] in *.
          rewrite snakeCell_small in Hc;
            try (rewrite (spec_own k Hk); cbn [asEncoding]).
          -- injection Hc as <-. cbn [cellBits].
             rewrite ?length_app, ?length_bitsOfUint. cbn [length].
             rewrite length_bufferLayout.
             rewrite (spec_own k Hk). cbn [asEncoding]. unfold CELL_BITS. lia.
          -- apply isByte_Forall. now apply from_bytes.
          -- lia. }
  split; [exact Hfits|]. intros data Hnd Hshort.
  apply Hfits; [exact Hnd|]. eapply Forall_impl; [|exact Hshort].
  intros [k ov] [Hk Hv]. split; [exact Hk|]. cbn [fst snd] in *.
  destruct ov as [v|]; [|exact I]. destruct Hv as [Hs Hlen].
  split; [exact Hs|]. pose proof (length_from v (encodingOf k) Hs) as Hb.
  destruct (encodingOf k); lia.
Qed.

Lemma buildOnChainData_small_values_witness :
  exists content, buildOnChainData Examples.testMetadata = Ok content.
Proof.
  apply (proj1 buildOnChainData_small_values Examples.testMetadata).
  - constructor; [intros [H|[]]; vm_compute in H; discriminate H|].
    constructor; [intros []|constructor].
  - repeat constructor; vm_compute; auto; intros H; discriminate H.
Defined.

(** X10. [buildOnChainData] throws whenever some defined value of the
    mapping takes 127 bytes or more in the encoding mode of its key: with the
    snake tag such a value takes at least 1024 bits, which is all a cell
    holds, and in the dictionary a value is written behind the label of its
    leaf, in the same cell. *)
Theorem buildOnChainData_long_value :
  forall (data : Metadata) (k v : jsstring),
    In (k, Some v) data ->
    (127 <= length (Buffer.from v
                      (asEncoding (jettonOnChainMetadataSpec k))))%nat ->
    isOk (buildOnChainData data) = false.
Proof.
  intros data k v Hin Hlen.
  destruct (buildOnChainData data) as [c|e] eqn:E; [|reflexivity].
  exfalso. apply buildOnChainData_inv in E.
  destruct E as (Hok & _ & d & Hd & _).
  rewrite Forall_forall in Hok. specialize (Hok _ Hin).
  unfold okEntry in Hok.
  destruct (entryItem (k, Some v)) as [oit|e] eqn:Ei; [|discriminate].
  assert (Hc : exists key cell,
             oit = Some (key, cell) /\ snakeCell k v = Ok cell).
  { unfold entryItem in Ei.
    destruct (jettonOnChainMetadataSpec k); try discriminate;
      (destruct (snakeCell k v) as [cell|]; [|discriminate]);
      cbn [bind] in Ei; injection Ei as <-; eauto. }
  destruct Hc as (key & cell & -> & Hc).
  assert (Hit : In (key, cell) (flat_map itemsOf data)).
  { apply in_flat_map. exists (k, Some v). split; [exact Hin|].
    unfold itemsOf. rewrite Ei. now left. }
  destruct (snakeCell_inv k v cell Hc) as [_ ->].
  unfold endDict in Hd. cbn [items keySize] in Hd.
  destruct (flat_map itemsOf data) as [|it its] eqn:Eits; [contradiction|].
  inv_bind Hd. apply serializeDict_room in Ha.
  rewrite Forall_forall in Ha. specialize (Ha _ Hit).
  cbn [snd cellBits] in Ha.
  rewrite length_app, length_bitsOfUint, length_bufferLayout in Ha.
  unfold CELL_BITS in Ha. lia.
Qed.

Lemma buildOnChainData_long_value_witness :
  isOk (buildOnChainData [(js "name", Some (repeat 97 127))]) = false.
Proof.
  apply (buildOnChainData_long_value
           [(js "name", Some (repeat 97 127))]
           (js "name") (repeat 97 127)).
  - left. reflexivity.
  - vm_compute. repeat constructor.
Defined.

(** At 127 bytes the value cell itself is built, filled to the last bit; it
    is the leaf of the dictionary that overflows. *)
Lemma snakeCell_fills_cell :
  (exists cell,
      snakeCell (js "name") (repeat 97 127) = Ok cell /\
      length (cellBits cell) = CELL_BITS) /\
  buildOnChainData [(js "name", Some (repeat 97 127))]
  = Err BitStringOverflow.
Proof.
  split; [|vm_compute; reflexivity].
  destruct (snakeCell (js "name") (repeat 97 127)) as [cell|e] eqn:E;
    vm_compute in E; [|discriminate E].
  exists cell. split; [reflexivity|]. injection E as <-. reflexivity.
Qed.

End BuildOutcome.

(** ** The owner of [initData] *)

Module InitDataFacts.
Import Ton JettonMinter Codec Layout Outcome.
Import BitFacts BuilderFacts MessageFacts BuildFacts DictBuildFacts.
Import BuildOutcome.









End InitDataFacts.

(** ** Writing through the selector of the connection store *)

Module StoreLaws.
Import ConnectionStore StoreValues.

Lemma set_frame_after (atom : ConnectionStateAtom) (v : JsValue) :
  adapterId (atomAfterSet atom v) = adapterId atom /\
  isConnecting (atomAfterSet atom v) = isConnecting atom /\
  isRestoring (atomAfterSet atom v) = isRestoring atom.
Proof.
  unfold atomAfterSet, connectWalletSelector_set. destruct v; cbn; auto.
Qed.

(** X11. The writes through [connectWalletSelector] compose as those of a
    store of two fields.  Writing back the state its [get] returns succeeds
    and changes nothing.  Of two writes the last one wins: if the second
    value is neither [null] nor [undefined], the atom after both writes is
    the atom after the second write alone, whatever the first value was,
    even one on which the first write threw; in particular a write done
    twice is a write done once. *)
Theorem connectWalletSelector_write_laws :
  forall (atom : ConnectionStateAtom),
    connectWalletSelector_set atom (asValue (connectWalletSelector_get atom))
    = Ok atom /\
    (forall v1 v2 : JsValue,
        isNullish v2 = false ->
        atomAfterSet (atomAfterSet atom v1) v2 = atomAfterSet atom v2) /\
    (forall v : JsValue,
        atomAfterSet (atomAfterSet atom v) v = atomAfterSet atom v).
Proof.
  intros atom.
  assert (Hlast : forall v1 v2 : JsValue,
             isNullish v2 = false ->
             atomAfterSet (atomAfterSet atom v1) v2 = atomAfterSet atom v2).
  { intros v1 v2 Hv2.
    destruct (set_frame_after atom v1) as (H1 & H2 & H3).
    unfold atomAfterSet at 1 3. unfold connectWalletSelector_set.
    destruct v2; try discriminate; cbn [getProp bind];
      now rewrite H1, H2, H3. }
  split; [destruct atom; reflexivity|]. split; [exact Hlast|].
  intros v. destruct (isNullish v) eqn:Hv; [|now apply Hlast].
  destruct v; try discriminate; reflexivity.
Qed.

Lemma connectWalletSelector_write_laws_witness :
  atomAfterSet (atomAfterSet connectionStateAtom_default JsNull)
               (JsObject [(js "address", JsString (js "EQ"))])
  = atomAfterSet connectionStateAtom_default
                 (JsObject [(js "address", JsString (js "EQ"))]).
Proof.
  apply (proj1 (proj2 (connectWalletSelector_write_laws
                         connectionStateAtom_default))).
  reflexivity.
Defined.

End StoreLaws.

(** ** The amount of [mintBody] and the keys of the dictionary *)

Module Bounds.
Import Ton JettonMinter Layout.
Import BitFacts BuilderFacts Sha256Facts.

Lemma writeCoins_too_large (v : Z) (bs : bits) :
  2 ^ 120 <= v -> writeCoins v bs = Err BitLengthTooSmall.
Proof.
  intros Hv. unfold writeCoins.
  destruct (Z.eqb_spec v 0) as [->|_]; [lia|]. cbv zeta.
  assert (Hlog : 120 <= Z.log2 v) by (apply Z.log2_le_pow2; lia).
  assert (Hl : 16 <= (hexLength v + 1) / 2).
  { unfold hexLength. destruct (Z.eqb_spec v 0); [lia|].
    Z.div_mod_to_equations. lia. }
  set (l := (hexLength v + 1) / 2) in *.
  unfold writeUint at 1.
  destruct (Z.ltb_spec l 0); [reflexivity|].
  assert (Hbl : 4 < bitLength l).
  { unfold bitLength. destruct (Z.eqb_spec l 0); [lia|].
    assert (4 <= Z.log2 l) by (apply Z.log2_le_pow2; lia). lia. }
  cbn [Nat.eqb orb]. change (Z.of_nat 4) with 4.
  destruct (Z.ltb_spec 4 (bitLength l)); [|lia].
  destruct (Z.eqb_spec l 0); [lia|]. reflexivity.
Qed.

Lemma internalTransfer_too_large (v : Z) :
  2 ^ 120 <= v ->
  (Ok beginCell |> storeUint OPS.InternalTransfer 32 |> storeUint 0 64
     |> storeCoins v |> storeAddress None |> storeAddress None
     |> storeCoins 0 |> storeBit false |> endCell)
  = Err BitLengthTooSmall.
Proof.
  intros Hv.
  destruct (Ok beginCell |> storeUint OPS.InternalTransfer 32
              |> storeUint 0 64) as [b|e] eqn:E.
  - assert (H : storeCoins v b = Err BitLengthTooSmall)
      by (unfold storeCoins, onBits;
          now rewrite writeCoins_too_large by exact Hv).
    cbn [bind]. rewrite H. reflexivity.
  - vm_compute in E. discriminate E.
Qed.

(** X12. [mintBody] throws for every amount of 2^120 or more, whatever the
    owner: the coin encoding has a 4-bit byte count.  For a well-formed owner
    the exception is the one of the amount; the stores of the outer message
    run before the inner transfer message is built, so an owner they refuse
    is reported first. *)
Theorem mintBody_amount_too_large :
  forall (owner : Address) (jettonValue : Z),
    2 ^ 120 <= jettonValue ->
    isOk (mintBody owner jettonValue) = false /\
    (wfAddress owner -> mintBody owner jettonValue = Err BitLengthTooSmall).
Proof.
  intros owner v Hv. unfold mintBody.
  rewrite (internalTransfer_too_large v Hv). split.
  - destruct (Ok beginCell |> storeUint OPS.Mint 32 |> storeUint 0 64
                |> storeAddress (Some owner) |> storeCoins (toNano 0 2));
      reflexivity.
  - intros Hown. cbn [bind]. do 4 MessageFacts.store. reflexivity.
Qed.

Lemma mintBody_amount_too_large_witness :
  isOk (mintBody Examples.owner0 (2 ^ 121)) = false /\
  (wfAddress Examples.owner0 ->
   mintBody Examples.owner0 (2 ^ 121) = Err BitLengthTooSmall).
Proof.
  apply (mintBody_amount_too_large Examples.owner0 (2 ^ 121)).
  vm_compute. congruence.
Defined.

(** X13. The digest [sha256] returns for a key always has 32 bytes, each
    between 0 and 255, so the number [toKey] makes of it fits the 256 key
    bits of the dictionary ([KEYLEN]). *)
Theorem sha256_fits_key_length :
  forall k : jsstring,
    length (sha256 k) = 32%nat /\
    Forall (fun b => 0 <= b < 256) (sha256 k) /\
    0 <= toKey (sha256 k) < 2 ^ 256.
Proof.
  intros k. split; [apply length_digest|].
  split; [apply digest_range | apply sha256_key_range].
Qed.

End Bounds.

(** ** The submit handler of the deployer screen *)

Module DeployFlowFacts.
Import DeployFlow.

(** X14. However the calls of [deployContract] turn out: when its promise
    resolves, [isLoading] is false and [contractAddress] is either what it
    was or the address [createJetton] returned; when it rejects, neither
    [error] nor [contractAddress] has been written, and [isLoading] is what
    it was or true. *)
Theorem deployContract_settles :
  forall (A P : Type) (c : Calls A P) (address : option jsstring)
         (s s' : UiState A) (o : Outcome unit),
    deployContract c address s = (s', o) ->
    match o with
    | Returns _ =>
        isLoading s' = false /\
        (contractAddress s' = contractAddress s \/
         exists owner amount result,
           createJetton c owner amount = Returns result /\
           contractAddress s' = Some result)
    | Throws _ =>
        error s' = error s /\
        contractAddress s' = contractAddress s /\
        (isLoading s' = isLoading s \/ isLoading s' = true)
    end.
Proof.
  intros A P c address s s' o H. unfold deployContract in H.
  destruct address as [[|ch addr]|]; try (injection H as <- <-; now auto).
  destruct (negb (getConnection c)); [injection H as <- <-; now auto|].
  destruct (Address_parse c (ch :: addr)) as [owner|t];
    [|injection H as <- <-; now auto].
  destruct (toNano_mintAmount c) as [amount|t];
    [|injection H as <- <-; now auto].
  cbv zeta in H.
  destruct (createDeployParams c owner amount) as [dp|t];
    [|injection H as <- <-; cbn; now auto].
  destruct (addressForContract c dp) as [ca|t];
    [|injection H as <- <-; cbn; now auto].
  destruct (isContractDeployed c ca) as [[|]|t];
    try (injection H as <- <-; cbn; now auto).
  destruct (createJetton c owner amount) as [result|[message|]] eqn:E;
    injection H as <- <-; cbn; split; auto.
  right. now exists owner, amount, result.
Qed.

Lemma deployContract_settles_witness :
  isLoading (fst (deployContract calls0 (Some (js "EQ")) ui0)) = false /\
  (contractAddress (fst (deployContract calls0 (Some (js "EQ")) ui0))
   = contractAddress ui0 \/
   exists owner amount result,
     createJetton calls0 owner amount = Returns result /\
     contractAddress (fst (deployContract calls0 (Some (js "EQ")) ui0))
     = Some result).
Proof.
  exact (deployContract_settles nat nat calls0 (Some (js "EQ")) ui0
           _ (Returns tt) eq_refl).
Defined.

(** X15. When the wallet is connected and the owner address and the amount
    are accepted, a failure of [isContractDeployed] rejects the promise of
    [deployContract] with [isLoading] left true and no error recorded: the
    call is made after [setIsLoading(true)] and outside the [try]. *)
Theorem deployContract_check_failure_keeps_loading :
  forall (A P : Type) (c : Calls A P) (address : jsstring) (s : UiState A)
         (owner _contractAddress : A) (amount : Z) (deployParams : P)
         (t : Thrown),
    address <> [] ->
    getConnection c = true ->
    Address_parse c address = Returns owner ->
    toNano_mintAmount c = Returns amount ->
    createDeployParams c owner amount = Returns deployParams ->
    addressForContract c deployParams = Returns _contractAddress ->
    isContractDeployed c _contractAddress = Throws t ->
    deployContract c (Some address) s
    = (mkUiState (error s) true (contractAddress s), Throws t).
Proof.
  intros A P c address s owner ca amount dp t Hne Hc Hp Hn Hd Ha Hi.
  unfold deployContract. destruct address as [|ch addr]; [contradiction|].
  rewrite Hc, Hp, Hn. cbn [negb]. cbv zeta. now rewrite Hd, Ha, Hi.
Qed.

Lemma deployContract_check_failure_keeps_loading_witness :
  deployContract calls1 (Some (js "EQ")) ui0
  = (mkUiState (error ui0) true (contractAddress ui0),
     Throws (ErrorObject (js "timeout"))).
Proof.
  apply (deployContract_check_failure_keeps_loading nat nat calls1
           (js "EQ") ui0 1%nat 3%nat 5 2%nat);
    try reflexivity.
  discriminate.
Defined.

End DeployFlowFacts.

(** ** The content cell determines the mapping; cells that are too short *)

Module CodecInjective.
Import Ton JettonMinter Codec Layout.
Import BitFacts BuilderFacts ReadFacts DictOrderFacts BuildFacts DictFacts.
Import Sha256Facts CodecFacts BuildOutcome.

(** Two mappings encoded into the same cell store the same bytes under the
    same digests. *)
Lemma storedBytes_same_cell (data data' : Metadata) (c : Cell) :
  buildOnChainData data = Ok c ->
  buildOnChainData data' = Ok c ->
  Permutation (storedBytes data) (storedBytes data').
Proof.
  intros H H'. apply buildOnChainData_inv in H, H'.
  destruct H as (Hok & Hnd & d & Hd & Hc).
  destruct H' as (Hok' & Hnd' & d' & Hd' & Hc').
  assert (Ed : d' = d).
  { rewrite Hc in Hc'. destruct d, d'; try discriminate;
      [now injection Hc' as -> | reflexivity]. }
  subst d'. clear Hc Hc'.
  pose proof (storedBytes_spec data Hok) as Hs.
  pose proof (storedBytes_spec data' Hok') as Hs'.
  unfold endDict in Hd, Hd'. cbn [items keySize] in Hd, Hd'.
  destruct (flat_map itemsOf data) as [|it its] eqn:Eits;
    destruct (flat_map itemsOf data') as [|it' its'] eqn:Eits'.
  - cbn in Hs, Hs'. injection Hs as <-. injection Hs' as <-. constructor.
  - injection Hd as <-. apply bind_Ok_inv in Hd'.
    destruct Hd' as (dc & _ & Hd'). discriminate.
  - injection Hd' as <-. apply bind_Ok_inv in Hd.
    destruct Hd as (dc & _ & Hd). discriminate.
  - rewrite <- Eits in *. rewrite <- Eits' in *. clear Eits Eits'.
    apply bind_Ok_inv in Hd. destruct Hd as (dc & Hser & Hd).
    apply bind_Ok_inv in Hd'. destruct Hd' as (dc' & Hser' & Hd').
    injection Hd as <-. injection Hd' as ->.
    change 256 with (Z.of_nat 256) in Hser, Hser'.
    apply doParse_serializeDict in Hser;
      [|lia|apply items_range|exact Hnd].
    apply doParse_serializeDict in Hser';
      [|lia|apply items_range|exact Hnd'].
    destruct Hser as (es & Hes & Hperm).
    destruct Hser' as (es' & Hes' & Hperm').
    rewrite Hes in Hes'. injection Hes' as <-.
    assert (Hp : Permutation
                   (map (fun kv => (fst kv, beginParse (snd kv)))
                        (flat_map itemsOf data))
                   (map (fun kv => (fst kv, beginParse (snd kv)))
                        (flat_map itemsOf data')))
      by (etransitivity; [apply Permutation_sym; exact Hperm | exact Hperm']).
    destruct (mapM_perm _ _ _ Hp _ Hs) as (r' & Hr' & Hpr).
    rewrite Hs' in Hr'. now injection Hr' as <-.
Qed.

(** X16. [buildOnChainData] loses nothing but the order of the entries: two
    mappings with distinct keys that are encoded into the same cell define
    the same keys among name, description, image and symbol, with values of
    the same bytes in the encoding mode of the key. *)
Theorem buildOnChainData_injective :
  forall (data data' : Metadata) (content : Cell) (k : jsstring),
    NoDup (map fst data) ->
    NoDup (map fst data') ->
    buildOnChainData data = Ok content ->
    buildOnChainData data' = Ok content ->
    In k JETTON_METADATA_KEYS ->
    option_map (fun v => Buffer.from v (Some (encodingOf k))) (metaGet k data)
    = option_map (fun v => Buffer.from v (Some (encodingOf k)))
                 (metaGet k data').
Proof.
  intros data data' content k Hnd Hnd' Hb Hb' Hk.
  pose proof (storedBytes_same_cell data data' content Hb Hb') as Hperm.
  apply buildOnChainData_inv in Hb, Hb'.
  destruct Hb as (Hok & _). destruct Hb' as (Hok' & Hndi' & _).
  assert (Hndd : NoDup (map fst (storedBytes data')))
    by (now rewrite storedBytes_keys).
  rewrite <- (dict_lookup data (storedBytes data') k Hnd Hok Hndd Hperm Hk).
  now rewrite <- (dict_lookup data' (storedBytes data') k Hnd' Hok' Hndd
                    (Permutation_refl _) Hk).
Qed.

Lemma buildOnChainData_injective_witness :
  option_map (fun v => Buffer.from v (Some (encodingOf (js "name"))))
             (metaGet (js "name") Examples.testMetadata)
  = option_map (fun v => Buffer.from v (Some (encodingOf (js "name"))))
               (metaGet (js "name")
                  [(js "symbol", Some (js "TST"));
                   (js "name", Some (js "Test"))]).
Proof.
  apply (buildOnChainData_injective Examples.testMetadata
           [(js "symbol", Some (js "TST")); (js "name", Some (js "Test"))]
           Examples.testContent (js "name")).
  - constructor; [intros [H|[]]; vm_compute in H; discriminate H|].
    constructor; [intros []|constructor].
  - constructor; [intros [H|[]]; vm_compute in H; discriminate H|].
    constructor; [intros []|constructor].
  - vm_compute. reflexivity.
  - vm_compute. reflexivity.
  - left. reflexivity.
Defined.

Lemma takeBits_short (n : nat) :
  forall bs : bits,
    (length bs < n)%nat -> takeBits n bs = Err SliceOutOfRange.
Proof.
  induction n as [|n IH]; intros bs H; [lia|].
  cbn [takeBits]. destruct bs as [|b bs]; [reflexivity|].
  cbn [takeBit bind]. cbn [length] in H. now rewrite IH by lia.
Qed.

(** X17. [parseOnChainData] throws on every cell with fewer than eight data
    bits, the empty cell among them, and the exception is the one of the
    read past the end of the slice, not 'Expected onchain content marker'. *)
Theorem parseOnChainData_short_cell :
  forall c : Cell,
    (length (cellBits c) < 8)%nat ->
    parseOnChainData c = Err SliceOutOfRange.
Proof.
  intros c H. unfold parseOnChainData, readUint, onSlice, takeUint.
  cbn [beginParse sbits]. now rewrite takeBits_short.
Qed.

Lemma parseOnChainData_short_cell_witness :
  parseOnChainData (mkCell [] []) = Err SliceOutOfRange.
Proof.
  apply (parseOnChainData_short_cell (mkCell [] [])). cbn. lia.
Defined.

End CodecInjective.
